(** * Spatial Semantic Pointers: the transform primitives, the unitary-vector
      constructor and the fractional power of [python/utils.py]

    The arrays of the program hold IEEE floating-point numbers.  This
    development reads them as exact real and complex numbers: a float is the
    real it denotes, an operation is the exact operation, and rounding is left
    out.  Every statement below is therefore a statement about the program in
    exact arithmetic; where the source compares with [np.allclose], the
    comparison is kept with its tolerances, over the reals.

    Two outcomes of the program are not numbers and are kept apart from
    them: an exception ([inl] of an error), and a value that is no finite
    number, the nan that numpy's [**] gives on a zero base with a negative
    exponent and the nan or infinity that a division gives on a zero divisor
    ([None] for a scalar, [AllNaN] for an array). *)

From Stdlib Require Import Reals Lra Lia List Arith Bool.
From Equations Require Import Equations.
Import ListNotations.

Open Scope R_scope.

(** ** Complex numbers, as pairs of reals *)

Definition C : Type := (R * R)%type.

Definition Re (z : C) : R := fst z.
Definition Im (z : C) : R := snd z.

Definition RtoC (x : R) : C := (x, 0).
Definition C0 : C := (0, 0).
Definition C1 : C := (1, 0).
Definition Ci : C := (0, 1).

Definition Cadd (z w : C) : C := (Re z + Re w, Im z + Im w).
Definition Copp (z : C) : C := (- Re z, - Im z).
Definition Csub (z w : C) : C := (Re z - Re w, Im z - Im w).
Definition Cmul (z w : C) : C :=
  (Re z * Re w - Im z * Im w, Re z * Im w + Im z * Re w).
Definition Cscale (a : R) (z : C) : C := (a * Re z, a * Im z).
Definition Cdiv_real (z : C) (a : R) : C := (Re z / a, Im z / a).

(** [np.abs] on a complex number. *)
Definition Cabs (z : C) : R := sqrt (Re z * Re z + Im z * Im z).

(** [np.exp] on a complex number. *)
Definition Cexp (z : C) : C := (exp (Re z) * cos (Im z), exp (Re z) * sin (Im z)).

(** The unit phasor of angle [t]: [np.cos(t) + 1j * np.sin(t)]. *)
Definition cis (t : R) : C := (cos t, sin t).

Declare Scope C_scope.
Delimit Scope C_scope with C.
Bind Scope C_scope with C.
Infix "+" := Cadd : C_scope.
Infix "-" := Csub : C_scope.
Infix "*" := Cmul : C_scope.
Notation "- z" := (Copp z) : C_scope.

(** ** Arrays *)

(** An elementwise binary operation of numpy on two arrays of one length. *)
Fixpoint zip_with {A B D : Type} (f : A -> B -> D) (l : list A) (m : list B) : list D :=
  match l, m with
  | a :: l', b :: m' => f a b :: zip_with f l' m'
  | _, _ => []
  end.

(** The slice [x[0::2]]; [x[1::2]] is [stride2 (tl x)]. *)
Fixpoint stride2 {A : Type} (x : list A) : list A :=
  match x with
  | a :: _ :: t => a :: stride2 t
  | _ => x
  end.

(** [np.arange(N)]. *)
Definition arange (N : nat) : list nat := seq 0 N.

(** The sum of the entries of an array. *)
Definition Csum_list (l : list C) : C := fold_right Cadd C0 l.

(** [np.dot(M, x)] for a matrix given by its rows and a vector. *)
Definition np_dot (M : list (list C)) (x : list C) : list C :=
  map (fun row => Csum_list (zip_with Cmul row x)) M.

(** ** The transforms of the source *)

(** The matrix [np.exp(-2j * np.pi * k * n / N)] of the direct transform,
    row [k], column [n]. *)
Definition dft_matrix (N : nat) : list (list C) :=
  map (fun k => map (fun n => Cexp (0, -2 * PI * INR k * INR n / INR N)) (arange N))
      (arange N).

(** The twiddle factors [np.exp(-2j * np.pi * np.arange(N // 2) / N)]. *)
Definition twiddles (N : nat) : list C :=
  map (fun k => Cexp (0, -2 * PI * INR k / INR N)) (arange (N / 2)).

Lemma stride2_length_lt {A : Type} (x : list A) :
  (1 < length x)%nat -> (length (stride2 x) < length x)%nat.
Proof.
  assert (H : forall n (y : list A), (length y <= n)%nat ->
            (length (stride2 y) <= length y)%nat /\
            ((1 < length y)%nat -> (length (stride2 y) < length y)%nat)).
  { induction n as [|n IH]; intros y Hy.
    - destruct y; simpl in *; [split; lia | lia].
    - destruct y as [|a [|b t]]; simpl in *; try (split; lia).
      destruct (IH t) as [Hle _]; [lia|]. split; lia. }
  intros Hx. apply (H (length x) x); auto.
Qed.

Lemma stride2_tl_length_lt {A : Type} (x : list A) :
  (1 < length x)%nat -> (length (stride2 (tl x)) < length x)%nat.
Proof.
  destruct x as [|a t]; simpl; [lia|]. intros H.
  destruct t as [|b [|c u]]; simpl in *; try lia.
  pose proof (stride2_length_lt (b :: c :: u)). simpl in *. lia.
Qed.

(** [custom_fft]: the input unchanged for a length of at most one, the direct
    transform when the length is not a power of two ([N & (N - 1) != 0]), and
    the radix-2 recursion on the even and odd entries otherwise. *)
Equations? custom_fft (x : list C) : list C by wf (length x) lt :=
  custom_fft x with le_gt_dec (length x) 1 := {
    | left _ := x
    | right HN :=
        let N := length x in
        if negb (Nat.land N (N - 1) =? 0)%nat then
          np_dot (dft_matrix N) x
        else
          let even := custom_fft (stride2 x) in
          let odd := custom_fft (stride2 (tl x)) in
          let T := twiddles N in
          zip_with Cadd even (zip_with Cmul T odd)
            ++ zip_with Csub even (zip_with Cmul T odd) }.
Proof.
  - apply stride2_length_lt. lia.
  - apply stride2_tl_length_lt. lia.
Qed.

(** [custom_conj]: [x.real - 1j * x.imag]. *)
Definition custom_conj (x : list C) : list C :=
  map (fun z => (RtoC (Re z) - Ci * RtoC (Im z))%C) x.

(** [custom_ifft]: [custom_conj(custom_fft(custom_conj(x))) / N]. *)
Definition custom_ifft (x : list C) : list C :=
  let N := length x in
  map (fun z => Cdiv_real z (INR N)) (custom_conj (custom_fft (custom_conj x))).

(** ** The reference transforms *)

(** The sum of [f 0 .. f (n-1)]. *)
Fixpoint Csum (n : nat) (f : nat -> C) : C :=
  match n with
  | O => C0
  | S n' => (Csum n' f + f n')%C
  end.

(** Bin [k] of the discrete Fourier transform: the sum over [n] of
    [x_n * e^(-2 pi i k n / N)]. *)
Definition dft_coef (x : list C) (k : nat) : C :=
  let N := length x in
  Csum N (fun n => (nth n x C0 * cis (- (2 * PI * INR k * INR n / INR N)))%C).

Definition dft (x : list C) : list C :=
  map (dft_coef x) (seq 0 (length x)).

(** Entry [n] of the inverse transform: [1/N] times the sum over [k] of
    [X_k * e^(+2 pi i k n / N)]. *)
Definition idft_coef (X : list C) (n : nat) : C :=
  let N := length X in
  Cdiv_real
    (Csum N (fun k => (nth k X C0 * cis (2 * PI * INR k * INR n / INR N))%C))
    (INR N).

Definition idft (X : list C) : list C :=
  map (idft_coef X) (seq 0 (length X)).

(** The ways the program can stop without a value: the [ValueError] of
    numpy (on a negative size given to the generator, on an empty array given
    to the library transforms), and each of the five assertions of
    [make_good_unitary]. *)
Inductive error : Type :=
| ValueError
| AssertPhaseLower
| AssertPhaseUpper
| AssertUnitMagnitude
| AssertRoundTrip
| AssertNorm.

Definition result (A : Type) : Type := (error + A)%type.

(** The library transforms [np.fft.fft] and [np.fft.ifft]: on an empty array
    they raise [ValueError]; on any other they are the sums their
    documentation gives. *)
Definition np_fft_fft (x : list C) : result (list C) :=
  match x with
  | [] => inl ValueError
  | _ :: _ => inr (dft x)
  end.
Definition np_fft_ifft (x : list C) : result (list C) :=
  match x with
  | [] => inl ValueError
  | _ :: _ => inr (idft x)
  end.

(** The module-level selection of the backend: [fft] and [ifft] are the
    custom transforms when [USE_CUSTOM_FFT] holds and the library's
    otherwise.  The library's can raise and the custom ones cannot, so the
    type of the selected transform follows the flag. *)
Definition backend (use_custom : bool) : Type :=
  if use_custom then list C -> list C else list C -> result (list C).

Definition select_fft (use_custom : bool) : backend use_custom :=
  if use_custom as b return backend b then custom_fft else np_fft_fft.
Definition select_ifft (use_custom : bool) : backend use_custom :=
  if use_custom as b return backend b then custom_ifft else np_fft_ifft.

Definition USE_CUSTOM_FFT : bool := true.
Definition fft : list C -> list C := select_fft USE_CUSTOM_FFT.
Definition ifft : list C -> list C := select_ifft USE_CUSTOM_FFT.

(** ** The fractional power *)

(** [np.arctan2(y, x)], the phase of [x + iy], in [(-pi, pi]]. *)
Definition atan2 (y x : R) : R :=
  if Rlt_dec 0 x then atan (y / x)
  else if Rlt_dec x 0 then
    (if Rle_dec 0 y then atan (y / x) + PI else atan (y / x) - PI)
  else if Rlt_dec 0 y then PI / 2
  else if Rlt_dec y 0 then - (PI / 2)
  else 0.

(** [np.angle]: the phase of a complex number. *)
Definition Carg (z : C) : R := atan2 (Im z) (Re z).

Definition C_eq_dec (z w : C) : {z = w} + {z <> w}.
Proof.
  destruct z as [a b], w as [c d].
  destruct (Req_dec_T a c) as [Hac|Hac]; [|right; congruence].
  destruct (Req_dec_T b d) as [Hbd|Hbd]; [|right; congruence].
  left; congruence.
Defined.

(** The operator [**] of numpy on a complex base and a real exponent: the
    principal power [|z|^e * e^(i e arg z)], with [z ** 0 = 1] for every [z]
    and [0 ** e = 0] for a positive [e].  On a zero base with a negative
    exponent numpy gives nan: [None]. *)
Definition Cpow (z : C) (e : R) : option C :=
  if Req_dec_T e 0 then Some C1
  else if C_eq_dec z C0 then (if Rlt_dec 0 e then Some C0 else None)
  else Some (Cscale (Rpower (Cabs z) e) (cis (e * Carg z))).

(** An array of values of which some can be nan, as an array of numbers:
    [None] when an entry is nan. *)
Fixpoint sequence_option {A : Type} (l : list (option A)) : option (list A) :=
  match l with
  | [] => Some []
  | None :: _ => None
  | Some a :: t =>
      match sequence_option t with
      | None => None
      | Some t' => Some (a :: t')
      end
  end.

(** [X ** e] on an array, entry by entry. *)
Definition array_pow (X : list C) (e : R) : option (list C) :=
  sequence_option (map (fun z => Cpow z e) X).

(** A real array as the program returns it: an array of numbers, or an
    array of [n] entries that are all nan. *)
Inductive farray : Type :=
| Finite (v : list R)
| AllNaN (n : nat).

Definition flength (a : farray) : nat :=
  match a with
  | Finite v => length v
  | AllNaN n => n
  end.

(** [np.asarray(x, dtype=complex)] on a real array. *)
Definition asarray_complex (x : list R) : list C := map RtoC x.

(** [power_ssp] of [python/utils.py]: with the selected backend,
    [ifft(fft(ssp) ** exponent).real].  Every entry of an inverse transform
    is a sum over all the bins, so a nan at one bin of the powered spectrum
    makes every entry of the result nan. *)
Definition power_ssp (ssp : list R) (exponent : R) : farray :=
  let ssp_fft := fft (asarray_complex ssp) in
  match array_pow ssp_fft exponent with
  | Some ssp_fft_pow =>
      let ssp_pow := map Re (ifft ssp_fft_pow) in
      Finite ssp_pow
  | None => AllNaN (length ssp_fft)
  end.

(** [power_ssp] of [analyze_similarity.py], which calls the library
    transforms directly. *)
Definition power_ssp_np (ssp : list R) (exponent : R) : result farray :=
  match np_fft_fft (asarray_complex ssp) with
  | inl e => inl e
  | inr ssp_fft =>
      match array_pow ssp_fft exponent with
      | Some ssp_fft_pow =>
          match np_fft_ifft ssp_fft_pow with
          | inl e => inl e
          | inr y => inr (Finite (map Re y))
          end
      | None => inr (AllNaN (length ssp_fft))
      end
  end.

(** ** The unitary-vector constructor *)

(** The random generator, by what its two calls return: [rand n] is an array
    of [n] samples and [choice opts n] an array of [n] picks among [opts]. *)
Record RandomState : Type := {
  rand : nat -> list R;
  choice : list Z -> nat -> list Z
}.

(** What the generator's documentation promises of these arrays. *)
Definition rng_ok (rng : RandomState) : Prop :=
  (forall n, length (rand rng n) = n) /\
  (forall n, Forall (fun a => 0 <= a < 1) (rand rng n)) /\
  (forall opts n, length (choice rng opts n) = n) /\
  (forall opts n, opts <> [] -> Forall (fun s => In s opts) (choice rng opts n)).

Definition Rle_bool (x y : R) : bool := if Rle_dec x y then true else false.

(** [np.allclose(a, b)] with the default [rtol = 1e-5] and [atol = 1e-8]:
    [|a - b| <= atol + rtol * |b|] at every entry; on real numbers, with a
    scalar [b]. *)
Definition rtol : R := 1 / 100000.
Definition atol : R := 1 / 100000000.

Definition isclose (a b : R) : bool := Rle_bool (Rabs (a - b)) (atol + rtol * Rabs b).
Definition allclose_scalar (a : list R) (b : R) : bool :=
  forallb (fun ai => isclose ai b) a.

(** [np.allclose] on two complex arrays of one length. *)
Definition Cisclose (a b : C) : bool :=
  Rle_bool (Cabs (a - b)%C) (atol + rtol * Cabs b).
Definition allclose (a b : list C) : bool :=
  forallb (fun p => Cisclose (fst p) (snd p)) (combine a b).

(** The assertion that [make_good_unitary] leaves disabled, on the inverse
    transform [v] before its real part is taken:
    [np.allclose(v.imag, 0, atol=1e-5)]. *)
Definition realness_assertion (v : list C) : bool :=
  forallb (fun b => Rle_bool (Rabs (b - 0)) (1 / 100000 + rtol * Rabs 0)) (map Im v).

(** [np.linalg.norm] of a real vector. *)
Definition norm (v : list R) : R := sqrt (fold_right Rplus 0 (map (fun x => x * x) v)).

(** [np.conj]. *)
Definition Cconj (z : C) : C := (Re z, - Im z).

(** [l[i] = v] for an index in range. *)
Fixpoint set_nth {A : Type} (i : nat) (v : A) (l : list A) : list A :=
  match l, i with
  | [], _ => []
  | _ :: t, O => v :: t
  | a :: t, S i' => a :: set_nth i' v t
  end.

(** A slice assignment [l[idx] = vals], the slice given by the list of its
    indices, in the order of the slice. *)
Fixpoint assign {A : Type} (idx : list nat) (vals : list A) (l : list A) : list A :=
  match idx, vals with
  | i :: idx', v :: vals' => assign idx' vals' (set_nth i v l)
  | _, _ => l
  end.

(** The indices of [1:(D + 1) // 2] and of [-1:D // 2:-1] in an array of
    length [D]. *)
Definition slice_pos (D : nat) : list nat := seq 1 ((D + 1) / 2 - 1).
Definition slice_neg (D : nat) : list nat := rev (seq (D / 2 + 1) (D - 1 - D / 2)).

(** The read [l[idx]] of a slice. *)
Definition take {A : Type} (d : A) (idx : list nat) (l : list A) : list A :=
  map (fun i => nth i l d) idx.

(** [make_good_unitary(D, eps, rng)].  [rng.rand] raises on the size
    [(D - 1) // 2] when it is negative, that is for [D <= 0]. *)
Definition make_good_unitary (D : Z) (eps : R) (rng : RandomState) : result (list R) :=
  if (D <=? 0)%Z then inl ValueError else
  let D := Z.to_nat D in
  let a := rand rng ((D - 1) / 2) in
  let sign := choice rng [(-1)%Z; 1%Z] (length a) in
  let phi :=
    zip_with (fun s t => IZR s * PI * t) sign
             (map (fun ai => eps + ai * (1 - 2 * eps)) a) in
  if negb (forallb (fun p => Rle_bool (PI * eps) (Rabs p)) phi)
  then inl AssertPhaseLower else
  if negb (forallb (fun p => Rle_bool (Rabs p) (PI * (1 - eps))) phi)
  then inl AssertPhaseUpper else
  let fv := repeat C0 D in
  let fv := set_nth 0 C1 fv in
  let fv := assign (slice_pos D) (map (fun p => (RtoC (cos p) + Ci * RtoC (sin p))%C) phi) fv in
  let fv := assign (slice_neg D) (map Cconj (take C0 (slice_pos D) fv)) fv in
  let fv := if (D mod 2 =? 0)%nat then set_nth (D / 2) C1 fv else fv in
  if negb (allclose_scalar (map Cabs fv) 1) then inl AssertUnitMagnitude else
  let v := ifft fv in
  let v := map Re v in
  if negb (allclose (fft (asarray_complex v)) fv) then inl AssertRoundTrip else
  if negb (allclose_scalar [norm v] 1) then inl AssertNorm else
  inr v.

(** The target spectrum [fv] that [make_good_unitary] builds from the phases
    [phi], before the inverse transform. *)
Definition target_spectrum (D : nat) (phi : list R) : list C :=
  let fv := repeat C0 D in
  let fv := set_nth 0 C1 fv in
  let fv := assign (slice_pos D) (map (fun p => (RtoC (cos p) + Ci * RtoC (sin p))%C) phi) fv in
  let fv := assign (slice_neg D) (map Cconj (take C0 (slice_pos D) fv)) fv in
  if (D mod 2 =? 0)%nat then set_nth (D / 2) C1 fv else fv.

(** The phases [phi] of a run. *)
Definition phases (D : nat) (eps : R) (rng : RandomState) : list R :=
  let a := rand rng ((D - 1) / 2) in
  let sign := choice rng [(-1)%Z; 1%Z] (length a) in
  zip_with (fun s t => IZR s * PI * t) sign
           (map (fun ai => eps + ai * (1 - 2 * eps)) a).

(** ** Notions of the specification *)

(** A spectrum is conjugate-symmetric: bin [(N - k) mod N] is the conjugate
    of bin [k]. *)
Definition conj_symmetric (X : list C) : Prop :=
  forall k, (k < length X)%nat ->
    nth ((length X - k) mod length X) X C0 = Cconj (nth k X C0).

(** A spectrum has unit magnitude at every bin. *)
Definition unit_magnitude (X : list C) : Prop :=
  Forall (fun z => Cabs z = 1) X.

(** A valid SSP vector: a real vector whose transform has unit magnitude at
    every bin.  (The transform of a real vector is conjugate-symmetric.) *)
Definition valid_ssp (v : list R) : Prop :=
  unit_magnitude (dft (asarray_complex v)).

(** The circular convolution of two real vectors of one length. *)
Fixpoint Rsum (n : nat) (f : nat -> R) : R :=
  match n with
  | O => 0
  | S n' => Rsum n' f + f n'
  end.

Definition circ_conv (v w : list R) : list R :=
  let D := length v in
  map (fun n => Rsum D (fun m => nth m v 0 * nth ((n + D - m) mod D) w 0)) (seq 0 D).

(** The impulse [[1, 0, ..., 0]] of length [D]. *)
Definition impulse (D : nat) : list R :=
  match D with
  | O => []
  | S D' => 1 :: repeat 0 D'
  end.




(** ** Further notions used in the statements *)

(** A complex vector with no imaginary part. *)
Definition real_vector (y : list C) : Prop := Forall (fun z => Im z = 0) y.

(** A complex number on the negative real axis, where the phase jumps. *)
Definition negative_real (z : C) : Prop := Re z < 0 /\ Im z = 0.

(** The two assertions on the phases. *)
Definition phase_lower_ok (eps : R) (phi : list R) : bool :=
  forallb (fun p => Rle_bool (PI * eps) (Rabs p)) phi.
Definition phase_upper_ok (eps : R) (phi : list R) : bool :=
  forallb (fun p => Rle_bool (Rabs p) (PI * (1 - eps))) phi.

(** Bin [k] of the target spectrum, read off the assignments. *)
Definition spectrum_bin (D : nat) (phi : list R) (k : nat) : C :=
  if (k =? 0)%nat then C1
  else if (k <=? (D - 1) / 2)%nat then cis (nth (k - 1) phi 0)
  else if ((D mod 2 =? 0) && (k =? D / 2))%nat then C1
  else Cconj (cis (nth (D - 1 - k) phi 0)).

(** The power with a natural exponent, by repeated multiplication. *)
Fixpoint Cpow_nat (z : C) (n : nat) : C :=
  match n with
  | O => C1
  | S n' => (z * Cpow_nat z n')%C
  end.

(** No bin of an array is nan after [** e]: the exponent is not negative, or
    no bin is zero. *)
Definition pow_defined (X : list C) (e : R) : Prop :=
  0 <= e \/ Forall (fun z => z <> C0) X.

(** ** Auxiliaries of the proofs *)

(** [Cpow] is the model of [**].  This function reads the number in
    [Cpow z e], with a default where there is none, as [nth] has one; the
    proofs use it where the power is shown to be a number. *)
Definition Cpow_finite (z : C) (e : R) : C :=
  match Cpow z e with
  | Some w => w
  | None => C0
  end.

(** The vector in [power_ssp ssp exponent], where no power is nan. *)
Definition power_ssp_finite (ssp : list R) (exponent : R) : list R :=
  map Re (ifft (map (fun z => Cpow_finite z exponent) (fft (asarray_complex ssp)))).

(** ** Generators of the examples *)

(** A generator that repeats one sample, and the pick at one position of
    the options. *)
Definition constant_rng (a : R) (i : nat) : RandomState :=
  {| rand := fun n => repeat a n;
     choice := fun opts n => repeat (nth (i mod length opts) opts 0%Z) n |}.

(** The phase [pi / 2] at bin one: target spectrum [[1, i, 1, -i]], and the
    vector [[1/2, -1/2, 1/2, 1/2]]. *)
Definition rng4 : RandomState := constant_rng (1 / 2) 1.
Definition v4 : list R := [1 / 2; - (1 / 2); 1 / 2; 1 / 2].

(** The sample [0], the least that the generator gives. *)
Definition rng0 : RandomState := constant_rng 0 1.

(** ** The analysis drivers *)

(** [np.linspace(start, stop, num)]: [num] samples from [start] to [stop],
    both included. *)
Definition linspace (start stop : R) (num : nat) : list R :=
  map (fun i => start + INR i * ((stop - start) / INR (num - 1))) (seq 0 num).

(** [np.einsum('ij,ij->i', A, B)] on arrays of numbers: the dot product of
    each row of [A] with the same row of [B]. *)
Definition einsum_rows (A B : list (list R)) : list R :=
  zip_with (fun a b => fold_right Rplus 0 (zip_with Rmult a b)) A B.

(** [np.mean] and [np.std] of an array of numbers that is not empty. *)
Definition np_mean (l : list R) : R := fold_right Rplus 0 l / INR (length l).
Definition np_std (l : list R) : R :=
  sqrt (np_mean (map (fun x => (x - np_mean l) * (x - np_mean l)) l)).

(** [np.min] and [np.max] of an array of numbers that is not empty. *)
Definition np_min (l : list R) : R :=
  match l with
  | [] => 0
  | x :: t => fold_left Rmin t x
  end.
Definition np_max (l : list R) : R :=
  match l with
  | [] => 0
  | x :: t => fold_left Rmax t x
  end.

(** The same operations where a value that is no finite number can come in:
    [None] stands for it.  A nan in an operand makes the result nan; a zero
    divisor gives nan or an infinity; the mean and the deviation of an empty
    array are nan. *)
Definition nan_mul (a b : option R) : option R :=
  match a, b with
  | Some x, Some y => Some (x * y)
  | _, _ => None
  end.

Definition nan_div (a b : option R) : option R :=
  match a, b with
  | Some x, Some y => if Req_dec_T y 0 then None else Some (x / y)
  | _, _ => None
  end.

Definition nan_dot (a b : farray) : option R :=
  match a, b with
  | Finite x, Finite y => Some (fold_right Rplus 0 (zip_with Rmult x y))
  | _, _ => None
  end.

Definition nan_einsum_rows (A B : list farray) : list (option R) :=
  zip_with nan_dot A B.

Definition nan_norm (a : farray) : option R :=
  match a with
  | Finite v => Some (norm v)
  | AllNaN _ => None
  end.

Definition nan_mean (l : list (option R)) : option R :=
  match sequence_option l with
  | Some (x :: t) => Some (np_mean (x :: t))
  | _ => None
  end.

Definition array_mean (a : farray) : option R :=
  match a with
  | Finite (x :: t) => Some (np_mean (x :: t))
  | _ => None
  end.

Definition array_std (a : farray) : option R :=
  match a with
  | Finite (x :: t) => Some (np_std (x :: t))
  | _ => None
  end.

Definition nan_min (l : list (option R)) : option R :=
  match sequence_option l with
  | Some all => Some (np_min all)
  | None => None
  end.

Definition nan_max (l : list (option R)) : option R :=
  match sequence_option l with
  | Some all => Some (np_max all)
  | None => None
  end.

(** The read [a[j]]: the outer [None] where the index is out of range, the
    inner one where the entry is nan. *)
Definition entry (a : farray) (j : nat) : option (option R) :=
  match a with
  | Finite v =>
      match nth_error v j with
      | Some x => Some (Some x)
      | None => None
      end
  | AllNaN n => if (j <? n)%nat then Some None else None
  end.

(** The default [eps=1e-3] of [make_good_unitary]. *)
Definition default_eps : R := 1 / 1000.

(** A list comprehension over calls that can raise: the first error stops
    it. *)
Fixpoint sequence_result {A : Type} (l : list (result A)) : result (list A) :=
  match l with
  | [] => inr []
  | inl e :: _ => inl e
  | inr a :: t =>
      match sequence_result t with
      | inl e => inl e
      | inr t' => inr (a :: t')
      end
  end.

(** [python/analyze_similarity.py]: the two curves it plots.  The generator
    is given by its state at each call of [make_good_unitary]. *)
Module analyze_similarity.

Definition N : nat := 1.
Definition D : Z := 30.
Definition exponents : list R := linspace (-50) 50 1000.

(** One turn of the loop over the exponents: the average dot product and
    the average cosine similarity it appends. *)
Definition loop_body (ssps : list (list R)) (norms_original : list R)
           (exponent : R) : option R * option R :=
  let ssps_powered := map (fun ssp => power_ssp ssp exponent) ssps in
  let dot_products := nan_einsum_rows (map Finite ssps) ssps_powered in
  let norms_powered := map nan_norm ssps_powered in
  let cosine_similarities :=
    zip_with nan_div dot_products
             (zip_with nan_mul (map Some norms_original) norms_powered) in
  let average_dot_product := nan_mean dot_products in
  let average_cosine_similarity := nan_mean cosine_similarities in
  (average_dot_product, average_cosine_similarity).

(** The script from the generated vectors on: the lists
    [average_dot_products] and [average_cosine_similarities]. *)
Definition curves (ssps : list (list R)) : list (option R) * list (option R) :=
  let norms_original := map norm ssps in
  let rows := map (loop_body ssps norms_original) exponents in
  (map fst rows, map snd rows).

Definition main (rng : nat -> RandomState)
  : result (list (option R) * list (option R)) :=
  match sequence_result
          (map (fun i => make_good_unitary D default_eps (rng i)) (seq 0 N)) with
  | inl e => inl e
  | inr ssps => inr (curves ssps)
  end.

End analyze_similarity.

(** [analyze_similarity.py] at the root: the same loop against the vectors
    raised to the power [20], on the library transforms.  Its vectors come
    from a constructor of another package and are taken as given. *)
Module analyze_similarity_root.

Definition exponents : list R := linspace (-50) 50 1000.

Definition loop_body (ssps : list (list R)) (ssps_original : list farray)
           (norms_original : list (option R)) (exponent : R)
  : result (option R * option R) :=
  match sequence_result (map (fun ssp => power_ssp_np ssp exponent) ssps) with
  | inl e => inl e
  | inr ssps_powered =>
      let dot_products := nan_einsum_rows ssps_original ssps_powered in
      let norms_powered := map nan_norm ssps_powered in
      let cosine_similarities :=
        zip_with nan_div dot_products
                 (zip_with nan_mul norms_original norms_powered) in
      let average_dot_product := nan_mean dot_products in
      let average_cosine_similarity := nan_mean cosine_similarities in
      inr (average_dot_product, average_cosine_similarity)
  end.

Definition curves (ssps : list (list R))
  : result (list (option R) * list (option R)) :=
  match sequence_result (map (fun ssp => power_ssp_np ssp 20) ssps) with
  | inl e => inl e
  | inr ssps_original =>
      let norms_original := map nan_norm ssps_original in
      match sequence_result
              (map (loop_body ssps ssps_original norms_original) exponents) with
      | inl e => inl e
      | inr rows => inr (map fst rows, map snd rows)
      end
  end.

End analyze_similarity_root.

(** [python/analyze_3d.py]: the axis limits, and what [update] prints and
    draws at a frame. *)
Module analyze_3d.

Definition d : Z := 10.
Definition n_frames : nat := 400.
Definition exponents : list R := linspace (-10) 10 n_frames.

Definition ssp_powers (ssp : list R) : list farray :=
  map (fun e => power_ssp ssp e) exponents.

(** The column [ssp_powers[:, j]]; [None] where [j] is out of range. *)
Definition column (j : nat) (M : list farray) : option (list (option R)) :=
  sequence_option (map (fun row => entry row j) M).

Definition margin : R := 1 / 10.

(** The limits of axis [j]: [(min - margin, max + margin)] of column [j]. *)
Definition axis_limits (ssp : list R) (j : nat) : option (option R * option R) :=
  match column j (ssp_powers ssp) with
  | Some all =>
      Some (option_map (fun m => m - margin) (nan_min all),
            option_map (fun m => m + margin) (nan_max all))
  | None => None
  end.

(** What [update(frame)] prints (norm, mean and standard deviation of the
    powered vector) and the point it draws; [None] where an index is out of
    range. *)
Record frame_output : Type := {
  printed_norm : option R;
  printed_mean : option R;
  printed_std : option R;
  point : option R * option R * option R
}.

Definition update (ssp : list R) (frame : nat) : option frame_output :=
  match nth_error exponents frame, nth_error (ssp_powers ssp) frame with
  | Some exponent, Some ssp_powered =>
      match entry ssp_powered 0, entry ssp_powered 1, entry ssp_powered 2 with
      | Some x, Some y, Some z =>
          Some {| printed_norm := nan_norm ssp_powered;
                  printed_mean := array_mean ssp_powered;
                  printed_std := array_std ssp_powered;
                  point := (x, y, z) |}
      | _, _, _ => None
      end
  | _, _ => None
  end.

End analyze_3d.

(** [python/analyze_parallel.py]: the data [update] gives to the lines, one
    per dimension: [([i, i], [0, ssp_powered[i]])]. *)
Module analyze_parallel.

Definition d : Z := 3.
Definition n_frames : nat := 400.
Definition ylim : R * R := (- (3 / 2), 3 / 2).

Fixpoint lines_data (ssp_powered : farray) (idx : list nat)
  : option (list ((R * R) * (R * option R))) :=
  match idx with
  | [] => Some []
  | i :: idx' =>
      match entry ssp_powered i, lines_data ssp_powered idx' with
      | Some y, Some rest => Some (((INR i, INR i), (0, y)) :: rest)
      | _, _ => None
      end
  end.

Definition update (ssp : list R) (frame : nat)
  : option (list ((R * R) * (R * option R))) :=
  match nth_error (linspace 0 2 n_frames) frame with
  | Some exponent =>
      let ssp_powered := power_ssp ssp exponent in
      lines_data ssp_powered (seq 0 (Z.to_nat d))
  | None => None
  end.

End analyze_parallel.

(** ** Further notions used in the statements of the drivers *)

(** A valid SSP vector that is not empty and whose spectrum has no bin on
    the negative real axis, where the principal power jumps. *)
Definition proper_ssp (v : list R) : Prop :=
  v <> [] /\ valid_ssp v /\
  Forall (fun z => ~ negative_real z) (dft (asarray_complex v)).

(** The array read backwards from index zero: entry [n] is entry
    [(D - n) mod D]. *)
Definition reflect (v : list R) : list R :=
  map (fun n => nth ((length v - n) mod length v) v 0) (seq 0 (length v)).

(** The dot product of two real vectors. *)
Definition dot (a b : list R) : R := fold_right Rplus 0 (zip_with Rmult a b).

(** The [n]-fold circular convolution of a vector with itself. *)
Fixpoint circ_power (v : list R) (n : nat) : list R :=
  match n with
  | O => impulse (length v)
  | S n' => circ_conv (circ_power v n') v
  end.

(** * Properties *)

(** ** Complex arithmetic *)

Lemma C_eq (z w : C) : Re z = Re w -> Im z = Im w -> z = w.
Proof. destruct z, w; simpl; intros; subst; reflexivity. Qed.

Ltac csimpl :=
  unfold Cadd, Csub, Cmul, Copp, Cscale, Cdiv_real, RtoC, C0, C1, Ci, Re, Im in *;
  simpl in *.

(** Closes an equation between complex numbers that holds in every
    commutative ring, componentwise. *)
Ltac cring := intros; apply C_eq; csimpl; ring.

Lemma Cadd_comm z w : (z + w = w + z)%C.
Proof. cring. Qed.
Lemma Cadd_assoc z w u : (z + (w + u) = z + w + u)%C.
Proof. cring. Qed.
Lemma Cadd_0_l z : (C0 + z = z)%C.
Proof. destruct z; cring. Qed.
Lemma Cadd_0_r z : (z + C0 = z)%C.
Proof. destruct z; cring. Qed.
Lemma Cmul_comm z w : (z * w = w * z)%C.
Proof. cring. Qed.
Lemma Cmul_assoc z w u : (z * (w * u) = z * w * u)%C.
Proof. cring. Qed.
Lemma Cmul_1_l z : (C1 * z = z)%C.
Proof. destruct z; cring. Qed.
Lemma Cmul_1_r z : (z * C1 = z)%C.
Proof. destruct z; cring. Qed.
Lemma Cmul_0_r z : (z * C0 = C0)%C.
Proof. cring. Qed.
Lemma Cmul_add_distr_l z w u : (z * (w + u) = z * w + z * u)%C.
Proof. cring. Qed.
Lemma Cmul_add_distr_r z w u : ((z + w) * u = z * u + w * u)%C.
Proof. cring. Qed.
Lemma Csub_add_opp z w : (z - w = z + - w)%C.
Proof. cring. Qed.
Lemma Cmul_opp_l z w : (- z * w = - (z * w))%C.
Proof. cring. Qed.

(** ** Phasors *)

Lemma cis_0 : cis 0 = C1.
Proof. unfold cis, C1. rewrite cos_0, sin_0. reflexivity. Qed.

Lemma cis_add a b : cis (a + b) = (cis a * cis b)%C.
Proof.
  unfold cis. apply C_eq; csimpl.
  - apply cos_plus.
  - rewrite sin_plus. ring.
Qed.

Lemma cis_PI : cis PI = (- C1)%C.
Proof. unfold cis. rewrite cos_PI, sin_PI. apply C_eq; csimpl; ring. Qed.

Lemma cis_neg_PI : cis (- PI) = (- C1)%C.
Proof.
  unfold cis. rewrite cos_neg, sin_neg, cos_PI, sin_PI.
  apply C_eq; csimpl; ring.
Qed.

Lemma cis_2PI : cis (2 * PI) = C1.
Proof. unfold cis, C1. rewrite cos_2PI, sin_2PI. reflexivity. Qed.

Lemma cis_2PI_nat (k : nat) : cis (2 * PI * INR k) = C1.
Proof.
  induction k as [|k IH].
  - simpl. rewrite Rmult_0_r. apply cis_0.
  - rewrite S_INR.
    replace (2 * PI * (INR k + 1)) with (2 * PI * INR k + 2 * PI) by ring.
    rewrite cis_add, IH, cis_2PI. apply Cmul_1_l.
Qed.

Lemma cis_neg_2PI_nat (k : nat) : cis (- (2 * PI * INR k)) = C1.
Proof.
  pose proof (cis_2PI_nat k) as H. unfold cis, C1 in *.
  rewrite cos_neg, sin_neg. injection H as Hc Hs.
  rewrite Hc, Hs. f_equal. ring.
Qed.

Lemma Cexp_imag t : Cexp (0, t) = cis t.
Proof. unfold Cexp, cis. simpl. rewrite exp_0. f_equal; ring. Qed.

(** ** Sums *)

Lemma Csum_ext n f g :
  (forall i, (i < n)%nat -> f i = g i) -> Csum n f = Csum n g.
Proof.
  induction n as [|n IH]; intros H; simpl; [reflexivity|].
  rewrite IH by (intros; apply H; lia). rewrite H by lia. reflexivity.
Qed.

Lemma Csum_shift n f :
  Csum (S n) f = (f O + Csum n (fun i => f (S i)))%C.
Proof.
  induction n as [|n IH].
  - simpl. cring.
  - change (Csum (S (S n)) f) with (Csum (S n) f + f (S n))%C.
    rewrite IH. simpl. cring.
Qed.

Lemma Csum_add n f g :
  Csum n (fun i => (f i + g i)%C) = (Csum n f + Csum n g)%C.
Proof.
  induction n as [|n IH]; simpl; [cring|]. rewrite IH. cring.
Qed.

Lemma Csum_mul_l n c f :
  Csum n (fun i => (c * f i)%C) = (c * Csum n f)%C.
Proof.
  induction n as [|n IH]; simpl; [cring|]. rewrite IH. cring.
Qed.

Lemma Csum_mul_r n c f :
  Csum n (fun i => (f i * c)%C) = (Csum n f * c)%C.
Proof.
  induction n as [|n IH]; simpl; [cring|]. rewrite IH. cring.
Qed.

Lemma Csum_zero n : Csum n (fun _ => C0) = C0.
Proof. induction n as [|n IH]; simpl; [reflexivity|]. rewrite IH. cring. Qed.

Lemma Csum_even_odd m f :
  Csum (2 * m) f =
  (Csum m (fun j => f (2 * j)%nat) + Csum m (fun j => f (2 * j + 1)%nat))%C.
Proof.
  induction m as [|m IH].
  - simpl. cring.
  - replace (2 * S m)%nat with (S (S (2 * m))) by lia.
    simpl Csum at 1. fold (Csum (2 * m) f). 
    change (Csum (m + (m + 0)) f) with (Csum (2 * m) f).
    rewrite IH. simpl Csum.
    replace (S (m + (m + 0)))%nat with (2 * m + 1)%nat by lia.
    replace (m + (m + 0))%nat with (2 * m)%nat by lia.
    cring.
Qed.

Lemma Csum_swap n m (f : nat -> nat -> C) :
  Csum n (fun i => Csum m (fun j => f i j)) =
  Csum m (fun j => Csum n (fun i => f i j)).
Proof.
  induction n as [|n IH]; simpl.
  - symmetry. apply Csum_zero.
  - rewrite IH. symmetry. apply Csum_add.
Qed.

Lemma Csum_list_zip_map (f : nat -> C) (x : list C) (s : nat) :
  Csum_list (zip_with Cmul (map f (seq s (length x))) x) =
  Csum (length x) (fun n => (f (s + n)%nat * nth n x C0)%C).
Proof.
  revert s. induction x as [|a x IH]; intros s.
  - reflexivity.
  - cbn [length seq map zip_with Csum_list fold_right].
    fold (Csum_list (zip_with Cmul (map f (seq (S s) (length x))) x)).
    rewrite IH, Csum_shift. rewrite Nat.add_0_r. cbn [nth].
    f_equal. apply Csum_ext. intros i _. rewrite Nat.add_succ_r. reflexivity.
Qed.

(** ** Lists *)

Lemma zip_with_length {A B D} (f : A -> B -> D) l m :
  length (zip_with f l m) = Nat.min (length l) (length m).
Proof.
  revert m. induction l as [|a l IH]; intros [|b m]; simpl; auto.
Qed.

Lemma zip_with_nth {A B D} (f : A -> B -> D) l m i da db dd :
  (i < length l)%nat -> (i < length m)%nat ->
  nth i (zip_with f l m) dd = f (nth i l da) (nth i m db).
Proof.
  revert m i. induction l as [|a l IH]; intros [|b m] [|i]; simpl; intros; try lia; auto.
  apply IH; lia.
Qed.

Lemma stride2_spec {A} (d : A) :
  forall n (x : list A), (length x <= n)%nat ->
    length (stride2 x) = ((length x + 1) / 2)%nat /\
    forall j, nth j (stride2 x) d = nth (2 * j) x d.
Proof.
  induction n as [|n IH]; intros x Hx.
  - destruct x; simpl in *; [|lia]. split; [reflexivity|]. intros []; reflexivity.
  - destruct x as [|a [|b t]].
    + split; [reflexivity|]. intros []; reflexivity.
    + split; [reflexivity|]. intros [|[|j]]; simpl; try reflexivity.
    + cbn [length] in Hx. destruct (IH t) as [Hl Hn]; [lia|]. split.
      * cbn [stride2 length]. rewrite Hl.
        replace (S (S (length t)) + 1)%nat with ((length t + 1) + 1 * 2)%nat by lia.
        rewrite Nat.div_add by lia. lia.
      * intros [|j]; [reflexivity|]. cbn [stride2 nth]. rewrite Hn.
        replace (2 * S j)%nat with (S (S (2 * j))) by lia. reflexivity.
Qed.

Lemma stride2_length {A} (x : list A) :
  length (stride2 x) = ((length x + 1) / 2)%nat.
Proof.
  destruct x as [|a x]; [reflexivity|].
  apply (stride2_spec a (length (a :: x))). lia.
Qed.

Lemma stride2_nth {A} (d : A) (x : list A) j :
  nth j (stride2 x) d = nth (2 * j) x d.
Proof. apply (stride2_spec d (length x)). lia. Qed.

Lemma stride2_tl_nth {A} (d : A) (x : list A) j :
  nth j (stride2 (tl x)) d = nth (2 * j + 1) x d.
Proof.
  rewrite stride2_nth. destruct x as [|a x]; simpl.
  - destruct (j + (j + 0))%nat, (j + (j + 0) + 1)%nat; reflexivity.
  - replace (j + (j + 0) + 1)%nat with (S (j + (j + 0))) by lia. reflexivity.
Qed.

Lemma stride2_even_length {A} (x : list A) m :
  length x = (2 * m)%nat ->
  length (stride2 x) = m /\ length (stride2 (tl x)) = m.
Proof.
  intros H. rewrite !stride2_length. destruct x as [|a x]; cbn [length tl] in *.
  - assert (m = 0)%nat by lia. subst. split; reflexivity.
  - assert (Hx : length x = (2 * m - 1)%nat) by lia. rewrite Hx. split.
    + replace (S (2 * m - 1) + 1)%nat with (1 + m * 2)%nat by lia.
      rewrite Nat.div_add by lia. reflexivity.
    + replace (2 * m - 1 + 1)%nat with (0 + m * 2)%nat by lia.
      rewrite Nat.div_add by lia. reflexivity.
Qed.

(** ** The length test of [custom_fft] *)

(** A length above one that passes [N & (N - 1) == 0] is even. *)
Lemma land_pred_even N :
  (1 < N)%nat -> Nat.land N (N - 1) = 0%nat -> exists m, N = (2 * m)%nat /\ (0 < m)%nat.
Proof.
  intros HN Hland.
  destruct (Nat.Even_or_Odd N) as [[m Hm]|[q Hq]].
  - exists m. split; lia.
  - exfalso.
    assert (Hq0 : q <> 0%nat) by lia.
    assert (Hbit : Nat.testbit (Nat.land N (N - 1)) (S (Nat.log2 q)) = true).
    { rewrite Nat.land_spec.
      replace (N - 1)%nat with (2 * q)%nat by lia. subst N.
      rewrite Nat.testbit_odd_succ, Nat.testbit_even_succ by lia.
      rewrite Nat.bit_log2 by assumption. reflexivity. }
    rewrite Hland in Hbit. rewrite Nat.bits_0 in Hbit. discriminate.
Qed.

(** ** Unfolding [custom_fft] *)

Lemma custom_fft_small (x : list C) :
  (length x <= 1)%nat -> custom_fft x = x.
Proof.
  intros H. simp custom_fft. destruct (le_gt_dec (length x) 1); [reflexivity|lia].
Qed.

Lemma custom_fft_direct (x : list C) :
  (1 < length x)%nat -> Nat.land (length x) (length x - 1) <> 0%nat ->
  custom_fft x = np_dot (dft_matrix (length x)) x.
Proof.
  intros H Hl. simp custom_fft. destruct (le_gt_dec (length x) 1); [lia|].
  simpl. apply Nat.eqb_neq in Hl. rewrite Hl. reflexivity.
Qed.

Lemma custom_fft_radix2 (x : list C) :
  (1 < length x)%nat -> Nat.land (length x) (length x - 1) = 0%nat ->
  custom_fft x =
    zip_with Cadd (custom_fft (stride2 x))
             (zip_with Cmul (twiddles (length x)) (custom_fft (stride2 (tl x))))
    ++ zip_with Csub (custom_fft (stride2 x))
             (zip_with Cmul (twiddles (length x)) (custom_fft (stride2 (tl x)))).
Proof.
  intros H Hl. match goal with |- _ = ?r => remember r as rhs eqn:Erhs end.
  simp custom_fft. destruct (le_gt_dec (length x) 1); [lia|].
  simpl. apply Nat.eqb_eq in Hl. rewrite Hl. subst rhs. reflexivity.
Qed.

(** ** [custom_fft] computes the discrete Fourier transform *)

Lemma dft_length x : length (dft x) = length x.
Proof. unfold dft. rewrite length_map, length_seq. reflexivity. Qed.

Lemma dft_nth x k :
  (k < length x)%nat -> nth k (dft x) C0 = dft_coef x k.
Proof.
  intros H. unfold dft.
  rewrite (nth_indep _ C0 (dft_coef x 0%nat)) by (rewrite length_map, length_seq; lia).
  rewrite map_nth, seq_nth by lia. reflexivity.
Qed.

Lemma idft_length x : length (idft x) = length x.
Proof. unfold idft. rewrite length_map, length_seq. reflexivity. Qed.

Lemma idft_nth x k :
  (k < length x)%nat -> nth k (idft x) C0 = idft_coef x k.
Proof.
  intros H. unfold idft.
  rewrite (nth_indep _ C0 (idft_coef x 0%nat)) by (rewrite length_map, length_seq; lia).
  rewrite map_nth, seq_nth by lia. reflexivity.
Qed.

Lemma cis_congr a b : a = b -> cis a = cis b.
Proof. intros ->. reflexivity. Qed.

(** The direct branch is the transform as it is defined. *)
Lemma np_dot_dft_matrix x : np_dot (dft_matrix (length x)) x = dft x.
Proof.
  unfold np_dot, dft_matrix, dft, arange. rewrite map_map.
  apply map_ext. intros k.
  rewrite (Csum_list_zip_map
             (fun n => Cexp (0, -2 * PI * INR k * INR n / INR (length x))) x 0).
  unfold dft_coef. apply Csum_ext. intros n _. cbn [Nat.add].
  rewrite Cexp_imag, Cmul_comm. f_equal. apply cis_congr.
  unfold Rdiv. ring.
Qed.

Lemma INR_double m : INR (2 * m) = 2 * INR m.
Proof. rewrite mult_INR. simpl. ring. Qed.

Lemma INR_double_succ m : INR (2 * m + 1) = 2 * INR m + 1.
Proof. rewrite plus_INR, INR_double. simpl. ring. Qed.

Section Radix2.

Variables (x : list C) (m : nat).
Hypothesis Hlen : length x = (2 * m)%nat.
Hypothesis Hm : (0 < m)%nat.

Let even := stride2 x.
Let odd := stride2 (tl x).

Lemma radix2_even_length : length even = m.
Proof. apply (stride2_even_length x m Hlen). Qed.

Lemma radix2_odd_length : length odd = m.
Proof. apply (stride2_even_length x m Hlen). Qed.

Lemma INR_m_neq_0 : INR m <> 0.
Proof. apply not_0_INR. lia. Qed.

(** Bin [k] of the whole from bin [k] of the halves. *)
Lemma dft_coef_radix2_lo k :
  dft_coef x k =
  (dft_coef even k + cis (- (2 * PI * INR k / INR (2 * m))) * dft_coef odd k)%C.
Proof.
  pose proof INR_m_neq_0 as Hm0.
  unfold dft_coef. rewrite radix2_even_length, radix2_odd_length, Hlen.
  rewrite Csum_even_odd. f_equal.
  - apply Csum_ext. intros j _. unfold even. rewrite stride2_nth.
    f_equal. apply cis_congr. rewrite !INR_double. field. assumption.
  - rewrite <- Csum_mul_l. apply Csum_ext. intros j _.
    unfold odd. rewrite stride2_tl_nth.
    rewrite Cmul_assoc, (Cmul_comm (cis _) (nth _ _ _)), <- Cmul_assoc.
    f_equal. rewrite <- cis_add. apply cis_congr.
    rewrite INR_double_succ, INR_double. field. assumption.
Qed.

(** Bin [m + k] of the whole from bin [k] of the halves. *)
Lemma dft_coef_radix2_hi k :
  dft_coef x (m + k) =
  (dft_coef even k - cis (- (2 * PI * INR k / INR (2 * m))) * dft_coef odd k)%C.
Proof.
  pose proof INR_m_neq_0 as Hm0.
  unfold dft_coef. rewrite radix2_even_length, radix2_odd_length, Hlen.
  rewrite Csum_even_odd, Csub_add_opp. f_equal.
  - apply Csum_ext. intros j _. unfold even. rewrite stride2_nth.
    rewrite <- (Cmul_1_r (cis (- (2 * PI * INR k * INR j / INR m)))).
    rewrite <- (cis_neg_2PI_nat j), <- cis_add.
    f_equal. apply cis_congr. rewrite plus_INR, !INR_double. field. assumption.
  - rewrite <- Cmul_opp_l, <- Csum_mul_l. apply Csum_ext. intros j _.
    unfold odd. rewrite stride2_tl_nth.
    rewrite Cmul_assoc, (Cmul_comm (- cis _)%C (nth _ _ _)), <- Cmul_assoc.
    f_equal.
    replace (- cis (- (2 * PI * INR k / INR (2 * m))))%C
      with (cis (- (2 * PI * INR k / INR (2 * m))) * (cis (- PI) * cis (- (2 * PI * INR j))))%C.
    2:{ rewrite cis_neg_PI, cis_neg_2PI_nat. cring. }
    rewrite <- !cis_add. apply cis_congr.
    rewrite plus_INR, INR_double_succ, INR_double. field. assumption.
Qed.

End Radix2.

Lemma twiddles_length N : length (twiddles N) = (N / 2)%nat.
Proof. unfold twiddles, arange. rewrite length_map, length_seq. reflexivity. Qed.

Lemma twiddles_nth N k :
  (k < N / 2)%nat -> nth k (twiddles N) C0 = cis (- (2 * PI * INR k / INR N)).
Proof.
  intros H. unfold twiddles, arange.
  rewrite (nth_indep _ C0 (Cexp (0, -2 * PI * INR 0 / INR N)))
    by (rewrite length_map, length_seq; lia).
  rewrite (map_nth (fun k => Cexp (0, -2 * PI * INR k / INR N))), seq_nth by lia.
  rewrite Cexp_imag. apply cis_congr. cbn [Nat.add]. unfold Rdiv. ring.
Qed.

Lemma dft_singleton z : dft [z] = [z].
Proof.
  unfold dft, dft_coef. simpl.
  replace (- (2 * PI * 0 * 0 / 1)) with 0 by (unfold Rdiv; ring).
  rewrite cis_0. f_equal. destruct z. cring.
Qed.

Lemma custom_fft_dft_aux :
  forall n (x : list C), (length x <= n)%nat -> custom_fft x = dft x.
Proof.
  induction n as [|n IH]; intros x Hn.
  - destruct x; [|simpl in Hn; lia]. rewrite custom_fft_small by (simpl; lia). reflexivity.
  - destruct (le_gt_dec (length x) 1) as [Hsmall|Hbig].
    + rewrite custom_fft_small by assumption.
      destruct x as [|z [|w t]]; [reflexivity| |simpl in Hsmall; lia].
      symmetry. apply dft_singleton.
    + destruct (Nat.eq_dec (Nat.land (length x) (length x - 1)) 0) as [Hpow|Hnot].
      * rewrite custom_fft_radix2 by (assumption || lia).
        destruct (land_pred_even _ Hbig Hpow) as [m [Hlen Hm]].
        destruct (stride2_even_length x m Hlen) as [He Ho].
        rewrite (IH (stride2 x)), (IH (stride2 (tl x))) by lia.
        assert (Hhalf : (length x / 2 = m)%nat).
        { rewrite Hlen, Nat.mul_comm. apply Nat.div_mul. lia. }
        set (Z := zip_with Cmul (twiddles (length x)) (dft (stride2 (tl x)))).
        assert (Hzl : length Z = m).
        { unfold Z. rewrite zip_with_length, twiddles_length, dft_length, Ho, Hhalf. lia. }
        assert (Hal : length (zip_with Cadd (dft (stride2 x)) Z) = m).
        { rewrite zip_with_length, Hzl, dft_length, He. lia. }
        assert (Hsl : length (zip_with Csub (dft (stride2 x)) Z) = m).
        { rewrite zip_with_length, Hzl, dft_length, He. lia. }
        assert (HZ : forall j, (j < m)%nat ->
                  nth j Z C0 = (cis (- (2 * PI * INR j / INR (2 * m)))
                                * dft_coef (stride2 (tl x)) j)%C).
        { intros j Hj. unfold Z.
          rewrite (zip_with_nth _ _ _ _ C0 C0)
            by (rewrite ?twiddles_length, ?dft_length, ?Ho, ?Hhalf; lia).
          rewrite twiddles_nth, dft_nth, Hlen by lia. reflexivity. }
        apply (nth_ext _ _ C0 C0).
        { rewrite length_app, Hal, Hsl, dft_length. lia. }
        intros k Hk. rewrite length_app, Hal, Hsl in Hk.
        rewrite dft_nth by lia.
        destruct (lt_dec k m) as [Hlo|Hhi].
        -- rewrite app_nth1 by lia.
           rewrite (zip_with_nth _ _ _ _ C0 C0) by (rewrite ?Hzl, ?dft_length, ?He; lia).
           rewrite HZ, dft_nth by lia.
           symmetry. apply (dft_coef_radix2_lo x m Hlen Hm k).
        -- rewrite app_nth2 by lia. rewrite Hal.
           rewrite (zip_with_nth _ _ _ _ C0 C0) by (rewrite ?Hzl, ?dft_length, ?He; lia).
           rewrite HZ, dft_nth by lia.
           replace (dft_coef x k) with (dft_coef x (m + (k - m))) by (f_equal; lia).
           symmetry. apply (dft_coef_radix2_hi x m Hlen Hm (k - m)).
      * rewrite custom_fft_direct by assumption. apply np_dot_dft_matrix.
Qed.

Lemma custom_fft_is_dft (x : list C) : custom_fft x = dft x.
Proof. apply (custom_fft_dft_aux (length x)). lia. Qed.

(** ** [custom_ifft] computes the inverse transform *)

Lemma Cconj_add z w : Cconj (z + w) = (Cconj z + Cconj w)%C.
Proof. apply C_eq; unfold Cconj; csimpl; ring. Qed.

Lemma Cconj_mul z w : Cconj (z * w) = (Cconj z * Cconj w)%C.
Proof. apply C_eq; unfold Cconj; csimpl; ring. Qed.

Lemma Cconj_involutive z : Cconj (Cconj z) = z.
Proof. destruct z. apply C_eq; unfold Cconj; csimpl; ring. Qed.

Lemma Cconj_cis t : Cconj (cis t) = cis (- t).
Proof. unfold Cconj, cis. simpl. rewrite cos_neg, sin_neg. reflexivity. Qed.

Lemma Cconj_C0 : Cconj C0 = C0.
Proof. apply C_eq; unfold Cconj; csimpl; ring. Qed.

Lemma Cconj_div_real z a : Cconj (Cdiv_real z a) = Cdiv_real (Cconj z) a.
Proof. apply C_eq; unfold Cconj; csimpl; unfold Rdiv; ring. Qed.

Lemma Cconj_sum n f : Cconj (Csum n f) = Csum n (fun i => Cconj (f i)).
Proof.
  induction n as [|n IH]; simpl; [apply Cconj_C0|].
  rewrite Cconj_add, IH. reflexivity.
Qed.

Lemma custom_conj_map x : custom_conj x = map Cconj x.
Proof.
  unfold custom_conj. apply map_ext. intros [a b].
  apply C_eq; unfold Cconj; csimpl; ring.
Qed.

Lemma nth_map_Cconj x k : nth k (map Cconj x) C0 = Cconj (nth k x C0).
Proof. rewrite <- Cconj_C0 at 1. apply map_nth. Qed.

Lemma custom_ifft_is_idft (x : list C) : custom_ifft x = idft x.
Proof.
  unfold custom_ifft. rewrite !custom_conj_map, custom_fft_is_dft.
  unfold dft, idft. rewrite !map_map, length_map.
  apply map_ext. intros n. unfold idft_coef, dft_coef.
  rewrite length_map. f_equal.
  rewrite Cconj_sum. apply Csum_ext. intros k _.
  rewrite Cconj_mul, nth_map_Cconj, Cconj_involutive, Cconj_cis.
  f_equal. apply cis_congr. unfold Rdiv. ring.
Qed.

(** ** Orthogonality of the roots of unity and the inversion theorems *)

Lemma Csum_geometric n t :
  (Csum n (fun k => cis (INR k * t)) * (cis t - C1) = cis (INR n * t) - C1)%C.
Proof.
  induction n as [|n IH].
  - simpl. rewrite Rmult_0_l, cis_0. cring.
  - cbn [Csum]. rewrite Cmul_add_distr_r, IH, S_INR.
    replace ((INR n + 1) * t) with (INR n * t + t) by ring.
    rewrite cis_add. cring.
Qed.

Lemma cis_neq_1 t : 0 < Rabs t < 2 * PI -> cis t <> C1.
Proof.
  intros [H0 H2] Heq. unfold cis, C1 in Heq. injection Heq as Hc Hs.
  replace t with (2 * (t / 2)) in Hc by field.
  rewrite cos_2a_sin in Hc.
  assert (Hsin : sin (t / 2) <> 0).
  { destruct (Rcase_abs t) as [Hneg|Hpos].
    - rewrite Rabs_left in H0, H2 by assumption.
      assert (0 < sin (- (t / 2))) by (apply sin_gt_0; lra).
      rewrite sin_neg in H. lra.
    - rewrite Rabs_right in H0, H2 by assumption.
      assert (0 < sin (t / 2)) by (apply sin_gt_0; lra). lra. }
  assert (Hsq : 0 < sin (t / 2) * sin (t / 2)).
  { destruct (Rtotal_order (sin (t / 2)) 0) as [?|[?|?]]; [|contradiction|]; nra. }
  lra.
Qed.

Lemma Cmul_eq_0_l z w : (z * w)%C = C0 -> w <> C0 -> z = C0.
Proof.
  destruct z as [a b], w as [c d]. unfold Cmul, C0. simpl.
  intros Heq Hw. injection Heq as H1 H2.
  assert (Hcd : 0 < c * c + d * d).
  { destruct (Req_dec c 0) as [->|Hc]; [destruct (Req_dec d 0) as [->|Hd]|].
    - exfalso. apply Hw. reflexivity.
    - nra.
    - nra. }
  assert (Ha : a * (c * c + d * d) = 0).
  { replace (a * (c * c + d * d)) with (c * (a * c - b * d) + d * (a * d + b * c)) by ring.
    rewrite H1, H2. ring. }
  assert (Hb : b * (c * c + d * d) = 0).
  { replace (b * (c * c + d * d)) with (c * (a * d + b * c) - d * (a * c - b * d)) by ring.
    rewrite H1, H2. ring. }
  apply Rmult_integral in Ha, Hb.
  f_equal; [destruct Ha | destruct Hb]; lra.
Qed.

(** The sum of [e^(2 pi i k (a - b) / N)] over [k < N] is [N] when [a = b]
    and [0] otherwise. *)
Lemma kernel_sum N a b :
  (a < N)%nat -> (b < N)%nat ->
  Csum N (fun k => (cis (2 * PI * INR k * INR a / INR N)
                    * cis (- (2 * PI * INR k * INR b / INR N)))%C)
  = if (a =? b)%nat then RtoC (INR N) else C0.
Proof.
  intros Ha Hb.
  assert (HN : INR N <> 0) by (apply not_0_INR; lia).
  set (t := 2 * PI * (INR a - INR b) / INR N).
  rewrite (Csum_ext _ _ (fun k => cis (INR k * t))).
  2:{ intros k _. rewrite <- cis_add. apply cis_congr. unfold t. field. assumption. }
  destruct (Nat.eqb_spec a b) as [->|Hab].
  - unfold t. rewrite (Csum_ext _ _ (fun _ => C1)).
    2:{ intros k _. rewrite <- cis_0. apply cis_congr. field. assumption. }
    clear. induction N as [|N IH]; [reflexivity|].
    cbn [Csum]. rewrite IH, S_INR. cring.
  - apply (Cmul_eq_0_l _ (cis t - C1)%C).
    + rewrite Csum_geometric.
      assert (Hone : cis (INR N * t) = C1).
      { destruct (le_lt_dec b a) as [Hle|Hlt].
        - rewrite <- (cis_2PI_nat (a - b)). apply cis_congr.
          rewrite minus_INR by lia. unfold t. field. assumption.
        - rewrite <- (cis_neg_2PI_nat (b - a)). apply cis_congr.
          rewrite minus_INR by lia. unfold t. field. assumption. }
      rewrite Hone. cring.
    + intros Heq. apply (cis_neq_1 t).
      * assert (Hlt : 0 < INR N) by (apply lt_0_INR; lia).
        assert (Hd : INR a - INR b <> 0).
        { intros E. apply Hab. apply INR_eq. lra. }
        assert (Hbound : Rabs (INR a - INR b) < INR N).
        { apply lt_INR in Ha, Hb. pose proof (pos_INR a). pose proof (pos_INR b).
          apply Rabs_def1; lra. }
        pose proof PI_RGT_0 as Hpi.
        assert (Habs : Rabs t = 2 * PI * Rabs (INR a - INR b) / INR N).
        { unfold t, Rdiv. rewrite !Rabs_mult, Rabs_inv.
          rewrite (Rabs_right 2), (Rabs_right PI), (Rabs_right (INR N)) by lra.
          reflexivity. }
        rewrite Habs. apply Rabs_pos_lt in Hd. split.
        -- apply Rdiv_lt_0_compat; [|assumption]. nra.
        -- apply (Rmult_lt_reg_r (INR N)); [assumption|].
           unfold Rdiv. rewrite Rmult_assoc, Rinv_l, Rmult_1_r by assumption. nra.
      * destruct (cis t) as [c s]. unfold Csub, C1, C0, Re, Im in *. simpl in Heq.
        injection Heq as H1 H2. f_equal; lra.
Qed.

Lemma Csum_delta N n (f : nat -> C) c :
  (n < N)%nat ->
  Csum N (fun j => (f j * (if (j =? n)%nat then c else C0))%C) = (f n * c)%C.
Proof.
  induction N as [|N IH]; intros Hn; [lia|].
  cbn [Csum]. destruct (Nat.eq_dec n N) as [->|Hne].
  - rewrite Nat.eqb_refl.
    rewrite (Csum_ext _ _ (fun _ => C0)).
    + rewrite Csum_zero. cring.
    + intros j Hj. destruct (Nat.eqb_spec j N); [lia|]. cring.
  - rewrite IH by lia. destruct (Nat.eqb_spec N n); [lia|]. cring.
Qed.

Lemma Cdiv_real_mul_l z w a : (Cdiv_real z a * w)%C = Cdiv_real (z * w) a.
Proof. apply C_eq; csimpl; unfold Rdiv; ring. Qed.

Lemma Cdiv_real_sum n f a :
  Csum n (fun i => Cdiv_real (f i) a) = Cdiv_real (Csum n f) a.
Proof.
  induction n as [|n IH]; simpl.
  - apply C_eq; csimpl; unfold Rdiv; ring.
  - rewrite IH. apply C_eq; csimpl; unfold Rdiv; ring.
Qed.

Lemma Cdiv_real_cancel z a : a <> 0 -> Cdiv_real (z * RtoC a) a = z.
Proof. intros Ha. destruct z. apply C_eq; csimpl; field; assumption. Qed.

(** The inverse transform undoes the transform. *)
Theorem idft_dft (x : list C) : idft (dft x) = x.
Proof.
  apply (nth_ext _ _ C0 C0); [rewrite idft_length, dft_length; reflexivity|].
  intros n Hn. rewrite idft_length, dft_length in Hn.
  rewrite idft_nth by (rewrite dft_length; assumption).
  unfold idft_coef. rewrite dft_length.
  assert (HN : INR (length x) <> 0) by (apply not_0_INR; lia).
  rewrite (Csum_ext _ _
    (fun k => Csum (length x) (fun j =>
       (nth j x C0 * (cis (2 * PI * INR k * INR n / INR (length x))
                      * cis (- (2 * PI * INR k * INR j / INR (length x)))))%C))).
  2:{ intros k Hk. rewrite dft_nth by assumption. unfold dft_coef.
      rewrite <- Csum_mul_r. apply Csum_ext. intros j _. cring. }
  rewrite Csum_swap.
  rewrite (Csum_ext _ _
    (fun j => (nth j x C0 * (if (j =? n)%nat then RtoC (INR (length x)) else C0))%C)).
  2:{ intros j Hj. rewrite Csum_mul_l, kernel_sum by assumption.
      rewrite Nat.eqb_sym. reflexivity. }
  rewrite Csum_delta by assumption. apply Cdiv_real_cancel. assumption.
Qed.

(** The transform undoes the inverse transform. *)
Theorem dft_idft (X : list C) : dft (idft X) = X.
Proof.
  apply (nth_ext _ _ C0 C0); [rewrite dft_length, idft_length; reflexivity|].
  intros k Hk. rewrite dft_length, idft_length in Hk.
  rewrite dft_nth by (rewrite idft_length; assumption).
  unfold dft_coef. rewrite idft_length.
  assert (HN : INR (length X) <> 0) by (apply not_0_INR; lia).
  rewrite (Csum_ext _ _
    (fun n => Cdiv_real (Csum (length X) (fun j =>
       (nth j X C0 * (cis (2 * PI * INR n * INR j / INR (length X))
                      * cis (- (2 * PI * INR n * INR k / INR (length X)))))%C))
       (INR (length X)))).
  2:{ intros n Hn. rewrite idft_nth by assumption. unfold idft_coef.
      rewrite Cdiv_real_mul_l. f_equal.
      rewrite <- Csum_mul_r. apply Csum_ext. intros j _.
      rewrite <- !Cmul_assoc. do 2 f_equal; apply cis_congr; unfold Rdiv; ring. }
  rewrite Cdiv_real_sum, Csum_swap.
  rewrite (Csum_ext _ _
    (fun j => (nth j X C0 * (if (j =? k)%nat then RtoC (INR (length X)) else C0))%C)).
  2:{ intros j Hj. rewrite Csum_mul_l, kernel_sum by assumption. reflexivity. }
  rewrite Csum_delta by assumption. apply Cdiv_real_cancel. assumption.
Qed.

(** ** Conjugate symmetry and real vectors *)

Lemma Csum_rev n (g : nat -> C) :
  Csum n (fun i => g (n - 1 - i)%nat) = Csum n g.
Proof.
  induction n as [|n IH]; [reflexivity|].
  rewrite Csum_shift. cbn [Csum].
  replace (S n - 1 - 0)%nat with n by lia.
  rewrite <- IH, Cadd_comm. f_equal.
  apply Csum_ext. intros i Hi. f_equal. lia.
Qed.

(** Summing over [k] or over [(N - k) mod N] is the same. *)
Lemma Csum_reflect N (f : nat -> C) :
  Csum N (fun k => f ((N - k) mod N)%nat) = Csum N f.
Proof.
  destruct N as [|M]; [reflexivity|].
  rewrite !Csum_shift. f_equal.
  - rewrite Nat.sub_0_r, Nat.Div0.mod_same. reflexivity.
  - rewrite <- (Csum_rev M (fun i => f (S i))).
    apply Csum_ext. intros i Hi. f_equal.
    rewrite Nat.mod_small by lia. lia.
Qed.

(** The phasor of [-k] at the reflected index of [k]. *)
Lemma cis_reflect N k n :
  (k < N)%nat ->
  cis (2 * PI * INR ((N - k) mod N) * INR n / INR N)
  = cis (- (2 * PI * INR k * INR n / INR N)).
Proof.
  intros Hk. assert (HN : INR N <> 0) by (apply not_0_INR; lia).
  destruct k as [|k].
  - rewrite Nat.sub_0_r, Nat.Div0.mod_same. apply cis_congr. simpl. unfold Rdiv. ring.
  - rewrite Nat.mod_small by lia.
    rewrite <- (Cmul_1_r (cis (- _))), <- (cis_2PI_nat n), <- cis_add.
    apply cis_congr. rewrite minus_INR by lia. field. assumption.
Qed.

Lemma Cconj_fixed_real z : Cconj z = z -> Im z = 0.
Proof. destruct z as [a b]. unfold Cconj. simpl. intros H. injection H as H. lra. Qed.

Lemma Forall_nth_iff {A} (P : A -> Prop) (l : list A) d :
  Forall P l <-> forall i, (i < length l)%nat -> P (nth i l d).
Proof.
  split.
  - intros H i Hi. rewrite Forall_forall in H. apply H. apply nth_In. assumption.
  - intros H. apply Forall_forall. intros z Hz.
    destruct (In_nth _ _ d Hz) as [i [Hi <-]]. apply H. assumption.
Qed.

(** A conjugate-symmetric spectrum has a real inverse transform. *)
Theorem idft_real (X : list C) : conj_symmetric X -> real_vector (idft X).
Proof.
  intros Hsym. apply (Forall_nth_iff _ _ C0). intros n Hn.
  rewrite idft_length in Hn. rewrite idft_nth by assumption.
  apply Cconj_fixed_real. unfold idft_coef.
  rewrite Cconj_div_real, Cconj_sum. f_equal.
  rewrite <- (Csum_reflect _ (fun k => (nth k X C0 * cis (2 * PI * INR k * INR n / INR (length X)))%C)).
  apply Csum_ext. intros k Hk.
  rewrite Cconj_mul, Cconj_cis, <- (Hsym k Hk), cis_reflect by assumption.
  reflexivity.
Qed.

Lemma real_vector_RtoC_Re (y : list C) :
  real_vector y -> map RtoC (map Re y) = y.
Proof.
  induction 1 as [|z y Hz _ IH]; [reflexivity|].
  cbn [map]. rewrite IH. f_equal. destruct z as [a b]. simpl in Hz. subst.
  reflexivity.
Qed.

Lemma nth_map_RtoC v n : nth n (map RtoC v) C0 = RtoC (nth n v 0).
Proof. change C0 with (RtoC 0). apply map_nth. Qed.

(** The transform of a real vector is conjugate-symmetric. *)
Theorem dft_real_conj_symmetric (v : list R) : conj_symmetric (dft (map RtoC v)).
Proof.
  intros k Hk. rewrite dft_length in *.
  assert (HN : INR (length (map RtoC v)) <> 0) by (apply not_0_INR; lia).
  rewrite !dft_nth by (try apply Nat.mod_upper_bound; lia).
  unfold dft_coef. rewrite Cconj_sum. apply Csum_ext. intros n Hn.
  rewrite Cconj_mul, Cconj_cis, Ropp_involutive, nth_map_RtoC.
  f_equal.
  - apply C_eq; unfold Cconj; csimpl; ring.
  - rewrite <- Cconj_cis, cis_reflect by assumption.
    rewrite Cconj_cis, Ropp_involutive. reflexivity.
Qed.

(** ** Parseval's identity *)

(** The energy of the inverse transform is [1/N] times that of the
    spectrum. *)
Theorem parseval_idft (X : list C) :
  Csum (length X) (fun n => (nth n (idft X) C0 * Cconj (nth n (idft X) C0))%C)
  = Cdiv_real (Csum (length X) (fun k => (nth k X C0 * Cconj (nth k X C0))%C))
              (INR (length X)).
Proof.
  set (N := length X).
  rewrite (Csum_ext _ _
    (fun n => Cdiv_real (Csum N (fun k =>
       (Cconj (nth k X C0) * (nth n (idft X) C0
                              * cis (- (2 * PI * INR k * INR n / INR N))))%C)) (INR N))).
  2:{ intros n Hn. rewrite (idft_nth X n Hn) at 2. unfold idft_coef. fold N.
      rewrite Cconj_div_real, Cmul_comm, Cdiv_real_mul_l. f_equal.
      rewrite Cconj_sum, <- Csum_mul_r. apply Csum_ext. intros k _.
      rewrite Cconj_mul, Cconj_cis. cring. }
  rewrite Cdiv_real_sum, Csum_swap. f_equal.
  apply Csum_ext. intros k Hk.
  rewrite Csum_mul_l, (Cmul_comm (nth k X C0)). f_equal.
  pose proof (dft_idft X) as Hinv.
  apply (f_equal (fun l => nth k l C0)) in Hinv.
  rewrite dft_nth in Hinv by (rewrite idft_length; assumption).
  rewrite <- Hinv. unfold dft_coef. rewrite idft_length. fold N.
  apply Csum_ext. intros n _. reflexivity.
Qed.

(** ** Index and slice assignment *)

Lemma set_nth_length {A} i (v : A) l : length (set_nth i v l) = length l.
Proof.
  revert i. induction l as [|a l IH]; intros [|i]; simpl; auto.
Qed.

Lemma set_nth_same {A} i (v : A) l d :
  (i < length l)%nat -> nth i (set_nth i v l) d = v.
Proof.
  revert i. induction l as [|a l IH]; intros [|i]; simpl; intros H; try lia; auto.
  apply IH. lia.
Qed.

Lemma set_nth_other {A} i k (v : A) l d :
  i <> k -> nth k (set_nth i v l) d = nth k l d.
Proof.
  revert i k. induction l as [|a l IH]; intros [|i] [|k] H; simpl; auto; try lia.
Qed.

Lemma assign_length {A} idx (vals : list A) l :
  length (assign idx vals l) = length l.
Proof.
  revert vals l. induction idx as [|i idx IH]; intros [|v vals] l; simpl; auto.
  rewrite IH. apply set_nth_length.
Qed.

Lemma assign_nth_notin {A} idx (vals : list A) l k d :
  ~ In k idx -> nth k (assign idx vals l) d = nth k l d.
Proof.
  revert vals l. induction idx as [|i idx IH]; intros [|v vals] l Hk; simpl; auto.
  rewrite IH by (intros H; apply Hk; right; assumption).
  apply set_nth_other. intros ->. apply Hk. left. reflexivity.
Qed.

Lemma assign_nth_in {A} idx (vals : list A) l j d :
  NoDup idx -> length vals = length idx ->
  (j < length idx)%nat -> (nth j idx 0%nat < length l)%nat ->
  nth (nth j idx 0%nat) (assign idx vals l) d = nth j vals d.
Proof.
  revert vals l j. induction idx as [|i idx IH]; intros [|v vals] l j Hnd Hlen Hj Hin;
    simpl in *; try lia.
  inversion Hnd as [|? ? Hni Hnd']; subst.
  destruct j as [|j].
  - rewrite assign_nth_notin by assumption. apply set_nth_same. assumption.
  - apply IH; try assumption; try lia. rewrite set_nth_length. assumption.
Qed.

(** ** The target spectrum of [make_good_unitary] *)

(** The phasor the source writes for a phase: [np.cos(phi) + 1j * np.sin(phi)]. *)
Lemma phasor_cis p : (RtoC (cos p) + Ci * RtoC (sin p))%C = cis p.
Proof. unfold cis. apply C_eq; csimpl; ring. Qed.

Lemma parity_cases (D : nat) :
  (0 < D)%nat ->
  (exists m, D = (2 * m + 1)%nat /\ ((D - 1) / 2 = m /\ (D + 1) / 2 = m + 1
                                    /\ D / 2 = m /\ D mod 2 = 1)%nat) \/
  (exists m, D = (2 * m)%nat /\ (0 < m)%nat /\
             ((D - 1) / 2 = m - 1 /\ (D + 1) / 2 = m /\ D / 2 = m /\ D mod 2 = 0)%nat).
Proof.
  intros HD. destruct (Nat.Even_or_Odd D) as [[m Hm]|[m Hm]].
  - right. exists m. split; [assumption|]. split; [lia|]. subst D.
    repeat split.
    + replace (2 * m - 1)%nat with (1 + (m - 1) * 2)%nat by lia.
      rewrite Nat.div_add by lia. reflexivity.
    + replace (2 * m + 1)%nat with (1 + m * 2)%nat by lia.
      rewrite Nat.div_add by lia. reflexivity.
    + rewrite Nat.mul_comm. apply Nat.div_mul. lia.
    + rewrite Nat.mul_comm. apply Nat.Div0.mod_mul.
  - left. exists m. split; [assumption|]. subst D.
    repeat split.
    + replace (2 * m + 1 - 1)%nat with (m * 2)%nat by lia. apply Nat.div_mul. lia.
    + replace (2 * m + 1 + 1)%nat with (0 + (m + 1) * 2)%nat by lia.
      rewrite Nat.div_add by lia. reflexivity.
    + replace (2 * m + 1)%nat with (1 + m * 2)%nat by lia.
      rewrite Nat.div_add by lia. reflexivity.
    + replace (2 * m + 1)%nat with (1 + m * 2)%nat by lia.
      rewrite Nat.Div0.mod_add. reflexivity.
Qed.

Lemma slice_pos_spec D :
  (0 < D)%nat -> slice_pos D = seq 1 ((D - 1) / 2).
Proof.
  intros HD. unfold slice_pos.
  destruct (parity_cases D HD) as [[m [_ [H1 [H2 _]]]]|[m [_ [Hm [H1 [H2 _]]]]]];
    rewrite H1, H2; f_equal; lia.
Qed.

Lemma slice_neg_length D :
  (0 < D)%nat -> length (slice_neg D) = ((D - 1) / 2)%nat.
Proof.
  intros HD. unfold slice_neg. rewrite length_rev, length_seq.
  destruct (parity_cases D HD) as [[m [Hm [H1 [_ [H3 _]]]]]|[m [Hm [Hp [H1 [_ [H3 _]]]]]]];
    rewrite H1, H3; lia.
Qed.

Lemma slice_neg_nth D j :
  (0 < D)%nat -> (j < (D - 1) / 2)%nat -> nth j (slice_neg D) 0%nat = (D - 1 - j)%nat.
Proof.
  intros HD Hj. unfold slice_neg.
  assert (Hlen : (D - 1 - D / 2 = (D - 1) / 2)%nat).
  { destruct (parity_cases D HD) as [[m [Hm [H1 [_ [H3 _]]]]]|[m [Hm [Hp [H1 [_ [H3 _]]]]]]];
      rewrite H1, H3; lia. }
  rewrite rev_nth by (rewrite length_seq; lia).
  rewrite length_seq, seq_nth by lia.
  destruct (parity_cases D HD) as [[m [Hm [H1 [_ [H3 _]]]]]|[m [Hm [Hp [H1 [_ [H3 _]]]]]]];
    rewrite H1, H3 in *; lia.
Qed.

Lemma slice_neg_In D k :
  (0 < D)%nat -> In k (slice_neg D) <-> (D / 2 < k < D)%nat.
Proof.
  intros HD. unfold slice_neg. rewrite <- in_rev, in_seq.
  destruct (parity_cases D HD) as [[m [Hm [H1 [_ [H3 _]]]]]|[m [Hm [Hp [H1 [_ [H3 _]]]]]]];
    rewrite H3; lia.
Qed.

Lemma slice_neg_NoDup D : NoDup (slice_neg D).
Proof. unfold slice_neg. apply NoDup_rev, seq_NoDup. Qed.

Lemma target_spectrum_length D phi : length (target_spectrum D phi) = D.
Proof.
  unfold target_spectrum.
  destruct (D mod 2 =? 0)%nat;
    rewrite ?set_nth_length, !assign_length, set_nth_length, repeat_length; reflexivity.
Qed.

Lemma map_phasor_nth phi j :
  (j < length phi)%nat ->
  nth j (map (fun p => (RtoC (cos p) + Ci * RtoC (sin p))%C) phi) C0 = cis (nth j phi 0).
Proof.
  intros Hj.
  rewrite (nth_indep _ C0 ((fun p => (RtoC (cos p) + Ci * RtoC (sin p))%C) 0))
    by (rewrite length_map; assumption).
  rewrite (map_nth (fun p => (RtoC (cos p) + Ci * RtoC (sin p))%C)).
  apply phasor_cis.
Qed.

Lemma target_spectrum_nth D phi k :
  (0 < D)%nat -> length phi = ((D - 1) / 2)%nat -> (k < D)%nat ->
  nth k (target_spectrum D phi) C0 = spectrum_bin D phi k.
Proof.
  intros HD Hphi Hk. unfold target_spectrum.
  set (ph := map (fun p => (RtoC (cos p) + Ci * RtoC (sin p))%C) phi).
  set (fv1 := set_nth 0 C1 (repeat C0 D)).
  set (fv2 := assign (slice_pos D) ph fv1).
  set (h := ((D - 1) / 2)%nat) in *.
  assert (Hh : (2 * h < D)%nat).
  { unfold h. destruct (parity_cases D HD) as [[m [Hm [H1 _]]]|[m [Hm [Hp [H1 _]]]]];
      rewrite H1; lia. }
  assert (Hph : length ph = h) by (unfold ph; rewrite length_map; assumption).
  assert (Hl1 : length fv1 = D) by (unfold fv1; rewrite set_nth_length, repeat_length; reflexivity).
  assert (Hl2 : length fv2 = D) by (unfold fv2; rewrite assign_length; assumption).
  assert (H20 : nth 0 fv2 C0 = C1).
  { unfold fv2. rewrite assign_nth_notin.
    - unfold fv1. apply set_nth_same. rewrite repeat_length. assumption.
    - rewrite slice_pos_spec, in_seq by assumption. lia. }
  assert (H2lo : forall j, (j < h)%nat -> nth (S j) fv2 C0 = cis (nth j phi 0)).
  { intros j Hj. unfold fv2. rewrite slice_pos_spec by assumption. fold h.
    replace (S j) with (nth j (seq 1 h) 0%nat) by (rewrite seq_nth; lia).
    rewrite assign_nth_in.
    - unfold ph. apply map_phasor_nth. lia.
    - apply seq_NoDup.
    - rewrite length_seq. assumption.
    - rewrite length_seq. assumption.
    - rewrite seq_nth by lia. lia. }
  assert (H2hi : forall i, (h < i)%nat -> nth i fv2 C0 = C0).
  { intros i Hi. unfold fv2. rewrite assign_nth_notin.
    - unfold fv1. rewrite set_nth_other by lia.
      destruct (lt_dec i D) as [HiD|HiD].
      + apply nth_repeat_lt. assumption.
      + apply nth_overflow. rewrite repeat_length. lia.
    - rewrite slice_pos_spec, in_seq by assumption. fold h. lia. }
  assert (Htake : take C0 (slice_pos D) fv2 = ph).
  { unfold take. rewrite slice_pos_spec by assumption. fold h.
    apply (nth_ext _ _ C0 C0); [rewrite length_map, length_seq; lia|].
    intros j Hj. rewrite length_map, length_seq in Hj.
    rewrite (nth_indep _ C0 (nth 0 fv2 C0)) by (rewrite length_map, length_seq; lia).
    rewrite (map_nth (fun i => nth i fv2 C0)), seq_nth by lia.
    cbn [Nat.add]. rewrite H2lo by assumption.
    unfold ph. symmetry. apply map_phasor_nth. lia. }
  rewrite Htake.
  set (fv3 := assign (slice_neg D) (map Cconj ph) fv2).
  assert (Hl3 : length fv3 = D) by (unfold fv3; rewrite assign_length; assumption).
  assert (H3hi : forall i, (D / 2 < i < D)%nat ->
                   nth i fv3 C0 = Cconj (cis (nth (D - 1 - i) phi 0))).
  { intros i Hi.
    assert (Hj : (D - 1 - i < h)%nat).
    { unfold h. destruct (parity_cases D HD) as [[m [Hm [H1 [_ [H3 _]]]]]|[m [Hm [Hp [H1 [_ [H3 _]]]]]]];
        rewrite H1; rewrite H3 in Hi; lia. }
    replace i with (nth (D - 1 - i) (slice_neg D) 0%nat) at 1
      by (rewrite slice_neg_nth by assumption; lia).
    unfold fv3. rewrite assign_nth_in.
    - rewrite nth_map_Cconj. unfold ph. rewrite map_phasor_nth by lia. reflexivity.
    - apply slice_neg_NoDup.
    - rewrite length_map, slice_neg_length by assumption. assumption.
    - rewrite slice_neg_length by assumption. assumption.
    - rewrite slice_neg_nth by assumption. lia. }
  assert (H3lo : forall i, (i <= D / 2)%nat -> nth i fv3 C0 = nth i fv2 C0).
  { intros i Hi. unfold fv3. apply assign_nth_notin.
    rewrite slice_neg_In by assumption. lia. }
  unfold spectrum_bin. fold h.
  destruct (parity_cases D HD) as [[m [Hm [H1 [_ [H3 Hmod]]]]]|[m [Hm [Hp [H1 [_ [H3 Hmod]]]]]]];
    unfold h in *; rewrite Hmod, H3 in *; rewrite H1 in *; cbn [Nat.eqb andb].
  - (* odd length *)
    destruct (Nat.eqb_spec k 0) as [->|Hk0].
    + rewrite H3lo by lia. assumption.
    + destruct (Nat.leb_spec k m) as [Hle|Hgt].
      * rewrite H3lo by lia. destruct k as [|k]; [lia|].
        rewrite H2lo by lia. f_equal. f_equal. lia.
      * apply H3hi. lia.
  - (* even length *)
    destruct (Nat.eqb_spec k 0) as [->|Hk0].
    + rewrite set_nth_other by lia. rewrite H3lo by lia. assumption.
    + destruct (Nat.leb_spec k (m - 1)) as [Hle|Hgt].
      * rewrite set_nth_other by lia. rewrite H3lo by lia. destruct k as [|k]; [lia|].
        rewrite H2lo by lia. f_equal. f_equal. lia.
      * destruct (Nat.eqb_spec k m) as [->|Hkm].
        -- apply set_nth_same. lia.
        -- rewrite set_nth_other by lia. apply H3hi. lia.
Qed.

Lemma Cabs_C1 : Cabs C1 = 1.
Proof. unfold Cabs, C1. simpl. replace (1 * 1 + 0 * 0) with 1 by ring. apply sqrt_1. Qed.

Lemma Cabs_cis t : Cabs (cis t) = 1.
Proof.
  unfold Cabs, cis. simpl.
  replace (cos t * cos t + sin t * sin t) with 1.
  - apply sqrt_1.
  - pose proof (sin2_cos2 t) as H. unfold Rsqr in H. lra.
Qed.

Lemma Cabs_conj z : Cabs (Cconj z) = Cabs z.
Proof. unfold Cabs, Cconj. simpl. f_equal. ring. Qed.

Lemma Cconj_C1 : Cconj C1 = C1.
Proof. apply C_eq; unfold Cconj; csimpl; ring. Qed.

Lemma spectrum_bin_unit D phi k : Cabs (spectrum_bin D phi k) = 1.
Proof.
  unfold spectrum_bin.
  destruct (k =? 0)%nat; [apply Cabs_C1|].
  destruct (k <=? (D - 1) / 2)%nat; [apply Cabs_cis|].
  destruct ((D mod 2 =? 0) && (k =? D / 2))%nat; [apply Cabs_C1|].
  rewrite Cabs_conj. apply Cabs_cis.
Qed.

(** The target spectrum has unit magnitude at every bin. *)
Lemma target_spectrum_unit D phi :
  (0 < D)%nat -> length phi = ((D - 1) / 2)%nat ->
  unit_magnitude (target_spectrum D phi).
Proof.
  intros HD Hphi. apply (Forall_nth_iff _ _ C0). intros k Hk.
  rewrite target_spectrum_length in Hk.
  rewrite target_spectrum_nth by assumption. apply spectrum_bin_unit.
Qed.

(** The target spectrum is conjugate-symmetric. *)
Lemma target_spectrum_conj_symmetric D phi :
  (0 < D)%nat -> length phi = ((D - 1) / 2)%nat ->
  conj_symmetric (target_spectrum D phi).
Proof.
  intros HD Hphi k Hk. rewrite target_spectrum_length in *.
  assert (Hk' : ((D - k) mod D < D)%nat) by (apply Nat.mod_upper_bound; lia).
  rewrite !target_spectrum_nth by assumption.
  unfold spectrum_bin.
  destruct (Nat.eqb_spec k 0) as [->|Hk0].
  - rewrite Nat.sub_0_r, Nat.Div0.mod_same. cbn [Nat.eqb]. symmetry. apply Cconj_C1.
  - rewrite Nat.mod_small by lia.
    destruct (Nat.eqb_spec (D - k) 0) as [E|_]; [lia|].
    destruct (parity_cases D HD) as [[m [Hm [H1 [_ [H3 Hmod]]]]]|[m [Hm [Hp [H1 [_ [H3 Hmod]]]]]]];
      rewrite Hmod, H3, H1; cbn [Nat.eqb andb].
    + destruct (Nat.leb_spec k m) as [Hle|Hgt].
      * destruct (Nat.leb_spec (D - k) m); [lia|].
        do 3 f_equal. lia.
      * destruct (Nat.leb_spec (D - k) m); [|lia].
        rewrite Cconj_involutive. do 2 f_equal. lia.
    + destruct (Nat.leb_spec k (m - 1)) as [Hle|Hgt].
      * destruct (Nat.leb_spec (D - k) (m - 1)); [lia|].
        destruct (Nat.eqb_spec (D - k) m); [lia|].
        do 3 f_equal. lia.
      * destruct (Nat.eqb_spec k m) as [->|Hkm].
        -- destruct (Nat.leb_spec (D - m) (m - 1)); [lia|].
           destruct (Nat.eqb_spec (D - m) m); [|lia].
           symmetry. apply Cconj_C1.
        -- destruct (Nat.leb_spec (D - k) (m - 1)); [|lia].
           rewrite Cconj_involutive. do 2 f_equal. lia.
Qed.

(** ** Norms *)

Lemma Rsum_ext n f g :
  (forall i, (i < n)%nat -> f i = g i) -> Rsum n f = Rsum n g.
Proof.
  induction n as [|n IH]; intros H; simpl; [reflexivity|].
  rewrite IH by (intros; apply H; lia). rewrite H by lia. reflexivity.
Qed.

Lemma Rsum_shift n f : Rsum (S n) f = f O + Rsum n (fun i => f (S i)).
Proof.
  induction n as [|n IH].
  - simpl. ring.
  - change (Rsum (S (S n)) f) with (Rsum (S n) f + f (S n)).
    rewrite IH. simpl. ring.
Qed.

Lemma fold_right_Rplus_Rsum (l : list R) :
  fold_right Rplus 0 l = Rsum (length l) (fun i => nth i l 0).
Proof.
  induction l as [|a l IH]; [reflexivity|].
  cbn [length fold_right]. rewrite Rsum_shift, IH. reflexivity.
Qed.

Lemma Re_Csum n f : Re (Csum n f) = Rsum n (fun i => Re (f i)).
Proof. induction n as [|n IH]; simpl; [reflexivity|]. rewrite IH. reflexivity. Qed.

Lemma Csum_const_C1 n : Csum n (fun _ => C1) = RtoC (INR n).
Proof.
  induction n as [|n IH]; [reflexivity|].
  cbn [Csum]. rewrite IH, S_INR. cring.
Qed.

Lemma Cmul_conj_abs z : Cabs z = 1 -> (z * Cconj z)%C = C1.
Proof.
  destruct z as [a b]. unfold Cabs, Cconj, Cmul, C1. simpl. intros H.
  assert (Hsq : a * a + b * b = 1).
  { rewrite <- (sqrt_sqrt (a * a + b * b)) by nra. rewrite H. ring. }
  f_equal; lra.
Qed.

(** The inverse transform of a conjugate-symmetric spectrum of unit
    magnitude has Euclidean norm one. *)
Theorem norm_idft_unit (X : list C) :
  (0 < length X)%nat -> conj_symmetric X -> unit_magnitude X ->
  norm (map Re (idft X)) = 1.
Proof.
  intros HN Hsym Hunit. unfold norm.
  rewrite fold_right_Rplus_Rsum, !length_map, idft_length.
  pose proof (idft_real X Hsym) as Hreal.
  pose proof (parseval_idft X) as Hpars.
  apply (f_equal Re) in Hpars.
  rewrite Re_Csum in Hpars.
  rewrite (Rsum_ext _ _
    (fun n => Re (nth n (idft X) C0 * Cconj (nth n (idft X) C0))%C)).
  2:{ intros n Hn.
      assert (Him : Im (nth n (idft X) C0) = 0).
      { apply (proj1 (Forall_nth_iff _ _ C0) Hreal). rewrite idft_length. assumption. }
      rewrite (nth_indep _ 0 ((fun x => x * x) 0)) by (rewrite !length_map, idft_length; assumption).
      rewrite (map_nth (fun x => x * x)).
      rewrite (nth_indep _ 0 (Re C0)) by (rewrite length_map, idft_length; assumption).
      rewrite (map_nth Re).
      destruct (nth n (idft X) C0) as [a b]. unfold Cmul, Cconj, Re, Im in *. simpl in *.
      subst b. ring. }
  rewrite Hpars.
  rewrite (Csum_ext _ _ (fun _ => C1)).
  2:{ intros k Hk. apply Cmul_conj_abs.
      apply (proj1 (Forall_nth_iff _ _ C0) Hunit). assumption. }
  rewrite Csum_const_C1. unfold Cdiv_real, RtoC, Re. simpl.
  replace (INR (length X) / INR (length X)) with 1
    by (field; apply not_0_INR; lia).
  apply sqrt_1.
Qed.

(** ** The selected backend *)

(** With the flag as the source sets it, the selected transforms are the
    custom ones. *)
Lemma fft_custom : fft = custom_fft.
Proof. reflexivity. Qed.

Lemma ifft_custom : ifft = custom_ifft.
Proof. reflexivity. Qed.

Lemma fft_is_dft x : fft x = dft x.
Proof. rewrite fft_custom. apply custom_fft_is_dft. Qed.

Lemma ifft_is_idft x : ifft x = idft x.
Proof. rewrite ifft_custom. apply custom_ifft_is_idft. Qed.

(** The library transforms on an array that is not empty. *)
Lemma np_fft_fft_nonempty x : x <> [] -> np_fft_fft x = inr (dft x).
Proof. destruct x; [congruence|reflexivity]. Qed.

Lemma np_fft_ifft_nonempty x : x <> [] -> np_fft_ifft x = inr (idft x).
Proof. destruct x; [congruence|reflexivity]. Qed.

(** ** The assertions of [make_good_unitary] *)

Lemma Rle_bool_true x y : x <= y -> Rle_bool x y = true.
Proof. intros H. unfold Rle_bool. destruct (Rle_dec x y); [reflexivity|contradiction]. Qed.

Lemma Rle_bool_false x y : y < x -> Rle_bool x y = false.
Proof. intros H. unfold Rle_bool. destruct (Rle_dec x y); [lra|reflexivity]. Qed.

Lemma Rle_bool_iff x y : Rle_bool x y = true <-> x <= y.
Proof.
  unfold Rle_bool. destruct (Rle_dec x y); split; intros; try assumption;
    try reflexivity; try discriminate; contradiction.
Qed.

Lemma Cabs_nonneg z : 0 <= Cabs z.
Proof. apply sqrt_pos. Qed.

Lemma isclose_one : isclose 1 1 = true.
Proof.
  unfold isclose, atol, rtol. apply Rle_bool_true.
  replace (1 - 1) with 0 by ring. rewrite Rabs_R0, Rabs_R1. lra.
Qed.

Lemma allclose_scalar_ones (l : list R) :
  Forall (fun a => a = 1) l -> allclose_scalar l 1 = true.
Proof.
  induction 1 as [|a l Ha _ IH]; [reflexivity|].
  cbn [allclose_scalar forallb]. subst a. rewrite isclose_one.
  exact IH.
Qed.

Lemma Cisclose_refl z : Cisclose z z = true.
Proof.
  unfold Cisclose, atol, rtol. apply Rle_bool_true.
  replace (z - z)%C with C0 by (apply C_eq; csimpl; ring).
  unfold Cabs at 1, C0. simpl. replace (0 * 0 + 0 * 0) with 0 by ring.
  rewrite sqrt_0. pose proof (Cabs_nonneg z). lra.
Qed.

Lemma allclose_refl (l : list C) : allclose l l = true.
Proof.
  unfold allclose. induction l as [|z l IH]; [reflexivity|].
  cbn [combine forallb fst snd]. rewrite Cisclose_refl. exact IH.
Qed.

Lemma phases_length D eps rng :
  rng_ok rng -> length (phases D eps rng) = ((D - 1) / 2)%nat.
Proof.
  intros [Hrl [_ [Hcl _]]]. unfold phases.
  rewrite zip_with_length, length_map, Hcl, Hrl. apply Nat.min_id.
Qed.

(** What a run of [make_good_unitary] comes to: only the two assertions on
    the phases can fail; the target spectrum always passes the other three. *)
Lemma make_good_unitary_outcome (D : Z) eps rng :
  rng_ok rng -> (0 < D)%Z ->
  make_good_unitary D eps rng =
    let phi := phases (Z.to_nat D) eps rng in
    if negb (phase_lower_ok eps phi) then inl AssertPhaseLower
    else if negb (phase_upper_ok eps phi) then inl AssertPhaseUpper
    else inr (map Re (idft (target_spectrum (Z.to_nat D) phi))).
Proof.
  intros Hrng HD. unfold make_good_unitary.
  destruct (Z.leb_spec D 0) as [Hle|_]; [lia|].
  fold (phases (Z.to_nat D) eps rng).
  set (phi := phases (Z.to_nat D) eps rng).
  fold (phase_lower_ok eps phi). fold (phase_upper_ok eps phi).
  cbv zeta.
  destruct (phase_lower_ok eps phi); [|reflexivity].
  destruct (phase_upper_ok eps phi); [|reflexivity].
  cbn [negb].
  fold (target_spectrum (Z.to_nat D) phi).
  set (fv := target_spectrum (Z.to_nat D) phi).
  assert (HDn : (0 < Z.to_nat D)%nat) by lia.
  assert (Hphi : length phi = ((Z.to_nat D - 1) / 2)%nat) by (apply phases_length; assumption).
  pose proof (target_spectrum_unit _ _ HDn Hphi) as Hunit.
  pose proof (target_spectrum_conj_symmetric _ _ HDn Hphi) as Hsym.
  fold fv in Hunit, Hsym.
  rewrite allclose_scalar_ones.
  2:{ apply Forall_map. exact Hunit. }
  cbn [negb]. rewrite ifft_is_idft, fft_is_dft.
  unfold asarray_complex.
  rewrite (real_vector_RtoC_Re _ (idft_real _ Hsym)), dft_idft, allclose_refl.
  cbn [negb].
  rewrite norm_idft_unit; [| unfold fv; rewrite target_spectrum_length; assumption
                           | assumption | assumption].
  cbn [allclose_scalar forallb]. rewrite isclose_one. reflexivity.
Qed.

(** ** The phase and the principal power *)

Lemma atan_nonpos t : t <= 0 -> atan t <= 0.
Proof.
  intros [Hlt | ->].
  - left. rewrite <- atan_0. apply atan_increasing. assumption.
  - rewrite atan_0. lra.
Qed.

Lemma atan_pos t : 0 < t -> 0 < atan t.
Proof. intros H. rewrite <- atan_0. apply atan_increasing. assumption. Qed.

(** The phase lies in [(-pi, pi]]. *)
Lemma atan2_bounds y x : - PI < atan2 y x <= PI.
Proof.
  pose proof PI_RGT_0 as Hpi. unfold atan2.
  destruct (Rlt_dec 0 x) as [Hx|Hx].
  - pose proof (atan_bound (y / x)). lra.
  - destruct (Rlt_dec x 0) as [Hx'|Hx'].
    + pose proof (atan_bound (y / x)) as Hb.
      destruct (Rle_dec 0 y) as [Hy|Hy].
      * assert (atan (y / x) <= 0).
        { apply atan_nonpos. unfold Rdiv.
          assert (/ x < 0) by (apply Rinv_lt_0_compat; assumption). nra. }
        lra.
      * assert (0 < atan (y / x)).
        { apply atan_pos. unfold Rdiv.
          assert (/ x < 0) by (apply Rinv_lt_0_compat; assumption). nra. }
        lra.
    + destruct (Rlt_dec 0 y); [lra|]. destruct (Rlt_dec y 0); lra.
Qed.

Lemma Carg_bounds z : - PI < Carg z <= PI.
Proof. apply atan2_bounds. Qed.

Lemma atan_polar x y :
  x <> 0 ->
  sqrt (x * x + y * y) * cos (atan (y / x)) = Rabs x /\
  sqrt (x * x + y * y) * sin (atan (y / x)) = Rabs x * (y / x).
Proof.
  intros Hx. rewrite cos_atan, sin_atan.
  set (t := y / x). set (q := sqrt (1 + t²)).
  assert (Hq2 : 0 < 1 + t²) by (unfold Rsqr; nra).
  assert (Hq : 0 < q) by (apply sqrt_lt_R0; assumption).
  assert (Hqq : q * q = 1 + t²) by (apply sqrt_sqrt; lra).
  assert (Hr : sqrt (x * x + y * y) = Rabs x * q).
  { apply sqrt_lem_1.
    - nra.
    - pose proof (Rabs_pos x). nra.
    - replace (Rabs x * q * (Rabs x * q)) with ((Rabs x * Rabs x) * (q * q)) by ring.
      rewrite Hqq. replace (Rabs x * Rabs x) with (x * x).
      + unfold t, Rsqr. field. assumption.
      + unfold Rabs. destruct (Rcase_abs x); ring. }
  rewrite Hr. split; field; lra.
Qed.

(** Polar form: a complex number is its magnitude times the phasor of its
    phase. *)
Lemma polar_form z : Cscale (Cabs z) (cis (Carg z)) = z.
Proof.
  destruct z as [x y]. unfold Cscale, Cabs, Carg, cis, atan2, Re, Im. simpl.
  destruct (Rlt_dec 0 x) as [Hx|Hx].
  - destruct (atan_polar x y) as [Hc Hs]; [lra|].
    rewrite Hc, Hs, Rabs_right by lra. f_equal. field. lra.
  - destruct (Rlt_dec x 0) as [Hx'|Hx'].
    + destruct (atan_polar x y) as [Hc Hs]; [lra|].
      rewrite Rabs_left in Hc, Hs by assumption.
      destruct (Rle_dec 0 y) as [Hy|Hy].
      * rewrite neg_cos, neg_sin. f_equal.
        -- rewrite <- Ropp_mult_distr_r, Hc. ring.
        -- rewrite <- Ropp_mult_distr_r, Hs. field. lra.
      * unfold Rminus. rewrite cos_plus, sin_plus, cos_neg, sin_neg, cos_PI, sin_PI.
        f_equal.
        -- transitivity (- (sqrt (x * x + y * y) * cos (atan (y / x)))); [ring|].
           rewrite Hc. ring.
        -- transitivity (- (sqrt (x * x + y * y) * sin (atan (y / x)))); [ring|].
           rewrite Hs. field. lra.
    + assert (x = 0) by lra. subst x.
      replace (0 * 0 + y * y) with (y * y) by ring.
      destruct (Rlt_dec 0 y) as [Hy|Hy].
      * rewrite cos_PI2, sin_PI2, sqrt_square by lra. f_equal; ring.
      * destruct (Rlt_dec y 0) as [Hy'|Hy'].
        -- rewrite cos_neg, sin_neg, cos_PI2, sin_PI2.
           replace (y * y) with ((- y) * (- y)) by ring.
           rewrite sqrt_square by lra. f_equal; ring.
        -- assert (y = 0) by lra. subst y.
           rewrite cos_0, sin_0. replace (0 * 0) with 0 by ring.
           rewrite sqrt_0. f_equal; ring.
Qed.

Lemma unit_polar z : Cabs z = 1 -> cis (Carg z) = z.
Proof.
  intros H. rewrite <- (polar_form z) at 2. rewrite H.
  destruct (cis (Carg z)). unfold Cscale. simpl. f_equal; ring.
Qed.

(** Phasors of angles in [(-pi, pi]] are equal only for equal angles. *)
Lemma cis_inj s t :
  - PI < s <= PI -> - PI < t <= PI -> cis s = cis t -> s = t.
Proof.
  intros Hs Ht Heq.
  destruct (Req_dec s t) as [|Hne]; [assumption|exfalso].
  apply (cis_neq_1 (s - t)).
  - split.
    + apply Rabs_pos_lt. lra.
    + apply Rabs_def1; lra.
  - unfold Rminus. rewrite cis_add, Heq, <- Cconj_cis.
    apply Cmul_conj_abs, Cabs_cis.
Qed.

(** The phase of a phasor of angle in [(-pi, pi]] is that angle. *)
Lemma Carg_cis t : - PI < t <= PI -> Carg (cis t) = t.
Proof.
  intros Ht. apply cis_inj; [apply Carg_bounds|assumption|].
  apply unit_polar, Cabs_cis.
Qed.

Lemma Carg_conj z : ~ negative_real z -> Carg (Cconj z) = - Carg z.
Proof.
  destruct z as [x y]. unfold negative_real, Carg, Cconj, atan2, Re, Im. simpl.
  intros Hnr.
  assert (Hdiv : - y / x = - (y / x)) by (unfold Rdiv; ring).
  destruct (Rlt_dec 0 x) as [Hx|Hx].
  - rewrite Hdiv. apply atan_opp.
  - destruct (Rlt_dec x 0) as [Hx'|Hx'].
    + rewrite Hdiv, atan_opp.
      destruct (Rle_dec 0 y) as [Hy|Hy], (Rle_dec 0 (- y)) as [Hy'|Hy']; lra.
    + destruct (Rlt_dec 0 y), (Rlt_dec 0 (- y)), (Rlt_dec y 0), (Rlt_dec (- y) 0);
        lra.
Qed.

Lemma Cconj_eq_C0 z : Cconj z = C0 <-> z = C0.
Proof.
  destruct z as [x y]. unfold Cconj, C0. simpl. split; intros H; injection H as Hx Hy;
    f_equal; lra.
Qed.

(** The value of [**], by cases. *)
Lemma Cpow_finite_eq z e :
  Cpow_finite z e =
  if Req_dec_T e 0 then C1
  else if C_eq_dec z C0 then C0
  else Cscale (Rpower (Cabs z) e) (cis (e * Carg z)).
Proof.
  unfold Cpow_finite, Cpow.
  destruct (Req_dec_T e 0); [reflexivity|].
  destruct (C_eq_dec z C0); [|reflexivity].
  destruct (Rlt_dec 0 e); reflexivity.
Qed.

(** [**] gives a number unless the base is zero and the exponent negative. *)
Lemma Cpow_Some z e : z <> C0 \/ 0 <= e -> Cpow z e = Some (Cpow_finite z e).
Proof.
  intros H. unfold Cpow_finite, Cpow.
  destruct (Req_dec_T e 0); [reflexivity|].
  destruct (C_eq_dec z C0); [|reflexivity].
  destruct (Rlt_dec 0 e); [reflexivity|]. exfalso. destruct H; [contradiction|lra].
Qed.


(** The principal power commutes with conjugation off the negative real
    axis. *)
Lemma Cpow_conj z e :
  ~ negative_real z -> Cpow_finite (Cconj z) e = Cconj (Cpow_finite z e).
Proof.
  intros Hnr. rewrite !Cpow_finite_eq.
  destruct (Req_dec_T e 0) as [He|He]; [symmetry; apply Cconj_C1|].
  destruct (C_eq_dec z C0) as [Hz|Hz], (C_eq_dec (Cconj z) C0) as [Hc|Hc].
  - symmetry. apply Cconj_C0.
  - exfalso. apply Hc. apply Cconj_eq_C0. assumption.
  - exfalso. apply Hz. apply Cconj_eq_C0. assumption.
  - rewrite Cabs_conj, Carg_conj by assumption.
    replace (e * - Carg z) with (- (e * Carg z)) by ring.
    rewrite <- Cconj_cis. destruct (cis (e * Carg z)).
    unfold Cscale, Cconj. simpl. f_equal. ring.
Qed.

Lemma Rpower_one e : Rpower 1 e = 1.
Proof. unfold Rpower. rewrite ln_1, Rmult_0_r. apply exp_0. Qed.

Lemma Cabs_neq_C0 z : Cabs z = 1 -> z <> C0.
Proof.
  intros H ->. unfold Cabs, C0 in H. simpl in H.
  replace (0 * 0 + 0 * 0) with 0 in H by ring. rewrite sqrt_0 in H. lra.
Qed.

(** On the unit circle the power multiplies the phase. *)
Lemma Cpow_unit z e : Cabs z = 1 -> Cpow_finite z e = cis (e * Carg z).
Proof.
  intros H. rewrite !Cpow_finite_eq.
  destruct (Req_dec_T e 0) as [->|He].
  - rewrite Rmult_0_l. symmetry. apply cis_0.
  - destruct (C_eq_dec z C0) as [Hz|Hz]; [exfalso; revert Hz; apply Cabs_neq_C0; assumption|].
    rewrite H, Rpower_one. destruct (cis (e * Carg z)).
    unfold Cscale. simpl. f_equal; ring.
Qed.

Lemma Cabs_pos z : z <> C0 -> 0 < Cabs z.
Proof.
  intros Hz. destruct z as [x y]. unfold Cabs. simpl. apply sqrt_lt_R0.
  destruct (Req_dec x 0) as [->|Hx]; [destruct (Req_dec y 0) as [->|Hy]|].
  - exfalso. apply Hz. reflexivity.
  - nra.
  - nra.
Qed.

(** Exponent one is the identity of [**]. *)
Lemma Cpow_1 z : Cpow_finite z 1 = z.
Proof.
  rewrite !Cpow_finite_eq. destruct (Req_dec_T 1 0) as [H|_]; [lra|].
  destruct (C_eq_dec z C0) as [->|Hz]; [reflexivity|].
  rewrite Rpower_1 by (apply Cabs_pos; assumption).
  rewrite Rmult_1_l. apply polar_form.
Qed.

(** Exponent two is the square. *)
Lemma Cpow_2 z : Cpow_finite z 2 = (z * z)%C.
Proof.
  rewrite !Cpow_finite_eq. destruct (Req_dec_T 2 0) as [H|_]; [lra|].
  destruct (C_eq_dec z C0) as [->|Hz]; [cring|].
  pose proof (Cabs_pos z Hz) as Hpos.
  replace 2 with (INR 2) at 1 by (simpl; ring).
  rewrite Rpower_pow by assumption.
  replace (2 * Carg z) with (Carg z + Carg z) by ring.
  rewrite cis_add.
  rewrite <- (polar_form z) at 4 5.
  destruct (cis (Carg z)) as [c s]. apply C_eq; csimpl; ring.
Qed.

Lemma Cpow_0 z : Cpow_finite z 0 = C1.
Proof. rewrite !Cpow_finite_eq. destruct (Req_dec_T 0 0) as [_|H]; [reflexivity|lra]. Qed.

(** ** The fractional power against its specification *)





Lemma sequence_option_map {A B : Type} (f : A -> option B) (g : A -> B) (l : list A) :
  Forall (fun a => f a = Some (g a)) l ->
  sequence_option (map f l) = Some (map g l).
Proof.
  induction 1 as [|a l Ha _ IH]; [reflexivity|].
  cbn [map sequence_option]. rewrite Ha, IH. reflexivity.
Qed.

Lemma sequence_option_Some {A : Type} (l : list A) :
  sequence_option (map Some l) = Some l.
Proof.
  rewrite (sequence_option_map Some (fun a => a)).
  - rewrite map_id. reflexivity.
  - apply Forall_forall. reflexivity.
Qed.



Lemma sequence_option_length {A : Type} (l : list (option A)) (m : list A) :
  sequence_option l = Some m -> length m = length l.
Proof.
  revert m. induction l as [|[a|] l IH]; intros m H; cbn [sequence_option] in H.
  - injection H as <-. reflexivity.
  - destruct (sequence_option l) as [t|]; [|discriminate].
    injection H as <-. simpl. f_equal. apply IH. reflexivity.
  - discriminate.
Qed.

(** The powers of an array: numbers when the exponent is not negative or no
    bin is zero, and a nan otherwise. *)
Lemma array_pow_Some (X : list C) (e : R) :
  pow_defined X e -> array_pow X e = Some (map (fun z => Cpow_finite z e) X).
Proof.
  intros H. unfold array_pow. apply sequence_option_map.
  apply Forall_forall. intros z Hz. apply Cpow_Some.
  destruct H as [H|H]; [right; assumption|left].
  revert z Hz. apply Forall_forall. assumption.
Qed.


Lemma pow_defined_dec (X : list C) (e : R) :
  pow_defined X e \/ (e < 0 /\ Exists (fun z => z = C0) X).
Proof.
  destruct (Rle_dec 0 e) as [He|He]; [left; left; assumption|].
  destruct (Forall_Exists_dec (fun z => z <> C0)
              (fun z => match C_eq_dec z C0 with
                        | left H => right (fun n => n H)
                        | right H => left H
                        end) X) as [H|H].
  - left. right. assumption.
  - right. split; [lra|]. apply Exists_exists. apply Exists_exists in H.
    destruct H as [z [Hin Hz]]. exists z. split; [assumption|].
    destruct (C_eq_dec z C0); [assumption|contradiction].
Qed.

(** [power_ssp] returns numbers when the exponent is not negative or no bin
    of the transform is zero, and nan throughout otherwise. *)
Lemma power_ssp_Finite (ssp : list R) (e : R) :
  pow_defined (dft (asarray_complex ssp)) e ->
  power_ssp ssp e = Finite (power_ssp_finite ssp e).
Proof.
  intros H. unfold power_ssp, power_ssp_finite.
  rewrite array_pow_Some by (rewrite fft_is_dft; assumption). reflexivity.
Qed.


Lemma power_ssp_dft ssp e :
  power_ssp_finite ssp e = map Re (idft (map (fun z => Cpow_finite z e) (dft (map RtoC ssp)))).
Proof. unfold power_ssp_finite. rewrite fft_is_dft, ifft_is_idft. reflexivity. Qed.

Lemma map_Re_RtoC (v : list R) : map Re (map RtoC v) = v.
Proof. rewrite map_map. simpl. apply map_id. Qed.

Lemma impulse_length D : length (impulse D) = D.
Proof. destruct D; simpl; [reflexivity|]. rewrite repeat_length. reflexivity. Qed.

Lemma impulse_nth D n :
  (n < D)%nat -> nth n (impulse D) 0 = if (n =? 0)%nat then 1 else 0.
Proof.
  intros Hn. destruct D as [|D]; [lia|]. destruct n as [|n]; [reflexivity|].
  simpl. apply nth_repeat_lt. lia.
Qed.

(** The inverse transform of the all-ones spectrum is the impulse. *)
Lemma idft_ones (X : list C) :
  Forall (fun z => z = C1) X -> map Re (idft X) = impulse (length X).
Proof.
  intros Hone.
  apply (nth_ext _ _ 0 0); [rewrite length_map, idft_length, impulse_length; reflexivity|].
  intros n Hn. rewrite length_map, idft_length in Hn.
  rewrite impulse_nth by assumption.
  rewrite (nth_indep _ 0 (Re C0)) by (rewrite length_map, idft_length; assumption).
  rewrite (map_nth Re), idft_nth by assumption.
  unfold idft_coef.
  assert (HN : INR (length X) <> 0) by (apply not_0_INR; lia).
  rewrite (Csum_ext _ _
    (fun k => (cis (2 * PI * INR k * INR n / INR (length X))
               * cis (- (2 * PI * INR k * INR 0 / INR (length X))))%C)).
  2:{ intros k Hk.
      rewrite (proj1 (Forall_nth_iff _ _ C0) Hone k Hk), Cmul_1_l.
      replace (- (2 * PI * INR k * INR 0 / INR (length X))) with 0
        by (simpl; unfold Rdiv; ring).
      rewrite cis_0, Cmul_1_r. reflexivity. }
  rewrite kernel_sum by lia.
  destruct (n =? 0)%nat; unfold Cdiv_real, RtoC, C0, Re; simpl; field; assumption.
Qed.

(** ** The phases of a run *)

Lemma Forall_zip_with {A B D} (P : A -> Prop) (Q : B -> Prop) (S : D -> Prop)
      (f : A -> B -> D) l m :
  (forall a b, P a -> Q b -> S (f a b)) ->
  Forall P l -> Forall Q m -> Forall S (zip_with f l m).
Proof.
  intros Hf Hl. revert m. induction Hl as [|a l Ha _ IH]; intros m Hm.
  - constructor.
  - destruct Hm as [|b m Hb Hm]; [constructor|].
    cbn [zip_with]. constructor; [apply Hf; assumption|apply IH; assumption].
Qed.

Lemma phases_shape D eps rng :
  rng_ok rng ->
  Forall (fun p => exists a, 0 <= a < 1 /\
                   Rabs p = PI * Rabs (eps + a * (1 - 2 * eps)))
         (phases D eps rng).
Proof.
  intros [_ [Hr [_ Hc]]]. unfold phases.
  apply (Forall_zip_with
           (fun s => In s [(-1)%Z; 1%Z])
           (fun t => exists a, 0 <= a < 1 /\ t = eps + a * (1 - 2 * eps))).
  - intros s t Hs [a [Ha ->]]. exists a. split; [assumption|].
    pose proof PI_RGT_0 as Hpi.
    assert (Hs1 : Rabs (IZR s) = 1).
    { destruct Hs as [<-|[<-|[]]]; unfold Rabs; destruct (Rcase_abs _); lra. }
    rewrite !Rabs_mult, (Rabs_right PI), Hs1 by lra. ring.
  - apply Hc. discriminate.
  - apply Forall_map. eapply Forall_impl; [|apply Hr].
    intros a Ha. exists a. split; [assumption|reflexivity].
Qed.

(** For a tolerance in [[0, 1/2]] every phase magnitude lies in
    [[eps * pi, (1 - eps) * pi]]. *)
Lemma phases_bounds D eps rng :
  rng_ok rng -> 0 <= eps <= 1 / 2 ->
  Forall (fun p => PI * eps <= Rabs p <= PI * (1 - eps)) (phases D eps rng).
Proof.
  intros Hrng Heps. eapply Forall_impl; [|apply phases_shape; assumption].
  intros p [a [Ha ->]]. pose proof PI_RGT_0 as Hpi.
  assert (Hlo : 0 <= a * (1 - 2 * eps)) by (apply Rmult_le_pos; lra).
  assert (Hhi : 0 <= (1 - a) * (1 - 2 * eps)) by (apply Rmult_le_pos; lra).
  rewrite Rabs_right by lra.
  split; apply Rmult_le_compat_l; lra.
Qed.

Lemma forallb_Forall_true {A} (f : A -> bool) (P : A -> Prop) l :
  (forall a, P a -> f a = true) -> Forall P l -> forallb f l = true.
Proof.
  intros Hf. induction 1 as [|a l Ha _ IH]; [reflexivity|].
  cbn [forallb]. rewrite Hf, IH by assumption. reflexivity.
Qed.

Lemma phase_checks_pass D eps rng :
  rng_ok rng -> 0 <= eps <= 1 / 2 ->
  phase_lower_ok eps (phases D eps rng) = true /\
  phase_upper_ok eps (phases D eps rng) = true.
Proof.
  intros Hrng Heps. pose proof (phases_bounds D eps rng Hrng Heps) as Hb.
  split; eapply forallb_Forall_true; try exact Hb; intros p Hp; cbv beta in *;
    apply Rle_bool_true; lra.
Qed.

(** For a tolerance in [[0, 1/2]] the run returns the real part of the
    inverse transform of the target spectrum. *)
Lemma make_good_unitary_returns (D : Z) eps rng :
  rng_ok rng -> (0 < D)%Z -> 0 <= eps <= 1 / 2 ->
  make_good_unitary D eps rng =
    inr (map Re (idft (target_spectrum (Z.to_nat D) (phases (Z.to_nat D) eps rng)))).
Proof.
  intros Hrng HD Heps. rewrite make_good_unitary_outcome by assumption.
  cbv zeta.
  destruct (phase_checks_pass (Z.to_nat D) eps rng Hrng Heps) as [-> ->].
  reflexivity.
Qed.

(** Whatever the tolerance, a returned vector is the real part of the
    inverse transform of the target spectrum. *)
Lemma make_good_unitary_inr (D : Z) eps rng v :
  rng_ok rng -> make_good_unitary D eps rng = inr v ->
  (0 < D)%Z /\
  phase_upper_ok eps (phases (Z.to_nat D) eps rng) = true /\
  v = map Re (idft (target_spectrum (Z.to_nat D) (phases (Z.to_nat D) eps rng))).
Proof.
  intros Hrng Hv.
  assert (HD : (0 < D)%Z).
  { unfold make_good_unitary in Hv. destruct (Z.leb_spec D 0); [discriminate|assumption]. }
  rewrite make_good_unitary_outcome in Hv by assumption. cbv zeta in Hv.
  destruct (phase_lower_ok eps _); [|discriminate].
  destruct (phase_upper_ok eps _); [|discriminate].
  cbn [negb] in Hv. injection Hv as <-. repeat split; assumption.
Qed.

(** The transform of a returned vector is the target spectrum. *)
Lemma returned_vector_spectrum D phi :
  (0 < D)%nat -> length phi = ((D - 1) / 2)%nat ->
  dft (map RtoC (map Re (idft (target_spectrum D phi)))) = target_spectrum D phi.
Proof.
  intros HD Hphi.
  rewrite real_vector_RtoC_Re
    by (apply idft_real, target_spectrum_conj_symmetric; assumption).
  apply dft_idft.
Qed.

Lemma constant_rng_ok a i : 0 <= a < 1 -> rng_ok (constant_rng a i).
Proof.
  intros Ha. unfold rng_ok, constant_rng. cbn [rand choice].
  repeat split.
  - intros n. apply repeat_length.
  - intros n. apply Forall_forall. intros x Hx. apply repeat_spec in Hx. subst. assumption.
  - intros opts n. apply repeat_length.
  - intros opts n Hne. apply Forall_forall. intros x Hx. apply repeat_spec in Hx. subst.
    apply nth_In. apply Nat.mod_upper_bound. destruct opts; [contradiction|discriminate].
Qed.

(** ** Transforms of length four, in closed form *)

Lemma cis_nat_mul m t : cis (INR m * t) = Cpow_nat (cis t) m.
Proof.
  induction m as [|m IH].
  - simpl. rewrite Rmult_0_l. apply cis_0.
  - rewrite S_INR. replace ((INR m + 1) * t) with (t + INR m * t) by ring.
    rewrite cis_add, IH. reflexivity.
Qed.

Lemma cis_PI2 : cis (PI / 2) = Ci.
Proof. unfold cis, Ci. rewrite cos_PI2, sin_PI2. reflexivity. Qed.

Lemma cis_neg_PI2 : cis (- (PI / 2)) = (- Ci)%C.
Proof.
  unfold cis. rewrite cos_neg, sin_neg, cos_PI2, sin_PI2.
  apply C_eq; csimpl; ring.
Qed.

Lemma idft_coef_4 a b c d n :
  idft_coef [a; b; c; d] n =
  Cdiv_real (a + b * Cpow_nat Ci n + c * Cpow_nat Ci (2 * n) + d * Cpow_nat Ci (3 * n))%C 4.
Proof.
  unfold idft_coef. cbn [length Csum nth].
  replace (INR 4) with 4 by (simpl; ring).
  rewrite <- cis_PI2, <- !cis_nat_mul, !mult_INR.
  f_equal. rewrite Cadd_0_l.
  replace (a * cis (2 * PI * INR 0 * INR n / 4))%C with a.
  2:{ replace (2 * PI * INR 0 * INR n / 4) with 0 by (simpl; field).
      rewrite cis_0, Cmul_1_r. reflexivity. }
  repeat match goal with
         | |- Cadd _ _ = Cadd _ _ => f_equal
         | |- Cmul _ _ = Cmul _ _ => f_equal
         end; try reflexivity; apply cis_congr; simpl; field.
Qed.

Lemma dft_coef_4 a b c d k :
  dft_coef [a; b; c; d] k =
  (a + b * Cpow_nat (- Ci) k + c * Cpow_nat (- Ci) (2 * k)
     + d * Cpow_nat (- Ci) (3 * k))%C.
Proof.
  unfold dft_coef. cbn [length Csum nth].
  replace (INR 4) with 4 by (simpl; ring).
  rewrite <- cis_neg_PI2, <- !cis_nat_mul, !mult_INR.
  rewrite Cadd_0_l.
  replace (a * cis (- (2 * PI * INR k * INR 0 / 4)))%C with a.
  2:{ replace (- (2 * PI * INR k * INR 0 / 4)) with 0 by (simpl; field).
      rewrite cis_0, Cmul_1_r. reflexivity. }
  repeat match goal with
         | |- Cadd _ _ = Cadd _ _ => f_equal
         | |- Cmul _ _ = Cmul _ _ => f_equal
         end; try reflexivity; apply cis_congr; simpl; field.
Qed.

Lemma idft_4 a b c d :
  idft [a; b; c; d] =
  [ Cdiv_real (a + b + c + d)%C 4;
    Cdiv_real (a + b * Ci - c - d * Ci)%C 4;
    Cdiv_real (a - b + c - d)%C 4;
    Cdiv_real (a - b * Ci - c + d * Ci)%C 4 ].
Proof.
  unfold idft. cbn [length seq map]. rewrite !idft_coef_4.
  destruct a, b, c, d.
  repeat (apply f_equal2; [apply C_eq; csimpl; field|]). reflexivity.
Qed.

Lemma dft_4 a b c d :
  dft [a; b; c; d] =
  [ (a + b + c + d)%C;
    (a - b * Ci - c + d * Ci)%C;
    (a - b + c - d)%C;
    (a + b * Ci - c - d * Ci)%C ].
Proof.
  unfold dft. cbn [length seq map]. rewrite !dft_coef_4.
  destruct a, b, c, d.
  repeat (apply f_equal2; [apply C_eq; csimpl; ring|]). reflexivity.
Qed.

(** ** A run at [D = 4] *)

Lemma rng4_ok : rng_ok rng4.
Proof. apply constant_rng_ok. lra. Qed.

Lemma rng0_ok : rng_ok rng0.
Proof. apply constant_rng_ok. lra. Qed.

Lemma phases_rng4 eps : phases 4 eps rng4 = [PI / 2].
Proof.
  unfold phases, rng4, constant_rng. cbn. f_equal. field.
Qed.

Lemma target_spectrum_4 p :
  target_spectrum 4 [p] = [C1; cis p; C1; Cconj (cis p)].
Proof.
  unfold target_spectrum. cbn. rewrite !phasor_cis. reflexivity.
Qed.

Lemma make_good_unitary_4 eps :
  0 <= eps <= 1 / 2 -> make_good_unitary 4 eps rng4 = inr v4.
Proof.
  intros Heps.
  rewrite make_good_unitary_returns by (try apply rng4_ok; try lia; assumption).
  f_equal. change (Z.to_nat 4) with 4%nat.
  rewrite phases_rng4, target_spectrum_4, cis_PI2, idft_4.
  unfold v4. cbn [map].
  repeat (apply f_equal2; [unfold Cconj; csimpl; field|]). reflexivity.
Qed.

Lemma dft_v4 : dft (map RtoC v4) = [C1; Ci; C1; (- Ci)%C].
Proof.
  unfold v4. cbn [map]. rewrite dft_4.
  repeat (apply f_equal2; [apply C_eq; csimpl; field|]). reflexivity.
Qed.

Lemma Carg_C1 : Carg C1 = 0.
Proof.
  unfold Carg, atan2, C1, Re, Im. simpl.
  destruct (Rlt_dec 0 1) as [_|H]; [|lra].
  unfold Rdiv. rewrite Rmult_0_l. apply atan_0.
Qed.

Lemma Cabs_opp z : Cabs (- z)%C = Cabs z.
Proof. unfold Cabs, Copp. simpl. f_equal. ring. Qed.

Lemma Cpow_C1 e : Cpow_finite C1 e = C1.
Proof.
  rewrite Cpow_unit by apply Cabs_C1. rewrite Carg_C1, Rmult_0_r. apply cis_0.
Qed.

(** ** The convolution theorem *)

Lemma nth_map_in {A B} (f : A -> B) l k dA dB :
  (k < length l)%nat -> nth k (map f l) dB = f (nth k l dA).
Proof.
  intros Hk. rewrite (nth_indep _ dB (f dA)) by (rewrite length_map; assumption).
  apply map_nth.
Qed.

Lemma Csum_rotate D (g : nat -> C) (s : nat) :
  Csum D (fun n => g ((n + s) mod D)%nat) = Csum D g.
Proof.
  revert g. induction s as [|s IH]; intros g.
  - apply Csum_ext. intros n Hn. rewrite Nat.add_0_r, Nat.mod_small by assumption.
    reflexivity.
  - rewrite <- (IH g).
    destruct D as [|M]; [reflexivity|].
    rewrite (Csum_shift M (fun n => g ((n + s) mod S M)%nat)).
    cbn [Csum]. rewrite Cadd_comm. f_equal.
    + f_equal. replace (M + S s)%nat with (s + 1 * S M)%nat by lia.
      rewrite Nat.Div0.mod_add. reflexivity.
    + apply Csum_ext. intros n _. f_equal. f_equal. lia.
Qed.

(** The phasor at [j] depends on [j] modulo the length only. *)
Lemma cis_index_mod D k j :
  (0 < D)%nat ->
  cis (- (2 * PI * INR k * INR (j mod D) / INR D))
  = cis (- (2 * PI * INR k * INR j / INR D)).
Proof.
  intros HD. assert (HN : INR D <> 0) by (apply not_0_INR; lia).
  rewrite (Nat.div_mod_eq j D) at 2.
  rewrite plus_INR, mult_INR.
  rewrite <- (Cmul_1_r (cis (- (2 * PI * INR k * INR (j mod D) / INR D)))).
  rewrite <- (cis_neg_2PI_nat (k * (j / D))), <- cis_add.
  apply cis_congr. rewrite mult_INR. field. assumption.
Qed.

Lemma RtoC_Rsum n f : RtoC (Rsum n f) = Csum n (fun i => RtoC (f i)).
Proof.
  induction n as [|n IH]; [reflexivity|].
  cbn [Rsum Csum]. rewrite <- IH. apply C_eq; csimpl; ring.
Qed.

Lemma circ_conv_length v w : length (circ_conv v w) = length v.
Proof. unfold circ_conv. rewrite length_map, length_seq. reflexivity. Qed.

Lemma circ_conv_nth v w n :
  (n < length v)%nat ->
  nth n (circ_conv v w) 0 =
  Rsum (length v) (fun m => nth m v 0 * nth ((n + length v - m) mod length v) w 0).
Proof.
  intros Hn. unfold circ_conv.
  set (f := fun n => Rsum (length v) (fun m => nth m v 0 * nth ((n + length v - m) mod length v) w 0)).
  rewrite (nth_indep _ 0 (f 0%nat)) by (rewrite length_map, length_seq; assumption).
  rewrite (map_nth f), seq_nth by assumption. reflexivity.
Qed.

(** The transform of the circular self-convolution is the square of the
    transform. *)
Theorem dft_circ_conv (v : list R) :
  dft (map RtoC (circ_conv v v)) = map (fun z => (z * z)%C) (dft (map RtoC v)).
Proof.
  set (D := length v).
  assert (HlenC : length (map RtoC v) = D) by apply length_map.
  assert (HlenV : length (map RtoC (circ_conv v v)) = D)
    by (rewrite length_map; apply circ_conv_length).
  apply (nth_ext _ _ C0 C0);
    [rewrite length_map, !dft_length, HlenC, HlenV; reflexivity|].
  intros k Hk. rewrite dft_length, HlenV in Hk.
  assert (HD : (0 < D)%nat) by lia.
  rewrite dft_nth by (rewrite HlenV; assumption).
  rewrite (nth_map_in _ _ _ C0) by (rewrite dft_length, HlenC; assumption).
  rewrite dft_nth by (rewrite HlenC; assumption).
  unfold dft_coef. rewrite HlenC, HlenV.
  set (w := fun j => cis (- (2 * PI * INR k * INR j / INR D))).
  set (x := fun j => nth j (map RtoC v) C0).
  change (Csum D (fun n => (nth n (map RtoC (circ_conv v v)) C0 * w n)%C)
          = (Csum D (fun n => (x n * w n)%C) * Csum D (fun n => (x n * w n)%C))%C).
  rewrite (Csum_ext _ _
    (fun n => Csum D (fun m => ((x m * w m) * (x ((n + (D - m)) mod D)%nat
                                               * w ((n + (D - m)) mod D)%nat))%C))).
  2:{ intros n Hn. rewrite nth_map_RtoC, circ_conv_nth by assumption.
      fold D. rewrite RtoC_Rsum, <- Csum_mul_r. apply Csum_ext. intros m Hm.
      unfold x. rewrite !nth_map_RtoC.
      replace (n + D - m)%nat with (n + (D - m))%nat by lia.
      assert (Hw : w n = (w m * w ((n + (D - m)) mod D)%nat)%C).
      { unfold w. rewrite <- cis_add.
        transitivity (cis (- (2 * PI * INR k * INR (m + (n + (D - m)) mod D) / INR D))).
        - rewrite <- (cis_index_mod D k (m + (n + (D - m)) mod D) HD).
          replace ((m + (n + (D - m)) mod D) mod D)%nat with n; [reflexivity|].
          rewrite Nat.Div0.add_mod_idemp_r.
          replace (m + (n + (D - m)))%nat with (n + 1 * D)%nat by lia.
          rewrite Nat.Div0.mod_add. symmetry. apply Nat.mod_small. assumption.
        - apply cis_congr. rewrite plus_INR. field. apply not_0_INR. lia. }
      rewrite Hw. apply C_eq; csimpl; ring. }
  rewrite Csum_swap.
  rewrite <- Csum_mul_r. apply Csum_ext. intros m Hm.
  rewrite Csum_mul_l. f_equal.
  apply (Csum_rotate D (fun j => (x j * w j)%C) (D - m)).
Qed.

(** ** Powers of a conjugate-symmetric spectrum *)

Lemma nth_map_Cpow X e k :
  (k < length X)%nat ->
  nth k (map (fun z => Cpow_finite z e) X) C0 = Cpow_finite (nth k X C0) e.
Proof.
  intros Hk.
  rewrite (nth_indep _ C0 ((fun z => Cpow_finite z e) C0)) by (rewrite length_map; assumption).
  apply (map_nth (fun z => Cpow_finite z e)).
Qed.

(** The elementwise power of a conjugate-symmetric spectrum with no bin on
    the negative real axis is conjugate-symmetric. *)
Lemma Cpow_conj_symmetric X e :
  conj_symmetric X -> Forall (fun z => ~ negative_real z) X ->
  conj_symmetric (map (fun z => Cpow_finite z e) X).
Proof.
  intros Hsym Hnr k Hk. rewrite length_map in *.
  rewrite !nth_map_Cpow by (try apply Nat.mod_upper_bound; lia).
  rewrite (Hsym k Hk). apply Cpow_conj.
  apply (proj1 (Forall_nth_iff _ _ C0) Hnr). assumption.
Qed.

Lemma cis_not_negative_real p : - PI < p < PI -> ~ negative_real (cis p).
Proof.
  intros Hp [Hre Him]. unfold cis, Re, Im in *. simpl in *.
  pose proof PI_RGT_0 as Hpi.
  assert (Hcos : cos p = -1).
  { pose proof (sin2_cos2 p) as H. unfold Rsqr in H. rewrite Him in H. nra. }
  assert (Heq : p = PI).
  { apply cis_inj; [lra|lra|].
    unfold cis. rewrite Hcos, Him, cos_PI, sin_PI. reflexivity. }
  lra.
Qed.

Lemma C1_not_negative_real : ~ negative_real C1.
Proof. intros [H _]. unfold C1, Re in H. simpl in H. lra. Qed.

Lemma spectrum_bin_not_negative_real D phi k :
  Forall (fun p => Rabs p < PI) phi -> ~ negative_real (spectrum_bin D phi k).
Proof.
  intros Hphi. pose proof PI_RGT_0 as Hpi.
  assert (Hnth : forall j, - PI < nth j phi 0 < PI).
  { intros j. destruct (lt_dec j (length phi)) as [Hj|Hj].
    - pose proof (proj1 (Forall_nth_iff _ _ 0) Hphi j Hj) as H.
      apply Rabs_def2 in H. lra.
    - rewrite nth_overflow by lia. lra. }
  unfold spectrum_bin.
  destruct (k =? 0)%nat; [apply C1_not_negative_real|].
  destruct (k <=? (D - 1) / 2)%nat; [apply cis_not_negative_real, Hnth|].
  destruct ((D mod 2 =? 0) && (k =? D / 2))%nat; [apply C1_not_negative_real|].
  rewrite Cconj_cis. apply cis_not_negative_real.
  pose proof (Hnth (D - 1 - k)%nat). lra.
Qed.

(** With a tolerance that is not negative, no phase of a run that passes
    the upper assertion has magnitude [pi]. *)
Lemma phases_lt_PI D eps rng :
  rng_ok rng -> 0 <= eps ->
  phase_upper_ok eps (phases D eps rng) = true ->
  Forall (fun p => Rabs p < PI) (phases D eps rng).
Proof.
  intros Hrng Heps Hup. pose proof PI_RGT_0 as Hpi.
  pose proof (phases_shape D eps rng Hrng) as Hshape.
  unfold phase_upper_ok in Hup. rewrite forallb_forall in Hup.
  rewrite Forall_forall in *. intros p Hp.
  destruct (Hshape p Hp) as [a [Ha Habs]].
  specialize (Hup p Hp). apply Rle_bool_iff in Hup.
  destruct Heps as [Hpos|<-].
  - nra.
  - rewrite Habs. replace (0 + a * (1 - 2 * 0)) with a by ring.
    rewrite Rabs_right by lra. nra.
Qed.

(** ** Composition of powers *)

Lemma Carg_lt_PI z : Cabs z = 1 -> ~ negative_real z -> - PI < Carg z < PI.
Proof.
  intros Habs Hnr. pose proof (Carg_bounds z) as [Hlo Hhi].
  split; [assumption|]. destruct Hhi as [Hlt|Heq]; [assumption|exfalso].
  apply Hnr. rewrite <- (unit_polar z Habs), Heq.
  unfold negative_real, cis, Re, Im. simpl. rewrite cos_PI, sin_PI. split; lra.
Qed.

(** On the unit circle, off the negative real axis, and for a first exponent
    in [[-1, 1]], a power of a power is the power by the product. *)
Lemma Cpow_Cpow z a b :
  Cabs z = 1 -> ~ negative_real z -> -1 <= a <= 1 ->
  Cpow_finite (Cpow_finite z a) b = Cpow_finite z (a * b).
Proof.
  intros Habs Hnr Ha. pose proof (Carg_lt_PI z Habs Hnr) as Harg.
  rewrite (Cpow_unit z a Habs), (Cpow_unit z (a * b) Habs).
  rewrite Cpow_unit by apply Cabs_cis.
  assert (Hprod : Rabs (a * Carg z) < PI).
  { rewrite Rabs_mult.
    assert (Ha1 : Rabs a <= 1) by (apply Rabs_le; lra).
    assert (Ht : Rabs (Carg z) < PI) by (apply Rabs_def1; lra).
    pose proof (Rabs_pos (Carg z)). pose proof (Rabs_pos a).
    apply Rle_lt_trans with (1 * Rabs (Carg z)); [|lra].
    apply Rmult_le_compat_r; assumption. }
  apply Rabs_def2 in Hprod.
  rewrite Carg_cis by lra.
  apply cis_congr. ring.
Qed.

Lemma Cabs_Cpow_unit z e : Cabs z = 1 -> Cabs (Cpow_finite z e) = 1.
Proof. intros H. rewrite Cpow_unit by assumption. apply Cabs_cis. Qed.

(** The transform of [power_ssp_finite v e], when the powered spectrum is
    conjugate-symmetric. *)
Lemma dft_power_ssp v e :
  conj_symmetric (map (fun z => Cpow_finite z e) (dft (map RtoC v))) ->
  dft (map RtoC (power_ssp_finite v e)) = map (fun z => Cpow_finite z e) (dft (map RtoC v)).
Proof.
  intros Hsym. rewrite power_ssp_dft.
  rewrite (real_vector_RtoC_Re _ (idft_real _ Hsym)). apply dft_idft.
Qed.

Lemma power_ssp_compose v a b :
  valid_ssp v ->
  Forall (fun z => ~ negative_real z) (dft (map RtoC v)) ->
  -1 <= a <= 1 ->
  power_ssp_finite (power_ssp_finite v a) b = power_ssp_finite v (a * b).
Proof.
  intros Hvalid Hnr Ha.
  rewrite (power_ssp_dft (power_ssp_finite v a) b), (power_ssp_dft v (a * b)).
  rewrite dft_power_ssp
    by (apply Cpow_conj_symmetric; [apply dft_real_conj_symmetric|assumption]).
  do 2 f_equal. rewrite map_map. apply map_ext_in. intros z Hz.
  unfold valid_ssp, unit_magnitude, asarray_complex in Hvalid.
  rewrite Forall_forall in Hvalid, Hnr.
  apply Cpow_Cpow; auto.
Qed.

(** ** Facts about returned vectors *)

Section Returned.

Variables (D : Z) (eps : R) (rng : RandomState) (v : list R).
Hypothesis Hrng : rng_ok rng.
Hypothesis Hret : make_good_unitary D eps rng = inr v.

Let n := Z.to_nat D.
Let phi := phases n eps rng.
Let fv := target_spectrum n phi.

Lemma returned_pos : (0 < n)%nat.
Proof. destruct (make_good_unitary_inr D eps rng v Hrng Hret) as [HD _]. unfold n. lia. Qed.

Lemma returned_eq : v = map Re (idft fv).
Proof. apply (make_good_unitary_inr D eps rng v Hrng Hret). Qed.

Lemma returned_phi_length : length phi = ((n - 1) / 2)%nat.
Proof. apply phases_length. assumption. Qed.

Lemma returned_length : length v = n.
Proof.
  rewrite returned_eq, length_map, idft_length. apply target_spectrum_length.
Qed.

Lemma returned_dft : dft (map RtoC v) = fv.
Proof.
  rewrite returned_eq.
  apply returned_vector_spectrum; [apply returned_pos|apply returned_phi_length].
Qed.

Lemma returned_unit : unit_magnitude (dft (map RtoC v)).
Proof.
  rewrite returned_dft.
  apply target_spectrum_unit; [apply returned_pos|apply returned_phi_length].
Qed.

Lemma returned_norm : norm v = 1.
Proof.
  rewrite returned_eq. apply norm_idft_unit.
  - unfold fv. rewrite target_spectrum_length. apply returned_pos.
  - apply target_spectrum_conj_symmetric; [apply returned_pos|apply returned_phi_length].
  - apply target_spectrum_unit; [apply returned_pos|apply returned_phi_length].
Qed.

Lemma returned_not_negative_real :
  0 <= eps -> Forall (fun z => ~ negative_real z) (dft (map RtoC v)).
Proof.
  intros Heps. rewrite returned_dft.
  apply (Forall_nth_iff _ _ C0). intros k Hk.
  unfold fv in *. rewrite target_spectrum_length in Hk.
  rewrite target_spectrum_nth by (try apply returned_pos; try apply returned_phi_length; assumption).
  apply spectrum_bin_not_negative_real. apply phases_lt_PI; try assumption.
  apply (make_good_unitary_inr D eps rng v Hrng Hret).
Qed.

End Returned.

Lemma unit_magnitude_sq X :
  unit_magnitude X -> unit_magnitude (map (fun z => (z * z)%C) X).
Proof.
  intros H. apply Forall_map. eapply Forall_impl; [|exact H].
  intros [a b] Hz. unfold Cabs, Cmul, Re, Im in *. simpl in *.
  assert (Hsq : a * a + b * b = 1).
  { rewrite <- (sqrt_sqrt (a * a + b * b)) by nra. rewrite Hz. ring. }
  replace ((a * a - b * b) * (a * a - b * b) + (a * b + b * a) * (a * b + b * a))
    with ((a * a + b * b) * (a * a + b * b)) by ring.
  rewrite Hsq, Rmult_1_r. apply sqrt_1.
Qed.

Lemma conj_symmetric_sq X :
  conj_symmetric X -> conj_symmetric (map (fun z => (z * z)%C) X).
Proof.
  intros Hsym k Hk. rewrite length_map in *.
  rewrite !(nth_map_in _ _ _ C0) by (try apply Nat.mod_upper_bound; lia).
  rewrite (Hsym k Hk). symmetry. apply Cconj_mul.
Qed.

Lemma map_Cpow_2 X : map (fun z => Cpow_finite z 2) X = map (fun z => (z * z)%C) X.
Proof. apply map_ext. intros z. apply Cpow_2. Qed.

(** For every real vector, [power_ssp_finite] at exponent one gives the vector
    back. *)
Lemma power_ssp_1 v : power_ssp_finite v 1 = v.
Proof.
  rewrite power_ssp_dft.
  rewrite (map_ext (fun z => Cpow_finite z 1) (fun z => z)) by apply Cpow_1.
  rewrite map_id, idft_dft. apply map_Re_RtoC.
Qed.

(** For every real vector, [power_ssp_finite] at exponent two is the circular
    self-convolution. *)
Lemma power_ssp_2_circ_conv v : power_ssp_finite v 2 = circ_conv v v.
Proof.
  rewrite power_ssp_dft, map_Cpow_2, <- dft_circ_conv, idft_dft.
  apply map_Re_RtoC.
Qed.

Lemma Cabs_Ci : Cabs Ci = 1.
Proof. rewrite <- cis_PI2. apply Cabs_cis. Qed.

Lemma Rle_bool_refl_tol x : 0 <= x -> Rle_bool (Rabs (0 - 0)) (x + rtol * Rabs 0) = true.
Proof.
  intros Hx. apply Rle_bool_true. replace (0 - 0) with 0 by ring.
  rewrite Rabs_R0. lra.
Qed.

Lemma realness_assertion_real y : real_vector y -> realness_assertion y = true.
Proof.
  intros Hy. unfold realness_assertion. rewrite forallb_forall. intros b Hb.
  apply in_map_iff in Hb. destruct Hb as [z [<- Hz]].
  unfold real_vector in Hy. rewrite Forall_forall in Hy. rewrite (Hy z Hz).
  apply Rle_bool_refl_tol. lra.
Qed.

(** ** The power as the program returns it *)

Lemma pow_defined_nonneg X e : 0 <= e -> pow_defined X e.
Proof. intros H. left. assumption. Qed.

Lemma pow_defined_unit X e : unit_magnitude X -> pow_defined X e.
Proof.
  intros H. right. eapply Forall_impl; [|exact H].
  intros z Hz. apply Cabs_neq_C0. assumption.
Qed.

Lemma power_ssp_nonneg v e :
  0 <= e -> power_ssp v e = Finite (power_ssp_finite v e).
Proof. intros H. apply power_ssp_Finite, pow_defined_nonneg. assumption. Qed.

Lemma power_ssp_valid v e :
  valid_ssp v -> power_ssp v e = Finite (power_ssp_finite v e).
Proof. intros H. apply power_ssp_Finite, pow_defined_unit. assumption. Qed.

Lemma power_ssp_finite_valid v e :
  valid_ssp v ->
  Forall (fun z => ~ negative_real z) (dft (asarray_complex v)) ->
  valid_ssp (power_ssp_finite v e).
Proof.
  intros Hvalid Hnr. unfold valid_ssp, asarray_complex in *.
  rewrite dft_power_ssp
    by (apply Cpow_conj_symmetric; [apply dft_real_conj_symmetric|assumption]).
  apply Forall_map. eapply Forall_impl; [|exact Hvalid].
  intros z Hz. apply Cabs_Cpow_unit. assumption.
Qed.

(** The length of the result, nan or not, is the length of the argument. *)
Lemma power_ssp_flength v e : flength (power_ssp v e) = length v.
Proof.
  unfold power_ssp. rewrite fft_is_dft.
  destruct (array_pow (dft (asarray_complex v)) e) as [X|] eqn:HX; cbn [flength].
  - rewrite length_map, ifft_is_idft, idft_length.
    unfold array_pow in HX. apply sequence_option_length in HX.
    rewrite HX, length_map, dft_length. unfold asarray_complex. apply length_map.
  - rewrite dft_length. unfold asarray_complex. apply length_map.
Qed.

(** On a vector that is not empty, the variant on the library transforms
    returns what [power_ssp] returns. *)
Lemma power_ssp_np_eq (v : list R) (e : R) :
  v <> [] -> power_ssp_np v e = inr (power_ssp v e).
Proof.
  intros Hv. unfold power_ssp_np, power_ssp.
  rewrite fft_is_dft.
  assert (Hne : asarray_complex v <> []) by (destruct v; [congruence|discriminate]).
  rewrite (np_fft_fft_nonempty _ Hne).
  destruct (array_pow (dft (asarray_complex v)) e) as [X|] eqn:HX; [|reflexivity].
  rewrite ifft_is_idft.
  assert (HXne : X <> []).
  { unfold array_pow in HX. apply sequence_option_length in HX.
    rewrite length_map, dft_length in HX. intros ->.
    destruct v; [congruence|discriminate]. }
  rewrite (np_fft_ifft_nonempty _ HXne). reflexivity.
Qed.

Lemma power_ssp_np_empty (e : R) : power_ssp_np [] e = inl ValueError.
Proof. reflexivity. Qed.




(** ** Transforms of length two, in closed form *)


(** * The claims *)

(** ** C7: the custom transforms are the reference transforms *)

(** C7, as stated, fails on the empty array: [custom_fft] and [custom_ifft]
    return it, and the library transforms raise [ValueError]. *)
Lemma library_raises_on_empty :
  custom_fft [] = [] /\ custom_ifft [] = [] /\
  np_fft_fft [] = inl ValueError /\ np_fft_ifft [] = inl ValueError /\
  np_fft_fft [] <> inr (custom_fft []) /\
  np_fft_ifft [] <> inr (custom_ifft []).
Proof.
  split; [apply custom_fft_small; simpl; lia|].
  split; [rewrite custom_ifft_is_idft; reflexivity|].
  split; [reflexivity|]. split; [reflexivity|].
  split; discriminate.
Qed.

(** C7, amended.  For every complex vector [x], [custom_fft x] is the
    discrete Fourier transform of [x] and [custom_ifft x] the inverse
    transform, which is the conjugate of the transform of the conjugate
    divided by the length; and for every [x] that is not empty they are what
    the library transforms return, so that the two backends that
    [USE_CUSTOM_FFT] selects between give the same arrays. *)
Theorem custom_fft_reference (x : list C) :
  custom_fft x = dft x /\
  custom_ifft x = idft x /\
  idft x = map (fun z => Cdiv_real z (INR (length x)))
               (map Cconj (dft (map Cconj x))) /\
  (x <> [] ->
   np_fft_fft x = inr (custom_fft x) /\
   np_fft_ifft x = inr (custom_ifft x) /\
   select_fft false x = inr (select_fft true x) /\
   select_ifft false x = inr (select_ifft true x)).
Proof.
  split; [apply custom_fft_is_dft|].
  split; [apply custom_ifft_is_idft|].
  split.
  - rewrite <- custom_ifft_is_idft. unfold custom_ifft.
    rewrite !custom_conj_map, custom_fft_is_dft. reflexivity.
  - intros Hx. cbn [select_fft select_ifft].
    rewrite custom_fft_is_dft, custom_ifft_is_idft.
    rewrite np_fft_fft_nonempty, np_fft_ifft_nonempty by assumption.
    repeat split; reflexivity.
Qed.

Lemma custom_fft_reference_witness :
  np_fft_fft [C1; Ci; C0] = inr (custom_fft [C1; Ci; C0]) /\
  np_fft_ifft [C1; Ci; C0] = inr (custom_ifft [C1; Ci; C0]) /\
  select_fft false [C1; Ci; C0] = inr (select_fft true [C1; Ci; C0]) /\
  select_ifft false [C1; Ci; C0] = inr (select_ifft true [C1; Ci; C0]).
Proof.
  apply (custom_fft_reference [C1; Ci; C0]). discriminate.
Defined.

(** ** C6: the contract of the fractional power *)




(** ** C4 and C5: exponents one and zero *)

(** C4.  For every real vector [v], valid SSP vectors among them,
    [power_ssp v 1] is [v]. *)
Theorem power_ssp_one (v : list R) : power_ssp v 1 = Finite v.
Proof. rewrite power_ssp_nonneg by lra. f_equal. apply power_ssp_1. Qed.

(** C5.  For every real vector [v] of length [D], valid SSP vectors among
    them, [power_ssp v 0] is the impulse [[1, 0, ..., 0]] of length [D]. *)
Theorem power_ssp_zero (v : list R) : power_ssp v 0 = Finite (impulse (length v)).
Proof.
  rewrite power_ssp_nonneg by lra. f_equal.
  rewrite power_ssp_dft, idft_ones.
  - rewrite length_map, dft_length, length_map. reflexivity.
  - apply Forall_map. apply Forall_forall. intros z _. apply Cpow_0.
Qed.

(** ** C8: the phase bounds *)

(** C8, as stated, fails in its strictness: at [D = 4] with the tolerance
    [1/1000], the sample [0] gives the phase [eps * pi], on the lower bound
    and not strictly inside; the run passes both assertions and returns. *)
Lemma phase_on_the_lower_bound :
  rng_ok rng0 /\
  phases (Z.to_nat 4) (1 / 1000) rng0 = [PI * (1 / 1000)] /\
  Rabs (PI * (1 / 1000)) = PI * (1 / 1000) /\
  ~ Forall (fun p => PI * (1 / 1000) < Rabs p < PI * (1 - 1 / 1000))
           (phases (Z.to_nat 4) (1 / 1000) rng0) /\
  exists v, make_good_unitary 4 (1 / 1000) rng0 = inr v.
Proof.
  pose proof PI_RGT_0 as Hpi.
  assert (Hphi : phases (Z.to_nat 4) (1 / 1000) rng0 = [PI * (1 / 1000)]).
  { change (Z.to_nat 4) with 4%nat. unfold phases, rng0, constant_rng. cbn.
    f_equal. field. }
  assert (Habs : Rabs (PI * (1 / 1000)) = PI * (1 / 1000))
    by (apply Rabs_right; lra).
  split; [apply rng0_ok|]. split; [exact Hphi|]. split; [exact Habs|].
  split.
  - rewrite Hphi. intros H. inversion H as [|p l [Hlt _] _]; subst.
    rewrite Habs in Hlt. lra.
  - eexists. apply make_good_unitary_returns; [apply rng0_ok|lia|lra].
Qed.

(** C8, amended.  For every [D], every tolerance in [[0, 1/2]] and every
    generator, each phase magnitude lies in the closed interval
    [[eps * pi, (1 - eps) * pi]], below its upper bound when the tolerance is
    below [1/2], and the run stops at neither of the two assertions on the
    phases. *)
Theorem phase_assertions_hold (D : Z) (eps : R) (rng : RandomState) :
  rng_ok rng -> 0 <= eps <= 1 / 2 ->
  Forall (fun p => PI * eps <= Rabs p <= PI * (1 - eps))
         (phases (Z.to_nat D) eps rng) /\
  (eps < 1 / 2 ->
   Forall (fun p => Rabs p < PI * (1 - eps)) (phases (Z.to_nat D) eps rng)) /\
  make_good_unitary D eps rng <> inl AssertPhaseLower /\
  make_good_unitary D eps rng <> inl AssertPhaseUpper.
Proof.
  intros Hrng Heps. split; [apply phases_bounds; assumption|].
  split.
  { intros Hlt. eapply Forall_impl; [|apply phases_shape; assumption].
    intros p [a [Ha ->]]. pose proof PI_RGT_0 as Hpi.
    assert (Hlo : 0 <= a * (1 - 2 * eps)) by (apply Rmult_le_pos; lra).
    assert (Hhi : 0 < (1 - a) * (1 - 2 * eps)) by (apply Rmult_lt_0_compat; lra).
    rewrite Rabs_right by lra.
    apply Rmult_lt_compat_l; lra. }
  destruct (Z.leb_spec D 0) as [Hle|Hlt].
  - unfold make_good_unitary. destruct (Z.leb_spec D 0); [|lia].
    split; discriminate.
  - rewrite make_good_unitary_returns by assumption. split; discriminate.
Qed.

Lemma phase_assertions_hold_witness :
  Forall (fun p => PI * (1 / 1000) <= Rabs p <= PI * (1 - 1 / 1000))
         (phases (Z.to_nat 4) (1 / 1000) rng4) /\
  (1 / 1000 < 1 / 2 ->
   Forall (fun p => Rabs p < PI * (1 - 1 / 1000))
          (phases (Z.to_nat 4) (1 / 1000) rng4)) /\
  make_good_unitary 4 (1 / 1000) rng4 <> inl AssertPhaseLower /\
  make_good_unitary 4 (1 / 1000) rng4 <> inl AssertPhaseUpper.
Proof.
  apply (phase_assertions_hold 4 (1 / 1000) rng4).
  - apply rng4_ok.
  - lra.
Defined.

(** ** C2: length and norm of the constructed vector *)

(** C2, as stated, fails: at [D = 3] with the tolerance [3/5], the sample
    [1/2] gives the phase [pi / 2], below [eps * pi], and the run stops at
    the first assertion. *)
Lemma make_good_unitary_rejects_eps :
  rng_ok rng4 /\ make_good_unitary 3 (3 / 5) rng4 = inl AssertPhaseLower.
Proof.
  split; [apply rng4_ok|].
  rewrite make_good_unitary_outcome by (try apply rng4_ok; lia).
  change (Z.to_nat 3) with 3%nat. cbv zeta.
  assert (Hphi : phases 3 (3 / 5) rng4 = [PI / 2]).
  { unfold phases, rng4, constant_rng. cbn. f_equal. field. }
  rewrite Hphi. unfold phase_lower_ok. cbn [forallb].
  pose proof PI_RGT_0 as Hpi.
  rewrite Rle_bool_false; [reflexivity|].
  rewrite Rabs_right by lra. lra.
Qed.

(** C2, amended.  For every integer [D >= 2], every tolerance in
    [[0, 1/2]] and every generator, [make_good_unitary] returns a real vector
    of length [D] and Euclidean norm one, so within [1e-5] of one. *)
Theorem make_good_unitary_length_norm (D : Z) (eps : R) (rng : RandomState) :
  (2 <= D)%Z -> 0 <= eps <= 1 / 2 -> rng_ok rng ->
  exists v, make_good_unitary D eps rng = inr v /\
            length v = Z.to_nat D /\
            norm v = 1 /\
            Rabs (norm v - 1) <= 1 / 100000.
Proof.
  intros HD Heps Hrng.
  assert (Hret := make_good_unitary_returns D eps rng Hrng ltac:(lia) Heps).
  eexists. split; [exact Hret|].
  pose proof (returned_norm D eps rng _ Hrng Hret) as Hnorm.
  split; [apply (returned_length D eps rng _ Hrng Hret)|].
  split; [exact Hnorm|].
  rewrite Hnorm. replace (1 - 1) with 0 by ring. rewrite Rabs_R0. lra.
Qed.

Lemma make_good_unitary_length_norm_witness :
  exists v, make_good_unitary 8 (1 / 1000) rng4 = inr v /\
            length v = Z.to_nat 8 /\
            norm v = 1 /\
            Rabs (norm v - 1) <= 1 / 100000.
Proof.
  apply (make_good_unitary_length_norm 8 (1 / 1000) rng4).
  - lia.
  - lra.
  - apply rng4_ok.
Defined.

(** ** C3: the spectrum of the constructed vector *)

(** C3.  For every [D], every tolerance and every generator, the transform
    of a vector that [make_good_unitary] returns has magnitude one, so within
    [1e-5] of one, at every bin; and for [D >= 1] and a tolerance in
    [[0, 1/2]] a vector is returned. *)
Theorem make_good_unitary_unit_spectrum (D : Z) (eps : R) (rng : RandomState) :
  rng_ok rng ->
  (forall v, make_good_unitary D eps rng = inr v ->
     unit_magnitude (dft (asarray_complex v)) /\
     Forall (fun z => Rabs (Cabs z - 1) <= 1 / 100000) (fft (asarray_complex v))) /\
  ((1 <= D)%Z -> 0 <= eps <= 1 / 2 -> exists v, make_good_unitary D eps rng = inr v).
Proof.
  intros Hrng. split.
  - intros v Hret.
    pose proof (returned_unit D eps rng v Hrng Hret) as Hunit.
    split; [exact Hunit|].
    rewrite fft_is_dft. eapply Forall_impl; [|exact Hunit].
    intros z Hz. cbv beta in Hz. rewrite Hz.
    replace (1 - 1) with 0 by ring. rewrite Rabs_R0. lra.
  - intros HD Heps. eexists. apply make_good_unitary_returns; [assumption|lia|assumption].
Qed.

Lemma make_good_unitary_unit_spectrum_witness :
  unit_magnitude (dft (asarray_complex v4)) /\
  Forall (fun z => Rabs (Cabs z - 1) <= 1 / 100000) (fft (asarray_complex v4)).
Proof.
  destruct (make_good_unitary_unit_spectrum 4 (1 / 1000) rng4 rng4_ok) as [Hunit _].
  apply Hunit. apply make_good_unitary_4. lra.
Defined.

(** ** C1: the power composition law *)

Lemma valid_ssp_v4 : valid_ssp v4.
Proof.
  unfold valid_ssp, unit_magnitude, asarray_complex. rewrite dft_v4.
  repeat constructor.
  - apply Cabs_C1.
  - apply Cabs_Ci.
  - apply Cabs_C1.
  - rewrite Cabs_opp. apply Cabs_Ci.
Qed.

Lemma Carg_Ci : Carg Ci = PI / 2.
Proof.
  unfold Carg, atan2, Ci, Re, Im. simpl.
  destruct (Rlt_dec 0 0) as [H|_]; [lra|].
  destruct (Rlt_dec 0 1) as [_|H]; [reflexivity|lra].
Qed.

Lemma Carg_minus_Ci : Carg (- Ci)%C = - (PI / 2).
Proof.
  unfold Carg, atan2, Copp, Ci, Re, Im. simpl.
  destruct (Rlt_dec 0 (- 0)) as [H|_]; [lra|].
  destruct (Rlt_dec (- 0) 0) as [H|_]; [lra|].
  destruct (Rlt_dec 0 (- (1))) as [H|_]; [lra|].
  destruct (Rlt_dec (- (1)) 0) as [_|H]; [reflexivity|lra].
Qed.

Lemma cis_3PI2 : cis (3 * (PI / 2)) = (- Ci)%C.
Proof.
  unfold cis. rewrite cos_3PI2, sin_3PI2. apply C_eq; csimpl; ring.
Qed.

Lemma Cpow_Ci_3 : Cpow_finite Ci 3 = (- Ci)%C.
Proof. rewrite Cpow_unit by apply Cabs_Ci. rewrite Carg_Ci. apply cis_3PI2. Qed.

Lemma Cpow_minus_Ci_3 : Cpow_finite (- Ci)%C 3 = Ci.
Proof.
  rewrite Cpow_unit by (rewrite Cabs_opp; apply Cabs_Ci).
  rewrite Carg_minus_Ci.
  replace (3 * - (PI / 2)) with (- (3 * (PI / 2))) by ring.
  rewrite <- Cconj_cis, cis_3PI2. apply C_eq; unfold Cconj; csimpl; ring.
Qed.

Lemma Cpow_Ci_third : Cpow_finite Ci (1 / 3) = cis (PI / 6).
Proof.
  rewrite Cpow_unit by apply Cabs_Ci. rewrite Carg_Ci.
  apply cis_congr. field.
Qed.

Lemma Cpow_minus_Ci_third : Cpow_finite (- Ci)%C (1 / 3) = cis (- (PI / 6)).
Proof.
  rewrite Cpow_unit by (rewrite Cabs_opp; apply Cabs_Ci).
  rewrite Carg_minus_Ci. apply cis_congr. field.
Qed.

(** The cube of the spectrum [[1, i, 1, -i]] is [[1, -i, 1, i]], the
    spectrum of the mirrored vector. *)
Lemma power_ssp_v4_3 : power_ssp_finite v4 3 = [1 / 2; 1 / 2; 1 / 2; - (1 / 2)].
Proof.
  rewrite power_ssp_dft, dft_v4. cbn [map].
  rewrite Cpow_C1, Cpow_Ci_3, Cpow_minus_Ci_3, idft_4.
  cbn [map]. repeat (apply f_equal2; [csimpl; field|]). reflexivity.
Qed.

Lemma dft_v4_mirror :
  dft (map RtoC [1 / 2; 1 / 2; 1 / 2; - (1 / 2)]) = [C1; (- Ci)%C; C1; Ci].
Proof.
  cbn [map]. rewrite dft_4.
  repeat (apply f_equal2; [apply C_eq; csimpl; field|]). reflexivity.
Qed.

(** C1, as stated, fails: for the vector [[1/2, -1/2, 1/2, 1/2]] that
    [make_good_unitary 4] returns, with [a = 3] and [b = 1/3],
    [power_ssp v a] is [[1/2, 1/2, 1/2, -1/2]], entry one of its power [b]
    is [1/4], and [power_ssp v (a * b)] is [v], with [-1/2] at entry one.
    The cube takes the phase [pi / 2] of bin one to [3 pi / 2], which the
    principal phase reads as [- pi / 2], and the cube root gives
    [- pi / 6]. *)
Lemma power_composition_fails :
  make_good_unitary 4 (1 / 1000) rng4 = inr v4 /\
  valid_ssp v4 /\
  power_ssp v4 3 = Finite [1 / 2; 1 / 2; 1 / 2; - (1 / 2)] /\
  (exists q, power_ssp [1 / 2; 1 / 2; 1 / 2; - (1 / 2)] (1 / 3) = Finite q /\
             nth 1 q 0 = 1 / 4) /\
  power_ssp v4 (3 * (1 / 3)) = Finite v4 /\
  nth 1 v4 0 = - (1 / 2).
Proof.
  split; [apply make_good_unitary_4; lra|].
  split; [apply valid_ssp_v4|].
  split; [rewrite power_ssp_nonneg by lra; f_equal; apply power_ssp_v4_3|].
  split.
  - eexists. split; [apply power_ssp_nonneg; lra|].
    rewrite power_ssp_dft, dft_v4_mirror. cbn [map].
    rewrite !Cpow_C1, Cpow_minus_Ci_third, Cpow_Ci_third, idft_4. cbn [map nth].
    unfold cis. rewrite cos_neg, sin_neg, sin_PI6. csimpl. field.
  - split; [|reflexivity].
    replace (3 * (1 / 3)) with 1 by field.
    rewrite power_ssp_nonneg by lra. f_equal. apply power_ssp_1.
Qed.

(** C1, amended.  For every real [a] in [[-1, 1]] and every real [b],
    [power_ssp v a] is a vector of numbers [p], and [power_ssp p b] is the
    vector of numbers that [power_ssp v (a * b)] is, for every valid SSP
    vector [v] whose spectrum has no bin on the negative real axis, and so
    for every vector that [make_good_unitary] returns with a tolerance that
    is not negative. *)
Theorem power_composition (v : list R) (a b : R) :
  -1 <= a <= 1 ->
  (valid_ssp v ->
   Forall (fun z => ~ negative_real z) (dft (asarray_complex v)) ->
   exists p q, power_ssp v a = Finite p /\
               power_ssp p b = Finite q /\
               power_ssp v (a * b) = Finite q) /\
  (forall D eps rng,
     rng_ok rng -> 0 <= eps -> make_good_unitary D eps rng = inr v ->
     exists p q, power_ssp v a = Finite p /\
                 power_ssp p b = Finite q /\
                 power_ssp v (a * b) = Finite q).
Proof.
  intros Ha.
  assert (H : valid_ssp v ->
              Forall (fun z => ~ negative_real z) (dft (asarray_complex v)) ->
              exists p q, power_ssp v a = Finite p /\
                          power_ssp p b = Finite q /\
                          power_ssp v (a * b) = Finite q).
  { intros Hvalid Hnr.
    exists (power_ssp_finite v a), (power_ssp_finite v (a * b)).
    split; [apply power_ssp_valid; assumption|].
    split; [|apply power_ssp_valid; assumption].
    rewrite power_ssp_valid by (apply power_ssp_finite_valid; assumption).
    f_equal. apply power_ssp_compose; assumption. }
  split; [exact H|].
  intros D eps rng Hrng Heps Hret. apply H.
  - apply (returned_unit D eps rng v Hrng Hret).
  - apply (returned_not_negative_real D eps rng v Hrng Hret Heps).
Qed.

Lemma power_composition_witness :
  exists p q, power_ssp v4 (1 / 2) = Finite p /\
              power_ssp p 3 = Finite q /\
              power_ssp v4 (1 / 2 * 3) = Finite q.
Proof.
  destruct (power_composition v4 (1 / 2) 3 ltac:(lra)) as [_ Hret].
  apply (Hret 4%Z (1 / 1000) rng4).
  - apply rng4_ok.
  - lra.
  - apply make_good_unitary_4. lra.
Defined.

(** ** C9: the square as a self-convolution *)

Lemma norm_v4 : norm v4 = 1.
Proof.
  apply (returned_norm 4 (1 / 1000) rng4 v4 rng4_ok).
  apply make_good_unitary_4. lra.
Qed.

Lemma returned_norm_sq D eps rng v :
  rng_ok rng -> make_good_unitary D eps rng = inr v -> norm (power_ssp_finite v 2) = 1.
Proof.
  intros Hrng Hret.
  rewrite power_ssp_dft, map_Cpow_2, (returned_dft D eps rng v Hrng Hret).
  pose proof (returned_pos D eps rng v Hrng Hret) as Hpos.
  pose proof (returned_phi_length D eps rng Hrng) as Hphi.
  apply norm_idft_unit.
  - rewrite length_map, target_spectrum_length. assumption.
  - apply conj_symmetric_sq, target_spectrum_conj_symmetric; assumption.
  - apply unit_magnitude_sq, target_spectrum_unit; assumption.
Qed.

Lemma power_ssp_2 v : power_ssp v 2 = Finite (circ_conv v v).
Proof. rewrite power_ssp_nonneg by lra. f_equal. apply power_ssp_2_circ_conv. Qed.

(** C9, as stated, fails in its last part: for the vector that
    [make_good_unitary 4] returns, the norm at exponent two is the norm of
    the vector itself; the energy is conserved. *)
Lemma energy_conserved_at_two :
  make_good_unitary 4 (1 / 1000) rng4 = inr v4 /\
  power_ssp v4 2 = Finite (circ_conv v4 v4) /\
  norm (circ_conv v4 v4) = norm v4.
Proof.
  assert (Hret : make_good_unitary 4 (1 / 1000) rng4 = inr v4)
    by (apply make_good_unitary_4; lra).
  split; [exact Hret|]. split; [apply power_ssp_2|].
  rewrite norm_v4, <- power_ssp_2_circ_conv.
  apply (returned_norm_sq 4 (1 / 1000) rng4 v4 rng4_ok Hret).
Qed.

(** C9, amended.  For every vector [v] that [make_good_unitary] returns,
    [power_ssp v 2] is the circular self-convolution of [v] and has
    Euclidean norm one, hence at most one: the norm of [v] is kept. *)
Theorem power_ssp_two_self_convolution
        (D : Z) (eps : R) (rng : RandomState) (v : list R) :
  rng_ok rng -> make_good_unitary D eps rng = inr v ->
  power_ssp v 2 = Finite (circ_conv v v) /\
  norm (circ_conv v v) <= 1 /\
  norm (circ_conv v v) = norm v.
Proof.
  intros Hrng Hret.
  pose proof (returned_norm_sq D eps rng v Hrng Hret) as Hsq.
  rewrite power_ssp_2_circ_conv in Hsq.
  split; [apply power_ssp_2|].
  split; [rewrite Hsq; lra|].
  rewrite Hsq. symmetry. apply (returned_norm D eps rng v Hrng Hret).
Qed.

Lemma power_ssp_two_self_convolution_witness :
  exists v, make_good_unitary 8 (1 / 1000) rng4 = inr v /\
            power_ssp v 2 = Finite (circ_conv v v) /\
            norm (circ_conv v v) <= 1 /\
            norm (circ_conv v v) = norm v.
Proof.
  assert (Hret := make_good_unitary_returns 8 (1 / 1000) rng4 rng4_ok
                    ltac:(lia) ltac:(lra)).
  eexists. split; [exact Hret|].
  apply (power_ssp_two_self_convolution 8 (1 / 1000) rng4 _ rng4_ok Hret).
Defined.

(** ** C10: the powered spectrum stays conjugate-symmetric *)

(** C10.  For every vector [v] that [make_good_unitary] returns with a
    tolerance that is not negative, or with any tolerance when no bin of its
    spectrum lies on the negative real axis, and for every real exponent
    [e], the elementwise power of the spectrum of [v] is an array of numbers
    that is conjugate-symmetric, with real bins at [0] and, for even [D], at
    [D / 2]; the inverse transform inside [power_ssp] is real, so that its
    real part, which [power_ssp] returns, is the whole of it; and the inverse
    transform of the target spectrum inside [make_good_unitary], of which
    [v] is the real part, is real and passes the assertion that the source
    leaves disabled. *)
Theorem powered_spectrum_conj_symmetric
        (D : Z) (eps : R) (rng : RandomState) (v : list R) (e : R) :
  rng_ok rng ->
  0 <= eps \/ Forall (fun z => ~ negative_real z) (fft (asarray_complex v)) ->
  make_good_unitary D eps rng = inr v ->
  let fv := target_spectrum (Z.to_nat D) (phases (Z.to_nat D) eps rng) in
  exists X,
    array_pow (fft (asarray_complex v)) e = Some X /\
    conj_symmetric X /\
    Im (nth 0 X C0) = 0 /\
    (Z.even D = true -> Im (nth (Z.to_nat D / 2) X C0) = 0) /\
    real_vector (ifft X) /\
    (exists p, power_ssp v e = Finite p /\ map RtoC p = ifft X) /\
    real_vector (ifft fv) /\
    realness_assertion (ifft fv) = true /\
    v = map Re (ifft fv).
Proof.
  intros Hrng Heps Hret fv.
  pose proof (returned_pos D eps rng v Hrng Hret) as Hpos.
  pose proof (returned_length D eps rng v Hrng Hret) as Hlen.
  pose proof (returned_unit D eps rng v Hrng Hret) as Hunit.
  set (X := map (fun z => Cpow_finite z e) (fft (asarray_complex v))).
  assert (Hpow : array_pow (fft (asarray_complex v)) e = Some X).
  { apply array_pow_Some. rewrite fft_is_dft. apply pow_defined_unit. exact Hunit. }
  assert (HlenX : length X = Z.to_nat D).
  { unfold X, asarray_complex. rewrite length_map, fft_is_dft, dft_length, length_map.
    exact Hlen. }
  assert (Hsym : conj_symmetric X).
  { unfold X, asarray_complex. rewrite fft_is_dft.
    apply Cpow_conj_symmetric; [apply dft_real_conj_symmetric|].
    destruct Heps as [Heps|Hnr].
    - apply (returned_not_negative_real D eps rng v Hrng Hret Heps).
    - rewrite fft_is_dft in Hnr. exact Hnr. }
  assert (Hreal : real_vector (ifft X)).
  { rewrite ifft_is_idft. apply idft_real. exact Hsym. }
  assert (Hfv : real_vector (ifft fv)).
  { rewrite ifft_is_idft. apply idft_real.
    apply target_spectrum_conj_symmetric; [exact Hpos|].
    apply phases_length. exact Hrng. }
  exists X.
  split; [exact Hpow|].
  split; [exact Hsym|].
  split.
  { apply Cconj_fixed_real. rewrite <- (Hsym 0%nat) by lia.
    rewrite Nat.sub_0_r, Nat.Div0.mod_same. reflexivity. }
  split.
  { intros Heven. apply Cconj_fixed_real.
    assert (Hhalf : (Z.to_nat D / 2 < length X)%nat)
      by (rewrite HlenX; apply Nat.div_lt; lia).
    rewrite <- (Hsym _ Hhalf). f_equal. rewrite HlenX.
    assert (Hd : (Z.to_nat D = 2 * (Z.to_nat D / 2))%nat).
    { apply Z.even_spec in Heven. destruct Heven as [m Hm].
      assert (Hn : Z.to_nat D = (2 * Z.to_nat m)%nat) by lia.
      rewrite Hn, (Nat.mul_comm 2 (Z.to_nat m)), Nat.div_mul by lia. lia. }
    rewrite Nat.mod_small by lia. lia. }
  split; [exact Hreal|].
  split.
  { exists (map Re (ifft X)). split.
    - unfold power_ssp. rewrite Hpow. reflexivity.
    - apply real_vector_RtoC_Re. exact Hreal. }
  split; [exact Hfv|].
  split; [apply realness_assertion_real; exact Hfv|].
  rewrite ifft_is_idft. apply (returned_eq D eps rng v Hrng Hret).
Qed.

Lemma powered_spectrum_conj_symmetric_witness :
  let fv := target_spectrum (Z.to_nat 4) (phases (Z.to_nat 4) (1 / 1000) rng4) in
  exists X,
    array_pow (fft (asarray_complex v4)) (1 / 3) = Some X /\
    conj_symmetric X /\
    Im (nth 0 X C0) = 0 /\
    (Z.even 4 = true -> Im (nth (Z.to_nat 4 / 2) X C0) = 0) /\
    real_vector (ifft X) /\
    (exists p, power_ssp v4 (1 / 3) = Finite p /\ map RtoC p = ifft X) /\
    real_vector (ifft fv) /\
    realness_assertion (ifft fv) = true /\
    v4 = map Re (ifft fv).
Proof.
  apply (powered_spectrum_conj_symmetric 4 (1 / 1000) rng4 v4 (1 / 3)).
  - apply rng4_ok.
  - left. lra.
  - apply make_good_unitary_4. lra.
Defined.

(** * Further properties of the code *)

(** ** The transforms *)

Lemma custom_conj_twice (x : list C) : custom_conj (custom_conj x) = x.
Proof.
  rewrite !custom_conj_map, map_map.
  rewrite (map_ext _ (fun z => z)) by apply Cconj_involutive.
  apply map_id.
Qed.

Lemma custom_fft_length (x : list C) : length (custom_fft x) = length x.
Proof. rewrite custom_fft_is_dft. apply dft_length. Qed.

Lemma custom_ifft_length (x : list C) : length (custom_ifft x) = length x.
Proof. rewrite custom_ifft_is_idft. apply idft_length. Qed.

Lemma zip_with_nth_in {A B D} (f : A -> B -> D) l m i da db dd :
  (i < length l)%nat -> (i < length m)%nat ->
  nth i (zip_with f l m) dd = f (nth i l da) (nth i m db).
Proof. apply zip_with_nth. Qed.

(** The transform is linear. *)
Lemma dft_linear (c : C) (x y : list C) :
  length x = length y ->
  dft (zip_with Cadd (map (Cmul c) x) y)
  = zip_with Cadd (map (Cmul c) (dft x)) (dft y).
Proof.
  intros Hlen.
  assert (Hl : length (zip_with Cadd (map (Cmul c) x) y) = length x).
  { rewrite zip_with_length, length_map, Hlen. apply Nat.min_id. }
  apply (nth_ext _ _ C0 C0).
  { rewrite dft_length, Hl, zip_with_length, length_map, !dft_length, Hlen.
    symmetry. apply Nat.min_id. }
  intros k Hk. rewrite dft_length, Hl in Hk.
  rewrite dft_nth by (rewrite Hl; assumption).
  rewrite (zip_with_nth _ _ _ _ C0 C0)
    by (rewrite ?length_map, dft_length; lia).
  rewrite (nth_map_in _ _ _ C0) by (rewrite dft_length; assumption).
  rewrite !dft_nth by lia.
  unfold dft_coef. rewrite Hl, <- Hlen, <- Csum_mul_l, <- Csum_add.
  apply Csum_ext. intros n Hn.
  rewrite (zip_with_nth _ _ _ _ C0 C0) by (rewrite ?length_map; lia).
  rewrite (nth_map_in _ _ _ C0) by assumption.
  cring.
Qed.

(** Bin zero of the transform is the sum of the entries. *)
Lemma dft_coef_0 (x : list C) : dft_coef x 0 = Csum (length x) (fun n => nth n x C0).
Proof.
  unfold dft_coef. apply Csum_ext. intros n _.
  replace (- (2 * PI * INR 0 * INR n / INR (length x))) with 0
    by (simpl; unfold Rdiv; ring).
  rewrite cis_0. apply Cmul_1_r.
Qed.

(** Plancherel's identity for two spectra of one length. *)
Lemma plancherel_idft (X Y : list C) :
  length X = length Y ->
  Csum (length X) (fun n => (nth n (idft X) C0 * Cconj (nth n (idft Y) C0))%C)
  = Cdiv_real (Csum (length X) (fun k => (nth k X C0 * Cconj (nth k Y C0))%C))
              (INR (length X)).
Proof.
  intros Hlen. set (N := length X).
  rewrite (Csum_ext _ _
    (fun n => Cdiv_real (Csum N (fun k =>
       (Cconj (nth k Y C0) * (nth n (idft X) C0
                              * cis (- (2 * PI * INR k * INR n / INR N))))%C)) (INR N))).
  2:{ intros n Hn. rewrite (idft_nth Y n) by (rewrite <- Hlen; assumption).
      unfold idft_coef. rewrite <- Hlen. fold N.
      rewrite Cconj_div_real, Cmul_comm, Cdiv_real_mul_l. f_equal.
      rewrite Cconj_sum, <- Csum_mul_r. apply Csum_ext. intros k _.
      rewrite Cconj_mul, Cconj_cis. cring. }
  rewrite Cdiv_real_sum, Csum_swap. f_equal.
  apply Csum_ext. intros k Hk.
  rewrite Csum_mul_l, (Cmul_comm (nth k X C0)). f_equal.
  pose proof (dft_idft X) as Hinv.
  apply (f_equal (fun l => nth k l C0)) in Hinv.
  rewrite dft_nth in Hinv by (rewrite idft_length; assumption).
  rewrite <- Hinv. unfold dft_coef. rewrite idft_length. fold N.
  apply Csum_ext. intros n _. reflexivity.
Qed.

(** The transform of the circular convolution of two real vectors of one
    length is the product of their transforms. *)
Lemma dft_circ_conv_general (v w : list R) :
  length w = length v ->
  dft (map RtoC (circ_conv v w))
  = zip_with Cmul (dft (map RtoC v)) (dft (map RtoC w)).
Proof.
  intros Hvw. set (D := length v).
  assert (HlenV : length (map RtoC v) = D) by apply length_map.
  assert (HlenW : length (map RtoC w) = D) by (rewrite length_map; exact Hvw).
  assert (HlenC : length (map RtoC (circ_conv v w)) = D)
    by (rewrite length_map; apply circ_conv_length).
  apply (nth_ext _ _ C0 C0).
  { rewrite zip_with_length, !dft_length, HlenV, HlenW, HlenC.
    symmetry. apply Nat.min_id. }
  intros k Hk. rewrite dft_length, HlenC in Hk.
  assert (HD : (0 < D)%nat) by lia.
  rewrite dft_nth by (rewrite HlenC; assumption).
  rewrite (zip_with_nth _ _ _ _ C0 C0) by (rewrite dft_length; lia).
  rewrite !dft_nth by lia.
  unfold dft_coef. rewrite HlenV, HlenW, HlenC.
  set (t := fun j => cis (- (2 * PI * INR k * INR j / INR D))).
  set (x := fun j => nth j (map RtoC v) C0).
  set (y := fun j => nth j (map RtoC w) C0).
  change (Csum D (fun n => (nth n (map RtoC (circ_conv v w)) C0 * t n)%C)
          = (Csum D (fun n => (x n * t n)%C) * Csum D (fun n => (y n * t n)%C))%C).
  rewrite (Csum_ext _ _
    (fun n => Csum D (fun m => ((x m * t m) * (y ((n + (D - m)) mod D)%nat
                                               * t ((n + (D - m)) mod D)%nat))%C))).
  2:{ intros n Hn. rewrite nth_map_RtoC, circ_conv_nth by assumption.
      fold D. rewrite RtoC_Rsum, <- Csum_mul_r. apply Csum_ext. intros m Hm.
      unfold x, y. rewrite !nth_map_RtoC.
      replace (n + D - m)%nat with (n + (D - m))%nat by lia.
      assert (Ht : t n = (t m * t ((n + (D - m)) mod D)%nat)%C).
      { unfold t. rewrite <- cis_add.
        transitivity (cis (- (2 * PI * INR k * INR (m + (n + (D - m)) mod D) / INR D))).
        - rewrite <- (cis_index_mod D k (m + (n + (D - m)) mod D) HD).
          replace ((m + (n + (D - m)) mod D) mod D)%nat with n; [reflexivity|].
          rewrite Nat.Div0.add_mod_idemp_r.
          replace (m + (n + (D - m)))%nat with (n + 1 * D)%nat by lia.
          rewrite Nat.Div0.mod_add. symmetry. apply Nat.mod_small. assumption.
        - apply cis_congr. rewrite plus_INR. field. apply not_0_INR. lia. }
      rewrite Ht. apply C_eq; csimpl; ring. }
  rewrite Csum_swap.
  rewrite <- Csum_mul_r. apply Csum_ext. intros m Hm.
  rewrite Csum_mul_l. f_equal.
  apply (Csum_rotate D (fun j => (y j * t j)%C) (D - m)).
Qed.

(** In the radix-2 branch the three arrays that are combined elementwise
    have one length, half the length of the input. *)
Lemma radix2_lengths (x : list C) :
  (1 < length x)%nat -> Nat.land (length x) (length x - 1) = 0%nat ->
  length (custom_fft (stride2 x)) = (length x / 2)%nat /\
  length (custom_fft (stride2 (tl x))) = (length x / 2)%nat /\
  length (twiddles (length x)) = (length x / 2)%nat.
Proof.
  intros Hbig Hpow.
  destruct (land_pred_even _ Hbig Hpow) as [m [Hlen Hm]].
  destruct (stride2_even_length x m Hlen) as [He Ho].
  rewrite !custom_fft_length, twiddles_length, He, Ho.
  assert (Hhalf : (length x / 2 = m)%nat).
  { rewrite Hlen, Nat.mul_comm. apply Nat.div_mul. lia. }
  rewrite Hhalf. repeat split; reflexivity.
Qed.

(** ** Powers of a proper SSP vector *)

Lemma power_ssp_length (v : list R) (e : R) : length (power_ssp_finite v e) = length v.
Proof.
  rewrite power_ssp_dft, length_map, idft_length, length_map, dft_length.
  apply length_map.
Qed.

Lemma power_ssp_0 (v : list R) : power_ssp_finite v 0 = impulse (length v).
Proof.
  rewrite power_ssp_dft, idft_ones.
  - rewrite length_map, dft_length, length_map. reflexivity.
  - apply Forall_map. apply Forall_forall. intros z _. apply Cpow_0.
Qed.

Lemma dft_inj (x y : list C) : dft x = dft y -> x = y.
Proof. intros H. rewrite <- (idft_dft x), <- (idft_dft y), H. reflexivity. Qed.

Lemma map_RtoC_inj (u w : list R) : map RtoC u = map RtoC w -> u = w.
Proof.
  intros H. rewrite <- (map_Re_RtoC u), <- (map_Re_RtoC w), H. reflexivity.
Qed.

Lemma zip_with_map_same {A B D E} (f : B -> D -> E) (g : A -> B) (h : A -> D) l :
  zip_with f (map g l) (map h l) = map (fun z => f (g z) (h z)) l.
Proof. induction l as [|a l IH]; simpl; [reflexivity|]. rewrite IH. reflexivity. Qed.

(** On the unit circle the power is additive in the exponent. *)
Lemma Cpow_add_unit z a b :
  Cabs z = 1 -> Cpow_finite z (a + b) = (Cpow_finite z a * Cpow_finite z b)%C.
Proof.
  intros H. rewrite !Cpow_unit by assumption. rewrite <- cis_add.
  apply cis_congr. ring.
Qed.

(** On the unit circle the power [-1] is the conjugate. *)
Lemma Cpow_neg1_unit z : Cabs z = 1 -> Cpow_finite z (-1) = Cconj z.
Proof.
  intros H. rewrite Cpow_unit by assumption.
  replace (-1 * Carg z) with (- Carg z) by ring.
  rewrite <- Cconj_cis, unit_polar by assumption. reflexivity.
Qed.

(** The inverse transform of the conjugate spectrum is the conjugate of the
    inverse transform read backwards. *)
Lemma idft_coef_conj (X : list C) n :
  (n < length X)%nat ->
  idft_coef (map Cconj X) n = Cconj (idft_coef X ((length X - n) mod length X)).
Proof.
  intros Hn. unfold idft_coef. rewrite length_map, Cconj_div_real. f_equal.
  rewrite Cconj_sum. apply Csum_ext. intros k Hk.
  rewrite nth_map_Cconj, Cconj_mul. f_equal.
  replace (2 * PI * INR k * INR ((length X - n) mod length X) / INR (length X))
    with (2 * PI * INR ((length X - n) mod length X) * INR k / INR (length X))
    by (unfold Rdiv; ring).
  rewrite cis_reflect by assumption. rewrite Cconj_cis, Ropp_involutive.
  apply cis_congr. unfold Rdiv. ring.
Qed.

Lemma reflect_length v : length (reflect v) = length v.
Proof. unfold reflect. rewrite length_map, length_seq. reflexivity. Qed.

Lemma reflect_nth v n :
  (n < length v)%nat -> nth n (reflect v) 0 = nth ((length v - n) mod length v) v 0.
Proof.
  intros Hn. unfold reflect.
  rewrite (nth_map_in _ _ _ 0%nat) by (rewrite length_seq; assumption).
  rewrite seq_nth by assumption. reflexivity.
Qed.

Lemma power_ssp_neg1_reflect (v : list R) :
  valid_ssp v -> power_ssp_finite v (-1) = reflect v.
Proof.
  intros Hvalid. unfold valid_ssp, unit_magnitude, asarray_complex in Hvalid.
  rewrite power_ssp_dft.
  rewrite (map_ext_in (fun z => Cpow_finite z (-1)) Cconj).
  2:{ intros z Hz. apply Cpow_neg1_unit. rewrite Forall_forall in Hvalid. auto. }
  assert (Hlen : length (dft (map RtoC v)) = length v)
    by (rewrite dft_length; apply length_map).
  apply (nth_ext _ _ 0 0).
  { rewrite length_map, idft_length, length_map, Hlen, reflect_length. reflexivity. }
  intros n Hn. rewrite length_map, idft_length, length_map, Hlen in Hn.
  rewrite (nth_map_in _ _ _ C0) by (rewrite idft_length, length_map, Hlen; assumption).
  rewrite idft_nth by (rewrite length_map, Hlen; assumption).
  rewrite idft_coef_conj by (rewrite Hlen; assumption).
  rewrite Hlen, reflect_nth by assumption.
  assert (Hn' : ((length v - n) mod length v < length v)%nat)
    by (apply Nat.mod_upper_bound; lia).
  rewrite <- idft_nth by (rewrite Hlen; assumption).
  rewrite idft_dft, nth_map_RtoC. reflexivity.
Qed.

Section Proper.

Variable v : list R.
Hypothesis Hv : proper_ssp v.

Let X := dft (map RtoC v).

Lemma proper_length_pos : (0 < length v)%nat.
Proof. destruct Hv as [Hne _]. destruct v; [contradiction|simpl; lia]. Qed.

Lemma proper_X_length : length X = length v.
Proof. unfold X. rewrite dft_length. apply length_map. Qed.

Lemma proper_unit : unit_magnitude X.
Proof. apply Hv. Qed.

Lemma proper_powered_sym e : conj_symmetric (map (fun z => Cpow_finite z e) X).
Proof.
  apply Cpow_conj_symmetric; [apply dft_real_conj_symmetric|apply Hv].
Qed.

Lemma proper_powered_unit e : unit_magnitude (map (fun z => Cpow_finite z e) X).
Proof.
  apply Forall_map. eapply Forall_impl; [|apply proper_unit].
  intros z Hz. apply Cabs_Cpow_unit. exact Hz.
Qed.

Lemma proper_power_spectrum e :
  dft (map RtoC (power_ssp_finite v e)) = map (fun z => Cpow_finite z e) X.
Proof. apply dft_power_ssp, proper_powered_sym. Qed.

Lemma proper_power_RtoC e :
  map RtoC (power_ssp_finite v e) = idft (map (fun z => Cpow_finite z e) X).
Proof. apply dft_inj. rewrite proper_power_spectrum, dft_idft. reflexivity. Qed.

Lemma proper_power_norm e : norm (power_ssp_finite v e) = 1.
Proof.
  rewrite power_ssp_dft. apply norm_idft_unit.
  - rewrite length_map. fold X. rewrite proper_X_length. apply proper_length_pos.
  - apply proper_powered_sym.
  - apply proper_powered_unit.
Qed.

Lemma proper_power_valid e : valid_ssp (power_ssp_finite v e).
Proof.
  unfold valid_ssp, asarray_complex. rewrite proper_power_spectrum.
  apply proper_powered_unit.
Qed.

Lemma proper_power_add a b :
  power_ssp_finite v (a + b) = circ_conv (power_ssp_finite v a) (power_ssp_finite v b).
Proof.
  apply map_RtoC_inj, dft_inj.
  rewrite dft_circ_conv_general by (rewrite !power_ssp_length; reflexivity).
  rewrite !proper_power_spectrum, zip_with_map_same.
  apply map_ext_in. intros z Hz. apply Cpow_add_unit.
  pose proof proper_unit as Hu. unfold unit_magnitude in Hu.
  rewrite Forall_forall in Hu. auto.
Qed.

End Proper.

(** The vectors that [make_good_unitary] returns for a tolerance that is not
    negative are proper. *)
Lemma returned_proper D eps rng v :
  rng_ok rng -> 0 <= eps -> make_good_unitary D eps rng = inr v -> proper_ssp v.
Proof.
  intros Hrng Heps Hret. split; [|split].
  - intros ->. pose proof (returned_length D eps rng [] Hrng Hret) as Hl.
    pose proof (returned_pos D eps rng [] Hrng Hret). simpl in Hl. lia.
  - apply (returned_unit D eps rng v Hrng Hret).
  - apply (returned_not_negative_real D eps rng v Hrng Hret Heps).
Qed.

Lemma proper_v4 : proper_ssp v4.
Proof.
  apply (returned_proper 4 (1 / 1000) rng4 v4 rng4_ok); [lra|].
  apply make_good_unitary_4. lra.
Qed.

Lemma proper_power_nat v n :
  proper_ssp v -> power_ssp_finite v (INR n) = circ_power v n.
Proof.
  intros Hv. induction n as [|n IH].
  - simpl. apply power_ssp_0.
  - rewrite S_INR, (proper_power_add v Hv), IH, power_ssp_1. reflexivity.
Qed.

(** ** Sums, dot products and norms *)

Lemma Rsum_shift_list (a : R) (l : list R) (f : nat -> R -> R) :
  Rsum (length (a :: l)) (fun n => f n (nth n (a :: l) 0))
  = f O a + Rsum (length l) (fun n => f (S n) (nth n l 0)).
Proof. cbn [length]. rewrite Rsum_shift. reflexivity. Qed.

Lemma dot_Rsum (a b : list R) :
  length a = length b ->
  dot a b = Rsum (length a) (fun n => nth n a 0 * nth n b 0).
Proof.
  revert b. induction a as [|x a IH]; intros [|y b] Hlen; simpl in Hlen; try lia.
  - reflexivity.
  - unfold dot in *. cbn [zip_with fold_right length]. rewrite Rsum_shift.
    rewrite IH by lia. reflexivity.
Qed.

Lemma Rsum_scale n c f : Rsum n (fun i => c * f i) = c * Rsum n f.
Proof. induction n as [|n IH]; simpl; [ring|]. rewrite IH. ring. Qed.

Lemma Rsum_plus n f g : Rsum n (fun i => f i + g i) = Rsum n f + Rsum n g.
Proof. induction n as [|n IH]; simpl; [ring|]. rewrite IH. ring. Qed.

Lemma Rsum_const n c : Rsum n (fun _ => c) = INR n * c.
Proof.
  induction n as [|n IH]; [simpl; ring|].
  cbn [Rsum]. rewrite IH, S_INR. ring.
Qed.

Lemma Rsum_le n f g :
  (forall i, (i < n)%nat -> f i <= g i) -> Rsum n f <= Rsum n g.
Proof.
  induction n as [|n IH]; intros H; simpl; [lra|].
  assert (Rsum n f <= Rsum n g) by (apply IH; intros; apply H; lia).
  assert (f n <= g n) by (apply H; lia). lra.
Qed.

Lemma Rsum_nonneg_term n f i :
  (forall j, (j < n)%nat -> 0 <= f j) -> (i < n)%nat -> f i <= Rsum n f.
Proof.
  induction n as [|n IH]; intros Hf Hi; [lia|].
  cbn [Rsum].
  assert (Hpos : 0 <= Rsum n f).
  { rewrite <- (Rmult_0_r (INR n)), <- (Rsum_const n 0).
    apply Rsum_le. intros j Hj. apply Hf. lia. }
  destruct (Nat.eq_dec i n) as [->|Hne].
  - lra.
  - assert (f i <= Rsum n f) by (apply IH; [intros; apply Hf; lia|lia]).
    assert (0 <= f n) by (apply Hf; lia). lra.
Qed.

Lemma norm_sq (v : list R) : norm v * norm v = dot v v.
Proof.
  unfold norm. rewrite sqrt_sqrt.
  - rewrite fold_right_Rplus_Rsum, length_map, dot_Rsum by reflexivity.
    apply Rsum_ext. intros n Hn.
    rewrite (nth_map_in _ _ _ 0) by assumption. reflexivity.
  - rewrite fold_right_Rplus_Rsum, length_map.
    rewrite <- (Rmult_0_r (INR (length v))), <- (Rsum_const (length v) 0).
    apply Rsum_le. intros n Hn.
    rewrite (nth_map_in _ _ _ 0) by assumption. nra.
Qed.

(** No entry exceeds the norm in magnitude. *)
Lemma entry_le_norm (v : list R) i :
  (i < length v)%nat -> Rabs (nth i v 0) <= norm v.
Proof.
  intros Hi. unfold norm. rewrite <- sqrt_Rsqr_abs. apply sqrt_le_1_alt.
  rewrite fold_right_Rplus_Rsum, length_map.
  rewrite (Rsum_ext _ _ (fun n => nth n v 0 * nth n v 0))
    by (intros n Hn; rewrite (nth_map_in _ _ _ 0) by assumption; reflexivity).
  apply (Rsum_nonneg_term (length v) (fun n => nth n v 0 * nth n v 0) i);
    [intros j _; nra|assumption].
Qed.

Lemma Re_Cdiv_real z a : Re (Cdiv_real z a) = Re z / a.
Proof. reflexivity. Qed.

(** The entries of a real vector sum to the real part of bin zero of its
    transform. *)
Lemma sum_entries_bin0 (v : list R) :
  fold_right Rplus 0 v = Re (nth 0 (dft (map RtoC v)) C0).
Proof.
  destruct v as [|a v]; [reflexivity|].
  rewrite dft_nth by (simpl; lia).
  rewrite dft_coef_0, Re_Csum, length_map, fold_right_Rplus_Rsum.
  apply Rsum_ext. intros n Hn. rewrite nth_map_RtoC. reflexivity.
Qed.

(** Bin zero of the transform of a proper vector is one. *)
Lemma proper_bin0 v : proper_ssp v -> nth 0 (dft (map RtoC v)) C0 = C1.
Proof.
  intros Hv. pose proof (proper_length_pos v Hv) as Hpos.
  destruct Hv as [_ [Hunit Hnr]].
  unfold valid_ssp, unit_magnitude, asarray_complex in Hunit, Hnr.
  assert (Hlen : (0 < length (dft (map RtoC v)))%nat)
    by (rewrite dft_length, length_map; assumption).
  pose proof (proj1 (Forall_nth_iff _ _ C0) Hunit 0%nat Hlen) as Habs.
  pose proof (proj1 (Forall_nth_iff _ _ C0) Hnr 0%nat Hlen) as Hneg.
  pose proof (dft_real_conj_symmetric v 0%nat Hlen) as Hsym.
  rewrite Nat.sub_0_r, Nat.Div0.mod_same in Hsym.
  symmetry in Hsym. apply Cconj_fixed_real in Hsym.
  destruct (nth 0 (dft (map RtoC v)) C0) as [x y].
  unfold Cabs, negative_real, Re, Im, C1 in *. simpl in *. subst y.
  assert (Hsq : x * x = 1).
  { replace (x * x) with (x * x + 0 * 0) by ring.
    rewrite <- (sqrt_sqrt (x * x + 0 * 0)) by nra. rewrite Habs. ring. }
  f_equal. destruct (Rlt_dec x 0) as [Hx|Hx].
  - exfalso. apply Hneg. split; [assumption|reflexivity].
  - nra.
Qed.

Lemma proper_power_sum v e :
  proper_ssp v -> fold_right Rplus 0 (power_ssp_finite v e) = 1.
Proof.
  intros Hv. rewrite sum_entries_bin0, (proper_power_spectrum v Hv).
  rewrite nth_map_Cpow
    by (rewrite dft_length, length_map; apply proper_length_pos; assumption).
  rewrite (proper_bin0 v Hv), Cpow_C1. reflexivity.
Qed.

(** The dot product of two powers of a proper vector is the mean of the
    cosines of the phase differences. *)
Lemma proper_power_dot v a b :
  proper_ssp v ->
  dot (power_ssp_finite v a) (power_ssp_finite v b)
  = Rsum (length v)
         (fun k => cos ((a - b) * Carg (nth k (dft (map RtoC v)) C0)))
    / INR (length v).
Proof.
  intros Hv.
  set (X := dft (map RtoC v)).
  assert (HX : length X = length v) by (unfold X; rewrite dft_length; apply length_map).
  pose proof (proper_unit v Hv) as Hunit. fold X in Hunit.
  rewrite dot_Rsum by (rewrite !power_ssp_length; reflexivity).
  rewrite power_ssp_length.
  pose proof (plancherel_idft (map (fun z => Cpow_finite z a) X) (map (fun z => Cpow_finite z b) X)
                ltac:(rewrite !length_map; reflexivity)) as Hp.
  rewrite length_map, HX in Hp.
  rewrite <- !(proper_power_RtoC v Hv) in Hp.
  apply (f_equal Re) in Hp. rewrite Re_Cdiv_real, !Re_Csum in Hp.
  rewrite (Rsum_ext _ _ (fun n => nth n (power_ssp_finite v a) 0 * nth n (power_ssp_finite v b) 0)) in Hp.
  2:{ intros n Hn. rewrite !nth_map_RtoC. unfold Cconj, Cmul, RtoC, Re, Im. simpl. ring. }
  rewrite Hp. f_equal. apply Rsum_ext. intros k Hk.
  rewrite !nth_map_Cpow by (rewrite HX; assumption).
  assert (Hk1 : Cabs (nth k X C0) = 1)
    by (apply (proj1 (Forall_nth_iff _ _ C0) Hunit); rewrite HX; assumption).
  rewrite !Cpow_unit by assumption.
  rewrite Cconj_cis, <- cis_add.
  unfold cis, Re. simpl. f_equal. ring.
Qed.

Lemma Rsum_cos_bounds n (f : nat -> R) :
  (0 < n)%nat -> -1 <= Rsum n (fun k => cos (f k)) / INR n <= 1.
Proof.
  intros Hn. assert (HN : 0 < INR n) by (apply lt_0_INR; assumption).
  assert (Hup : Rsum n (fun k => cos (f k)) <= INR n * 1).
  { rewrite <- Rsum_const. apply Rsum_le. intros k _.
    pose proof (COS_bound (f k)). lra. }
  assert (Hlo : INR n * -1 <= Rsum n (fun k => cos (f k))).
  { rewrite <- Rsum_const. apply Rsum_le. intros k _.
    pose proof (COS_bound (f k)). lra. }
  split.
  - apply (Rmult_le_reg_r (INR n)); [assumption|].
    unfold Rdiv. rewrite Rmult_assoc, Rinv_l by lra. lra.
  - apply (Rmult_le_reg_r (INR n)); [assumption|].
    unfold Rdiv. rewrite Rmult_assoc, Rinv_l by lra. lra.
Qed.

(** ** Mean and standard deviation *)

Lemma fold_right_Rplus_map_sq_dev (l : list R) (m : R) :
  fold_right Rplus 0 (map (fun x => (x - m) * (x - m)) l)
  = fold_right Rplus 0 (map (fun x => x * x) l)
    - 2 * m * fold_right Rplus 0 l + INR (length l) * (m * m).
Proof.
  induction l as [|a l IH]; [simpl; ring|].
  cbn [map fold_right length]. rewrite IH, S_INR. ring.
Qed.

Lemma norm_one_sum_sq (p : list R) :
  norm p = 1 -> fold_right Rplus 0 (map (fun x => x * x) p) = 1.
Proof.
  intros H.
  assert (Hmap : fold_right Rplus 0 (map (fun x => x * x) p) = dot p p).
  { unfold dot. clear. induction p as [|a p IH]; [reflexivity|].
    cbn [map fold_right zip_with]. rewrite IH. reflexivity. }
  rewrite Hmap, <- norm_sq, H. ring.
Qed.

(** Mean and standard deviation of a vector of norm one whose entries sum
    to one. *)
Lemma mean_std_unit (p : list R) :
  p <> [] -> norm p = 1 -> fold_right Rplus 0 p = 1 ->
  np_mean p = 1 / INR (length p) /\
  np_std p = sqrt (INR (length p) - 1) / INR (length p).
Proof.
  intros Hne Hnorm Hsum.
  assert (HD : 0 < INR (length p)).
  { apply lt_0_INR. destruct p; [contradiction|simpl; lia]. }
  assert (HD1 : 1 <= INR (length p)).
  { change 1 with (INR 1). apply le_INR. destruct p; [contradiction|simpl; lia]. }
  assert (Hmean : np_mean p = 1 / INR (length p)).
  { unfold np_mean. rewrite Hsum. reflexivity. }
  split; [exact Hmean|].
  unfold np_std. rewrite Hmean. unfold np_mean at 1.
  rewrite length_map, fold_right_Rplus_map_sq_dev, (norm_one_sum_sq p Hnorm), Hsum.
  replace ((1 - 2 * (1 / INR (length p)) * 1
            + INR (length p) * (1 / INR (length p) * (1 / INR (length p))))
           / INR (length p))
    with ((INR (length p) - 1) / (INR (length p) * INR (length p)))
    by (field; lra).
  rewrite sqrt_div_alt by nra.
  rewrite sqrt_square by lra. reflexivity.
Qed.

(** ** More on [make_good_unitary] *)

Lemma make_good_unitary_nonpositive D eps rng :
  (D <= 0)%Z -> make_good_unitary D eps rng = inl ValueError.
Proof.
  intros HD. unfold make_good_unitary.
  destruct (Z.leb_spec D 0); [reflexivity|lia].
Qed.

(** The outcomes of a run: the error on the size, one of the two assertions
    on the phases, or a vector. *)
Lemma make_good_unitary_outcomes D eps rng :
  rng_ok rng ->
  make_good_unitary D eps rng = inl ValueError \/
  make_good_unitary D eps rng = inl AssertPhaseLower \/
  make_good_unitary D eps rng = inl AssertPhaseUpper \/
  exists v, make_good_unitary D eps rng = inr v.
Proof.
  intros Hrng. destruct (Z.leb_spec D 0) as [Hle|Hlt].
  - left. apply make_good_unitary_nonpositive. assumption.
  - right. rewrite make_good_unitary_outcome by assumption. cbv zeta.
    destruct (phase_lower_ok eps _); [|left; reflexivity].
    destruct (phase_upper_ok eps _); [|right; left; reflexivity].
    right. right. eexists. reflexivity.
Qed.

(** Above the tolerance [1/2] a phase cannot pass both assertions. *)
Lemma phase_checks_fail_large_eps D eps rng :
  rng_ok rng -> 1 / 2 < eps -> (3 <= D)%nat ->
  phase_lower_ok eps (phases D eps rng) = false \/
  phase_upper_ok eps (phases D eps rng) = false.
Proof.
  intros Hrng Heps HD. pose proof PI_RGT_0 as Hpi.
  pose proof (phases_shape D eps rng Hrng) as Hshape.
  pose proof (phases_length D eps rng Hrng) as Hlen.
  assert (Hh : (1 <= (D - 1) / 2)%nat).
  { apply Nat.div_le_lower_bound; lia. }
  destruct (phases D eps rng) as [|p phi] eqn:Hphi; [cbn [length] in Hlen; lia|].
  inversion Hshape as [|? ? [a [Ha Habs]] _]; subst.
  unfold phase_lower_ok, phase_upper_ok. cbn [forallb].
  set (t := eps + a * (1 - 2 * eps)) in *.
  assert (Hle : t <= eps) by (unfold t; nra).
  assert (Hgt : - eps < t) by (unfold t; nra).
  destruct (Rle_dec (PI * eps) (Rabs p)) as [Hlo|Hlo].
  - right. rewrite (Rle_bool_false (Rabs p)); [reflexivity|].
    rewrite Habs in *.
    assert (Habs_t : eps <= Rabs t) by nra.
    assert (Ht : t = eps).
    { unfold Rabs in Habs_t. destruct (Rcase_abs t); lra. }
    rewrite Ht, Rabs_right by lra. nra.
  - left. unfold Rle_bool. destruct (Rle_dec (PI * eps) (Rabs p)); [contradiction|].
    reflexivity.
Qed.

Lemma make_good_unitary_large_eps D eps rng :
  rng_ok rng -> 1 / 2 < eps -> (3 <= D)%Z ->
  make_good_unitary D eps rng = inl AssertPhaseLower \/
  make_good_unitary D eps rng = inl AssertPhaseUpper.
Proof.
  intros Hrng Heps HD.
  rewrite make_good_unitary_outcome by (assumption || lia). cbv zeta.
  destruct (phase_checks_fail_large_eps (Z.to_nat D) eps rng Hrng Heps ltac:(lia))
    as [Hlo|Hup].
  - rewrite Hlo. left. reflexivity.
  - rewrite Hup. destruct (phase_lower_ok eps _); [right|left]; reflexivity.
Qed.

(** Below three dimensions no phase is drawn. *)
Lemma make_good_unitary_small D eps rng :
  rng_ok rng -> (1 <= D <= 2)%Z ->
  make_good_unitary D eps rng = inr (impulse (Z.to_nat D)).
Proof.
  intros Hrng HD.
  rewrite make_good_unitary_outcome by (assumption || lia). cbv zeta.
  assert (Hphi : phases (Z.to_nat D) eps rng = []).
  { pose proof (phases_length (Z.to_nat D) eps rng Hrng) as Hlen.
    assert (Hz : ((Z.to_nat D - 1) / 2 = 0)%nat) by (apply Nat.div_small; lia).
    rewrite Hz in Hlen. destruct (phases _ _ _); [reflexivity|discriminate]. }
  rewrite Hphi. cbn [phase_lower_ok phase_upper_ok forallb negb].
  assert (Hcases : Z.to_nat D = 1%nat \/ Z.to_nat D = 2%nat) by lia.
  destruct Hcases as [-> | ->].
  - change (target_spectrum 1 []) with [C1].
    rewrite idft_ones by (repeat constructor). reflexivity.
  - change (target_spectrum 2 []) with [C1; C1].
    rewrite idft_ones by (repeat constructor). reflexivity.
Qed.

(** The entries of a returned vector sum to one, and none exceeds one in
    magnitude. *)
Lemma returned_sum D eps rng v :
  rng_ok rng -> make_good_unitary D eps rng = inr v -> fold_right Rplus 0 v = 1.
Proof.
  intros Hrng Hret.
  rewrite sum_entries_bin0, (returned_dft D eps rng v Hrng Hret).
  rewrite target_spectrum_nth
    by (try apply (returned_pos D eps rng v Hrng Hret);
        apply (returned_phi_length D eps rng Hrng)).
  reflexivity.
Qed.

Lemma cis_neg_PI_nat n : cis (- (PI * INR n)) = RtoC ((-1) ^ n).
Proof.
  induction n as [|n IH].
  - simpl. rewrite Rmult_0_r, Ropp_0. apply cis_0.
  - rewrite S_INR. replace (- (PI * (INR n + 1))) with (- PI + - (PI * INR n)) by ring.
    rewrite cis_add, IH, cis_neg_PI. apply C_eq; csimpl; ring.
Qed.

(** For an even dimension the alternating sum of the entries is one. *)
Lemma returned_alternating_sum D eps rng v :
  rng_ok rng -> make_good_unitary D eps rng = inr v -> Z.even D = true ->
  Rsum (length v) (fun n => (-1) ^ n * nth n v 0) = 1.
Proof.
  intros Hrng Hret Heven.
  pose proof (returned_pos D eps rng v Hrng Hret) as Hpos.
  pose proof (returned_length D eps rng v Hrng Hret) as Hlen.
  pose proof (returned_phi_length D eps rng Hrng) as Hphi.
  pose proof (returned_dft D eps rng v Hrng Hret) as Hdft.
  set (n := Z.to_nat D) in *.
  destruct (parity_cases n Hpos) as [[m [Hm _]]|[m [Hm [Hmpos [H1 [_ [H3 Hmod]]]]]]].
  - exfalso. apply Z.even_spec in Heven. destruct Heven as [q Hq].
    assert (n = 2 * Z.to_nat q)%nat by (unfold n; lia). lia.
  - apply (f_equal (fun l => Re (nth m l C0))) in Hdft.
    rewrite target_spectrum_nth in Hdft by (assumption || lia).
    unfold spectrum_bin in Hdft. rewrite Hmod, H3, H1 in Hdft.
    destruct (Nat.eqb_spec m 0) as [E|_]; [lia|].
    destruct (Nat.leb_spec m (m - 1)) as [E|_]; [lia|].
    cbn [Nat.eqb andb] in Hdft. rewrite Nat.eqb_refl in Hdft.
    rewrite dft_nth in Hdft by (rewrite length_map; lia).
    unfold dft_coef in Hdft. rewrite length_map, Re_Csum in Hdft.
    change 1 with (Re C1). rewrite <- Hdft. apply Rsum_ext. intros j Hj.
    rewrite nth_map_RtoC.
    replace (- (2 * PI * INR m * INR j / INR (length v))) with (- (PI * INR j)).
    + rewrite cis_neg_PI_nat. unfold RtoC, Cmul, Re, Im. simpl. ring.
    + rewrite Hlen, Hm, INR_double. field. apply not_0_INR. lia.
Qed.

Lemma returned_entry_bound D eps rng v i :
  rng_ok rng -> make_good_unitary D eps rng = inr v ->
  (i < length v)%nat -> Rabs (nth i v 0) <= 1.
Proof.
  intros Hrng Hret Hi.
  rewrite <- (returned_norm D eps rng v Hrng Hret). apply entry_le_norm. assumption.
Qed.

(** ** The drivers *)

Lemma linspace_length a b n : length (linspace a b n) = n.
Proof. unfold linspace. rewrite length_map, length_seq. reflexivity. Qed.

Lemma linspace_nth_error a b n i :
  (i < n)%nat ->
  nth_error (linspace a b n) i = Some (a + INR i * ((b - a) / INR (n - 1))).
Proof.
  intros Hi. unfold linspace.
  rewrite nth_error_map, nth_error_nth' with (d := 0%nat) by (rewrite length_seq; assumption).
  rewrite seq_nth by assumption. reflexivity.
Qed.

Lemma zip_with_map_r {A B D} (g : A -> B -> D) (f : A -> B) l :
  zip_with g l (map f l) = map (fun a => g a (f a)) l.
Proof. induction l as [|a l IH]; simpl; [reflexivity|]. rewrite IH. reflexivity. Qed.

Lemma proper_norm v : proper_ssp v -> norm v = 1.
Proof.
  intros Hv. rewrite <- (power_ssp_1 v) at 1. apply (proper_power_norm v Hv).
Qed.

Lemma np_mean_bounds (l : list R) lo hi :
  l <> [] -> Forall (fun x => lo <= x <= hi) l -> lo <= np_mean l <= hi.
Proof.
  intros Hne Hall. unfold np_mean.
  assert (HN : 0 < INR (length l)).
  { apply lt_0_INR. destruct l; [contradiction|simpl; lia]. }
  assert (Hsum : INR (length l) * lo <= fold_right Rplus 0 l <= INR (length l) * hi).
  { clear Hne HN. induction Hall as [|x l Hx _ IH]; [simpl; lra|].
    cbn [fold_right length]. rewrite S_INR. lra. }
  split.
  - apply (Rmult_le_reg_r (INR (length l))); [assumption|].
    unfold Rdiv. rewrite Rmult_assoc, Rinv_l by lra. lra.
  - apply (Rmult_le_reg_r (INR (length l))); [assumption|].
    unfold Rdiv. rewrite Rmult_assoc, Rinv_l by lra. lra.
Qed.

(** The dot products and the cosine similarities of one turn of the loop,
    for proper vectors against their own powers. *)
Lemma similarity_rows (ssps : list (list R)) (a e : R) :
  Forall proper_ssp ssps ->
  let ssps_original := map (fun ssp => power_ssp_finite ssp a) ssps in
  let ssps_powered := map (fun ssp => power_ssp_finite ssp e) ssps in
  let dots := map (fun v => dot (power_ssp_finite v a) (power_ssp_finite v e)) ssps in
  einsum_rows ssps_original ssps_powered = dots /\
  zip_with Rdiv dots (zip_with Rmult (map norm ssps_original) (map norm ssps_powered))
  = dots.
Proof.
  intros Hall. cbv zeta. induction Hall as [|v ssps Hv _ [IH1 IH2]].
  - split; reflexivity.
  - split.
    + unfold einsum_rows in *. cbn [map zip_with]. rewrite IH1. reflexivity.
    + cbn [map zip_with]. rewrite IH2, !(proper_power_norm v Hv).
      f_equal. field.
Qed.

Lemma similarity_dot_bounds v a e :
  proper_ssp v -> -1 <= dot (power_ssp_finite v a) (power_ssp_finite v e) <= 1.
Proof.
  intros Hv. rewrite (proper_power_dot v a e Hv).
  apply Rsum_cos_bounds. apply proper_length_pos. assumption.
Qed.

Lemma similarity_dot_same v a : proper_ssp v -> dot (power_ssp_finite v a) (power_ssp_finite v a) = 1.
Proof.
  intros Hv. rewrite <- norm_sq, (proper_power_norm v Hv). ring.
Qed.

Lemma similarity_dot_mirror v a e :
  proper_ssp v ->
  dot (power_ssp_finite v a) (power_ssp_finite v (2 * a - e)) = dot (power_ssp_finite v a) (power_ssp_finite v e).
Proof.
  intros Hv. rewrite !(proper_power_dot v _ _ Hv). f_equal.
  apply Rsum_ext. intros k _.
  replace ((a - (2 * a - e)) * Carg (nth k (dft (map RtoC v)) C0))
    with (- ((a - e) * Carg (nth k (dft (map RtoC v)) C0))) by ring.
  apply cos_neg.
Qed.

(** The operations that let a nan through, on arrays of numbers. *)
Lemma nan_einsum_rows_Finite (A B : list (list R)) :
  nan_einsum_rows (map Finite A) (map Finite B) = map Some (einsum_rows A B).
Proof.
  unfold nan_einsum_rows, einsum_rows. revert B.
  induction A as [|a A IH]; intros [|b B]; cbn [map zip_with nan_dot]; try reflexivity.
  rewrite IH. reflexivity.
Qed.

Lemma nan_norm_Finite (B : list (list R)) :
  map nan_norm (map Finite B) = map Some (map norm B).
Proof. rewrite !map_map. reflexivity. Qed.

Lemma nan_mul_Some (a b : list R) :
  zip_with nan_mul (map Some a) (map Some b) = map Some (zip_with Rmult a b).
Proof.
  revert b. induction a as [|x a IH]; intros [|y b]; cbn [map zip_with nan_mul];
    try reflexivity.
  rewrite IH. reflexivity.
Qed.

Lemma nan_div_Some (a b : list R) :
  Forall (fun y => y <> 0) b ->
  zip_with nan_div (map Some a) (map Some b) = map Some (zip_with Rdiv a b).
Proof.
  intros H. revert a. induction H as [|y b Hy _ IH]; intros [|x a];
    cbn [map zip_with nan_div]; try reflexivity.
  destruct (Req_dec_T y 0); [contradiction|]. rewrite IH. reflexivity.
Qed.

Lemma nan_mean_Some (l : list R) : l <> [] -> nan_mean (map Some l) = Some (np_mean l).
Proof.
  intros H. unfold nan_mean. rewrite sequence_option_Some.
  destruct l; [contradiction|reflexivity].
Qed.

Lemma sequence_result_map {A B : Type} (f : A -> result B) (g : A -> B) (l : list A) :
  Forall (fun a => f a = inr (g a)) l ->
  sequence_result (map f l) = inr (map g l).
Proof.
  induction 1 as [|a l Ha _ IH]; [reflexivity|].
  cbn [map sequence_result]. rewrite Ha, IH. reflexivity.
Qed.

(** The powers of proper vectors are arrays of numbers, on either backend. *)
Lemma proper_valid v : proper_ssp v -> valid_ssp v.
Proof. intros H. apply H. Qed.

Lemma proper_nonempty v : proper_ssp v -> v <> [].
Proof. intros H. apply H. Qed.

Lemma power_ssp_proper v e :
  proper_ssp v -> power_ssp v e = Finite (power_ssp_finite v e).
Proof. intros H. apply power_ssp_valid, proper_valid. assumption. Qed.

Lemma power_ssp_np_proper v e :
  proper_ssp v -> power_ssp_np v e = inr (Finite (power_ssp_finite v e)).
Proof.
  intros H. rewrite power_ssp_np_eq by (apply proper_nonempty; assumption).
  rewrite power_ssp_proper by assumption. reflexivity.
Qed.

Lemma power_ssp_proper_map ssps e :
  Forall proper_ssp ssps ->
  map (fun ssp => power_ssp ssp e) ssps
  = map Finite (map (fun ssp => power_ssp_finite ssp e) ssps).
Proof.
  intros H. rewrite map_map. apply map_ext_in. intros v Hv.
  apply power_ssp_proper. rewrite Forall_forall in H. auto.
Qed.

Lemma power_ssp_np_proper_sequence ssps e :
  Forall proper_ssp ssps ->
  sequence_result (map (fun ssp => power_ssp_np ssp e) ssps)
  = inr (map Finite (map (fun ssp => power_ssp_finite ssp e) ssps)).
Proof.
  intros H. rewrite map_map. apply sequence_result_map.
  eapply Forall_impl; [|exact H]. intros v Hv. apply power_ssp_np_proper. assumption.
Qed.

Lemma norm_products_nonzero ssps a e :
  Forall proper_ssp ssps ->
  Forall (fun y => y <> 0)
         (zip_with Rmult (map norm (map (fun ssp => power_ssp_finite ssp a) ssps))
                         (map norm (map (fun ssp => power_ssp_finite ssp e) ssps))).
Proof.
  induction 1 as [|v ssps Hv _ IH]; [constructor|].
  cbn [map zip_with]. constructor; [|exact IH].
  rewrite !(proper_power_norm v Hv). lra.
Qed.

Lemma dots_nonempty (ssps : list (list R)) (f : list R -> R) :
  ssps <> [] -> map f ssps <> [].
Proof. destruct ssps; [contradiction|discriminate]. Qed.

Lemma loop_body_proper ssps e :
  ssps <> [] -> Forall proper_ssp ssps ->
  analyze_similarity.loop_body ssps (map norm ssps) e
  = (Some (np_mean (map (fun v => dot (power_ssp_finite v 1) (power_ssp_finite v e)) ssps)),
     Some (np_mean (map (fun v => dot (power_ssp_finite v 1) (power_ssp_finite v e)) ssps))).
Proof.
  intros Hne Hall. unfold analyze_similarity.loop_body. cbv zeta.
  rewrite (power_ssp_proper_map ssps e Hall).
  rewrite nan_einsum_rows_Finite, nan_norm_Finite, nan_mul_Some.
  destruct (similarity_rows ssps 1 e Hall) as [H1 H2]. cbv zeta in H1, H2.
  pose proof (norm_products_nonzero ssps 1 e Hall) as Hnz.
  rewrite (map_ext (fun ssp => power_ssp_finite ssp 1) (fun ssp => ssp)) in H1, H2, Hnz
    by apply power_ssp_1.
  rewrite map_id in H1, H2, Hnz.
  rewrite nan_div_Some by exact Hnz.
  rewrite H1, H2, nan_mean_Some by (apply dots_nonempty; assumption).
  reflexivity.
Qed.

Lemma loop_body_root_proper ssps e :
  ssps <> [] -> Forall proper_ssp ssps ->
  let ssps_original := map Finite (map (fun ssp => power_ssp_finite ssp 20) ssps) in
  analyze_similarity_root.loop_body ssps ssps_original (map nan_norm ssps_original) e
  = inr (Some (np_mean (map (fun v => dot (power_ssp_finite v 20) (power_ssp_finite v e)) ssps)),
         Some (np_mean (map (fun v => dot (power_ssp_finite v 20) (power_ssp_finite v e)) ssps))).
Proof.
  intros Hne Hall. unfold analyze_similarity_root.loop_body. cbv zeta.
  rewrite (power_ssp_np_proper_sequence ssps e Hall).
  rewrite nan_einsum_rows_Finite, !nan_norm_Finite, nan_mul_Some.
  destruct (similarity_rows ssps 20 e Hall) as [H1 H2]. cbv zeta in H1, H2.
  rewrite nan_div_Some by (apply norm_products_nonzero; assumption).
  rewrite H1, H2, nan_mean_Some by (apply dots_nonempty; assumption).
  reflexivity.
Qed.

Lemma mean_dots_bounds ssps a e :
  ssps <> [] -> Forall proper_ssp ssps ->
  -1 <= np_mean (map (fun v => dot (power_ssp_finite v a) (power_ssp_finite v e)) ssps) <= 1.
Proof.
  intros Hne Hall. apply np_mean_bounds.
  - destruct ssps; [contradiction|discriminate].
  - apply Forall_map. eapply Forall_impl; [|exact Hall].
    intros v Hv. apply similarity_dot_bounds. assumption.
Qed.

Lemma mean_dots_same ssps a :
  ssps <> [] -> Forall proper_ssp ssps ->
  np_mean (map (fun v => dot (power_ssp_finite v a) (power_ssp_finite v a)) ssps) = 1.
Proof.
  intros Hne Hall.
  rewrite (map_ext_in _ (fun _ => 1)).
  2:{ intros v Hv. apply similarity_dot_same. rewrite Forall_forall in Hall. auto. }
  unfold np_mean. rewrite length_map.
  assert (Hsum : forall (l : list (list R)),
             fold_right Rplus 0 (map (fun _ => 1) l) = INR (length l)).
  { induction l as [|x l IH]; [reflexivity|].
    cbn [map fold_right length]. rewrite IH, S_INR. ring. }
  rewrite Hsum. field. apply not_0_INR. destruct ssps; [contradiction|discriminate].
Qed.

(** Minimum and maximum. *)
Lemma fold_left_Rmin_le l x :
  fold_left Rmin l x <= x /\ Forall (fun y => fold_left Rmin l x <= y) l.
Proof.
  revert x. induction l as [|a l IH]; intros x; simpl.
  - split; [lra|constructor].
  - destruct (IH (Rmin x a)) as [H1 H2].
    pose proof (Rmin_l x a). pose proof (Rmin_r x a).
    split; [lra|]. constructor; [lra|assumption].
Qed.

Lemma fold_left_Rmax_ge l x :
  x <= fold_left Rmax l x /\ Forall (fun y => y <= fold_left Rmax l x) l.
Proof.
  revert x. induction l as [|a l IH]; intros x; simpl.
  - split; [lra|constructor].
  - destruct (IH (Rmax x a)) as [H1 H2].
    pose proof (Rmax_l x a). pose proof (Rmax_r x a).
    split; [lra|]. constructor; [lra|assumption].
Qed.

Lemma np_min_max_bounds l y : In y l -> np_min l <= y <= np_max l.
Proof.
  destruct l as [|x l]; [contradiction|]. intros [<-|Hin]; unfold np_min, np_max.
  - split; [apply fold_left_Rmin_le|apply fold_left_Rmax_ge].
  - destruct (fold_left_Rmin_le l x) as [_ Hmin].
    destruct (fold_left_Rmax_ge l x) as [_ Hmax].
    rewrite Forall_forall in Hmin, Hmax. split; auto.
Qed.

Lemma nth_error_in_range {A} (l : list A) i d :
  (i < length l)%nat -> nth_error l i = Some (nth i l d).
Proof. intros H. apply nth_error_nth'. assumption. Qed.

Lemma entry_Finite (p : list R) (j : nat) :
  (j < length p)%nat -> entry (Finite p) j = Some (Some (nth j p 0)).
Proof.
  intros H. unfold entry. rewrite (nth_error_in_range p j 0 H). reflexivity.
Qed.

Lemma lines_data_in_range p idx :
  Forall (fun i => (i < length p)%nat) idx ->
  analyze_parallel.lines_data (Finite p) idx
  = Some (map (fun i => ((INR i, INR i), (0, Some (nth i p 0)))) idx).
Proof.
  induction 1 as [|i idx Hi _ IH]; [reflexivity|].
  cbn [analyze_parallel.lines_data map].
  rewrite (entry_Finite p i Hi), IH. reflexivity.
Qed.

(** The columns and the axis limits of [python/analyze_3d.py], for a proper
    vector. *)
Lemma column_proper ssp j :
  proper_ssp ssp -> (j < length ssp)%nat ->
  analyze_3d.column j (analyze_3d.ssp_powers ssp)
  = Some (map Some (map (fun e => nth j (power_ssp_finite ssp e) 0)
                        analyze_3d.exponents)).
Proof.
  intros Hv Hj. unfold analyze_3d.column, analyze_3d.ssp_powers.
  rewrite !map_map. apply sequence_option_map.
  apply Forall_forall. intros e _.
  rewrite power_ssp_proper by assumption.
  rewrite entry_Finite by (rewrite power_ssp_length; assumption).
  reflexivity.
Qed.

Lemma axis_limits_proper ssp j :
  proper_ssp ssp -> (j < length ssp)%nat ->
  let all := map (fun e => nth j (power_ssp_finite ssp e) 0) analyze_3d.exponents in
  analyze_3d.axis_limits ssp j
  = Some (Some (np_min all - analyze_3d.margin), Some (np_max all + analyze_3d.margin)).
Proof.
  intros Hv Hj. cbv zeta. unfold analyze_3d.axis_limits.
  rewrite column_proper by assumption.
  unfold nan_min, nan_max. rewrite sequence_option_Some. reflexivity.
Qed.

(** * Further properties, stated *)

(** ** [custom_conj], [custom_fft], [custom_ifft] *)

(** X1.  [custom_conj] is the elementwise conjugate, keeps the length, and
    applied twice gives the input back. *)
Theorem custom_conj_involution (x : list C) :
  custom_conj x = map Cconj x /\
  length (custom_conj x) = length x /\
  custom_conj (custom_conj x) = x.
Proof.
  split; [apply custom_conj_map|]. split; [|apply custom_conj_twice].
  rewrite custom_conj_map. apply length_map.
Qed.

(** X2.  [custom_ifft] undoes [custom_fft] and [custom_fft] undoes
    [custom_ifft], for every length. *)
Theorem custom_fft_ifft_round_trip (x : list C) :
  custom_ifft (custom_fft x) = x /\ custom_fft (custom_ifft x) = x.
Proof.
  rewrite !custom_fft_is_dft, !custom_ifft_is_idft.
  split; [apply idft_dft|apply dft_idft].
Qed.

(** X3.  Both transforms keep the length of their input, also when it is
    not a power of two, and give the empty array on the empty array. *)
Theorem custom_transforms_keep_length (x : list C) :
  length (custom_fft x) = length x /\
  length (custom_ifft x) = length x /\
  custom_fft [] = [] /\ custom_ifft [] = [].
Proof.
  split; [apply custom_fft_length|]. split; [apply custom_ifft_length|].
  split; reflexivity.
Qed.

(** X4.  [custom_fft] is linear: on two arrays of one length, the transform
    of [c * x + y] is [c] times the transform of [x] plus that of [y]. *)
Theorem custom_fft_linear (c : C) (x y : list C) :
  length x = length y ->
  custom_fft (zip_with Cadd (map (Cmul c) x) y)
  = zip_with Cadd (map (Cmul c) (custom_fft x)) (custom_fft y).
Proof. intros Hlen. rewrite !custom_fft_is_dft. apply dft_linear. assumption. Qed.

Lemma custom_fft_linear_witness :
  custom_fft (zip_with Cadd (map (Cmul Ci) [C1; C0; Ci]) [C0; C1; C1])
  = zip_with Cadd (map (Cmul Ci) (custom_fft [C1; C0; Ci])) (custom_fft [C0; C1; C1]).
Proof. apply (custom_fft_linear Ci [C1; C0; Ci] [C0; C1; C1]). reflexivity. Defined.

(** X5.  The transform of a real array is conjugate-symmetric, and its bin
    zero is the sum of the entries, a real number. *)
Theorem custom_fft_real_input (v : list R) :
  conj_symmetric (custom_fft (asarray_complex v)) /\
  Re (nth 0 (custom_fft (asarray_complex v)) C0) = fold_right Rplus 0 v /\
  Im (nth 0 (custom_fft (asarray_complex v)) C0) = 0.
Proof.
  rewrite custom_fft_is_dft. unfold asarray_complex.
  split; [apply dft_real_conj_symmetric|]. split; [symmetry; apply sum_entries_bin0|].
  destruct v as [|a v]; [reflexivity|].
  apply Cconj_fixed_real.
  rewrite <- (dft_real_conj_symmetric (a :: v) 0%nat)
    by (rewrite dft_length, length_map; simpl; lia).
  rewrite Nat.sub_0_r, Nat.Div0.mod_same. reflexivity.
Qed.

(** X6.  Plancherel: for two arrays of one length [N], the sum of
    [x_n * conj(y_n)] is [1/N] times the sum of [X_k * conj(Y_k)] over their
    transforms. *)
Theorem custom_fft_plancherel (x y : list C) :
  length x = length y ->
  Csum (length x) (fun n => (nth n x C0 * Cconj (nth n y C0))%C)
  = Cdiv_real
      (Csum (length x)
            (fun k => (nth k (custom_fft x) C0 * Cconj (nth k (custom_fft y) C0))%C))
      (INR (length x)).
Proof.
  intros Hlen. rewrite !custom_fft_is_dft.
  pose proof (plancherel_idft (dft x) (dft y)
                ltac:(rewrite !dft_length; assumption)) as H.
  rewrite !idft_dft, dft_length in H. exact H.
Qed.

Lemma custom_fft_plancherel_witness :
  Csum 3 (fun n => (nth n [C1; Ci; C0] C0 * Cconj (nth n [Ci; C1; C1] C0))%C)
  = Cdiv_real
      (Csum 3 (fun k => (nth k (custom_fft [C1; Ci; C0]) C0
                         * Cconj (nth k (custom_fft [Ci; C1; C1]) C0))%C))
      (INR 3).
Proof. apply (custom_fft_plancherel [C1; Ci; C0] [Ci; C1; C1]). reflexivity. Defined.

(** X7.  The convolution theorem: for two real arrays of one length, the
    transform of their circular convolution is the elementwise product of
    their transforms, and the inverse transform of that product gives the
    convolution back. *)
Theorem custom_fft_convolution (v w : list R) :
  length w = length v ->
  custom_fft (asarray_complex (circ_conv v w))
  = zip_with Cmul (custom_fft (asarray_complex v)) (custom_fft (asarray_complex w)) /\
  map Re (custom_ifft (zip_with Cmul (custom_fft (asarray_complex v))
                                (custom_fft (asarray_complex w))))
  = circ_conv v w.
Proof.
  intros Hlen. unfold asarray_complex.
  rewrite !custom_fft_is_dft, custom_ifft_is_idft.
  rewrite <- (dft_circ_conv_general v w Hlen).
  split; [reflexivity|]. rewrite idft_dft. apply map_Re_RtoC.
Qed.

Lemma custom_fft_convolution_witness :
  custom_fft (asarray_complex (circ_conv [1; 2; 3] [0; 1; 0]))
  = zip_with Cmul (custom_fft (asarray_complex [1; 2; 3]))
                  (custom_fft (asarray_complex [0; 1; 0])) /\
  map Re (custom_ifft (zip_with Cmul (custom_fft (asarray_complex [1; 2; 3]))
                                (custom_fft (asarray_complex [0; 1; 0]))))
  = circ_conv [1; 2; 3] [0; 1; 0].
Proof. apply (custom_fft_convolution [1; 2; 3] [0; 1; 0]). reflexivity. Defined.

(** X8.  The inverse transform of a spectrum is real exactly when the
    spectrum is conjugate-symmetric. *)
Theorem custom_ifft_real_iff (X : list C) :
  real_vector (custom_ifft X) <-> conj_symmetric X.
Proof.
  rewrite custom_ifft_is_idft. split.
  - intros Hreal. rewrite <- (dft_idft X), <- (real_vector_RtoC_Re _ Hreal).
    apply dft_real_conj_symmetric.
  - apply idft_real.
Qed.

(** X9.  In the radix-2 branch of [custom_fft] (a length above one with
    [N & (N - 1) == 0]) the length is even and the three arrays combined
    elementwise, [even], [odd] and [T], all have length [N / 2]. *)
Theorem custom_fft_radix2_shapes (x : list C) :
  (1 < length x)%nat -> Nat.land (length x) (length x - 1) = 0%nat ->
  Nat.even (length x) = true /\
  length (custom_fft (stride2 x)) = (length x / 2)%nat /\
  length (custom_fft (stride2 (tl x))) = (length x / 2)%nat /\
  length (twiddles (length x)) = (length x / 2)%nat.
Proof.
  intros Hbig Hpow. split; [|apply radix2_lengths; assumption].
  destruct (land_pred_even _ Hbig Hpow) as [m [Hlen _]].
  rewrite Hlen. apply Nat.even_spec. exists m. reflexivity.
Qed.

Lemma custom_fft_radix2_shapes_witness :
  Nat.even (length [C1; Ci; C0; C1]) = true /\
  length (custom_fft (stride2 [C1; Ci; C0; C1])) = (length [C1; Ci; C0; C1] / 2)%nat /\
  length (custom_fft (stride2 (tl [C1; Ci; C0; C1]))) = (length [C1; Ci; C0; C1] / 2)%nat /\
  length (twiddles (length [C1; Ci; C0; C1])) = (length [C1; Ci; C0; C1] / 2)%nat.
Proof.
  apply (custom_fft_radix2_shapes [C1; Ci; C0; C1]).
  - simpl. lia.
  - reflexivity.
Defined.

(** ** [make_good_unitary] *)

(** X10.  With a tolerance that is not negative, of the five assertions of
    [make_good_unitary] only the two on the phases can fail: whatever the
    dimension and the generator, a run never stops at the assertion on the
    magnitudes, at the round trip, or at the norm; and for a dimension of at
    least one and a tolerance up to [1/2] it passes all five and returns. *)
Theorem make_good_unitary_later_assertions (D : Z) (eps : R) (rng : RandomState) :
  rng_ok rng -> 0 <= eps ->
  make_good_unitary D eps rng <> inl AssertUnitMagnitude /\
  make_good_unitary D eps rng <> inl AssertRoundTrip /\
  make_good_unitary D eps rng <> inl AssertNorm /\
  ((1 <= D)%Z -> eps <= 1 / 2 -> exists v, make_good_unitary D eps rng = inr v).
Proof.
  intros Hrng Heps.
  assert (H3 : make_good_unitary D eps rng <> inl AssertUnitMagnitude /\
               make_good_unitary D eps rng <> inl AssertRoundTrip /\
               make_good_unitary D eps rng <> inl AssertNorm).
  { destruct (make_good_unitary_outcomes D eps rng Hrng) as [H|[H|[H|[v H]]]];
      rewrite H; repeat split; discriminate. }
  destruct H3 as [H1 [H2 H3]]. repeat split; try assumption.
  intros HD Hhalf. eexists.
  apply make_good_unitary_returns; [assumption|lia|lra].
Qed.

Lemma make_good_unitary_later_assertions_witness :
  make_good_unitary 4 (1 / 1000) rng4 = inr v4 /\
  make_good_unitary 4 (1 / 1000) rng4 <> inl AssertUnitMagnitude /\
  make_good_unitary 4 (1 / 1000) rng4 <> inl AssertRoundTrip /\
  make_good_unitary 4 (1 / 1000) rng4 <> inl AssertNorm /\
  ((1 <= 4)%Z -> 1 / 1000 <= 1 / 2 ->
   exists v, make_good_unitary 4 (1 / 1000) rng4 = inr v).
Proof.
  split; [apply make_good_unitary_4; lra|].
  apply (make_good_unitary_later_assertions 4 (1 / 1000) rng4).
  - apply rng4_ok.
  - lra.
Defined.

(** X11.  With a tolerance above [1/2] and at least three dimensions
    [make_good_unitary] never returns: it stops at one of the two assertions
    on the phases. *)
Theorem make_good_unitary_large_tolerance (D : Z) (eps : R) (rng : RandomState) :
  rng_ok rng -> 1 / 2 < eps -> (3 <= D)%Z ->
  make_good_unitary D eps rng = inl AssertPhaseLower \/
  make_good_unitary D eps rng = inl AssertPhaseUpper.
Proof. apply make_good_unitary_large_eps. Qed.

Lemma make_good_unitary_large_tolerance_witness :
  make_good_unitary 7 1 rng0 = inl AssertPhaseLower \/
  make_good_unitary 7 1 rng0 = inl AssertPhaseUpper.
Proof.
  apply (make_good_unitary_large_tolerance 7 1 rng0).
  - apply rng0_ok.
  - lra.
  - lia.
Defined.

(** X12.  A dimension that is not positive stops with the error of the
    generator on a negative size; for the dimensions one and two no phase is
    drawn, and the result is the impulse whatever the tolerance and the
    generator. *)
Theorem make_good_unitary_small_dimensions (D : Z) (eps : R) (rng : RandomState) :
  ((D <= 0)%Z -> make_good_unitary D eps rng = inl ValueError) /\
  (rng_ok rng -> (1 <= D <= 2)%Z ->
   make_good_unitary D eps rng = inr (impulse (Z.to_nat D))).
Proof.
  split; [apply make_good_unitary_nonpositive|apply make_good_unitary_small].
Qed.

(** X13.  The entries of a returned vector sum to one, none exceeds one in
    magnitude, and for an even dimension their alternating sum is one. *)
Theorem make_good_unitary_sums (D : Z) (eps : R) (rng : RandomState) (v : list R) :
  rng_ok rng -> make_good_unitary D eps rng = inr v ->
  fold_right Rplus 0 v = 1 /\
  (forall i, (i < length v)%nat -> Rabs (nth i v 0) <= 1) /\
  (Z.even D = true -> Rsum (length v) (fun n => (-1) ^ n * nth n v 0) = 1).
Proof.
  intros Hrng Hret. split; [apply (returned_sum D eps rng v Hrng Hret)|]. split.
  - intros i Hi. apply (returned_entry_bound D eps rng v i Hrng Hret Hi).
  - apply (returned_alternating_sum D eps rng v Hrng Hret).
Qed.

Lemma make_good_unitary_sums_witness :
  fold_right Rplus 0 v4 = 1 /\
  (forall i, (i < length v4)%nat -> Rabs (nth i v4 0) <= 1) /\
  (Z.even 4 = true -> Rsum (length v4) (fun n => (-1) ^ n * nth n v4 0) = 1).
Proof.
  apply (make_good_unitary_sums 4 (1 / 1000) rng4 v4).
  - apply rng4_ok.
  - apply make_good_unitary_4. lra.
Defined.

(** X14.  With a tolerance that is not negative, every vector that
    [make_good_unitary] returns is proper: not empty, with a spectrum of unit
    magnitude and no bin on the negative real axis. *)
Theorem make_good_unitary_proper (D : Z) (eps : R) (rng : RandomState) (v : list R) :
  rng_ok rng -> 0 <= eps -> make_good_unitary D eps rng = inr v -> proper_ssp v.
Proof. apply returned_proper. Qed.

Lemma make_good_unitary_proper_witness : proper_ssp v4.
Proof.
  apply (make_good_unitary_proper 4 (1 / 1000) rng4 v4).
  - apply rng4_ok.
  - lra.
  - apply make_good_unitary_4. lra.
Defined.

Lemma make_good_unitary_small_dimensions_witness :
  make_good_unitary 0 (1 / 1000) rng4 = inl ValueError /\
  make_good_unitary 2 (3 / 5) rng4 = inr (impulse (Z.to_nat 2)).
Proof.
  destruct (make_good_unitary_small_dimensions 0 (1 / 1000) rng4) as [H0 _].
  destruct (make_good_unitary_small_dimensions 2 (3 / 5) rng4) as [_ H2].
  split; [apply H0; lia|apply H2; [apply rng4_ok|lia]].
Defined.

(** ** [power_ssp] *)

(** X15.  [power_ssp] keeps the length of every vector, whether it returns
    numbers or nan; on a proper vector it returns numbers and also keeps the
    norm one, the sum of the entries one and the unit magnitude of the
    spectrum, for every real exponent. *)
Theorem power_ssp_keeps_norm (v : list R) (e : R) :
  flength (power_ssp v e) = length v /\
  (proper_ssp v ->
   exists p, power_ssp v e = Finite p /\
             length p = length v /\
             norm p = 1 /\
             fold_right Rplus 0 p = 1 /\
             valid_ssp p).
Proof.
  split; [apply power_ssp_flength|]. intros Hv.
  exists (power_ssp_finite v e).
  split; [apply power_ssp_proper; assumption|].
  split; [apply power_ssp_length|].
  split; [apply (proper_power_norm v Hv)|].
  split; [apply (proper_power_sum v e Hv)|apply (proper_power_valid v Hv)].
Qed.

Lemma power_ssp_keeps_norm_witness :
  exists p, power_ssp v4 (7 / 3) = Finite p /\
            length p = length v4 /\
            norm p = 1 /\
            fold_right Rplus 0 p = 1 /\
            valid_ssp p.
Proof.
  destruct (power_ssp_keeps_norm v4 (7 / 3)) as [_ H]. apply H. apply proper_v4.
Defined.

(** X16.  On a proper vector the power of a sum of exponents is the circular
    convolution of the powers: [power_ssp v (a + b)] is [power_ssp v a]
    convolved with [power_ssp v b]. *)
Theorem power_ssp_add (v : list R) (a b : R) :
  proper_ssp v ->
  exists pa pb, power_ssp v a = Finite pa /\
                power_ssp v b = Finite pb /\
                power_ssp v (a + b) = Finite (circ_conv pa pb).
Proof.
  intros Hv. exists (power_ssp_finite v a), (power_ssp_finite v b).
  rewrite !power_ssp_proper by assumption.
  repeat split. f_equal. apply (proper_power_add v Hv).
Qed.

Lemma power_ssp_add_witness :
  exists pa pb, power_ssp v4 3 = Finite pa /\
                power_ssp v4 (1 / 3) = Finite pb /\
                power_ssp v4 (3 + 1 / 3) = Finite (circ_conv pa pb).
Proof. apply (power_ssp_add v4 3 (1 / 3)). apply proper_v4. Defined.

(** X17.  On a proper vector the power by a natural number [n] is the
    [n]-fold circular convolution of the vector with itself. *)
Theorem power_ssp_natural (v : list R) (n : nat) :
  proper_ssp v -> power_ssp v (INR n) = Finite (circ_power v n).
Proof.
  intros Hv. rewrite power_ssp_proper by assumption.
  f_equal. apply proper_power_nat. assumption.
Qed.

Lemma power_ssp_natural_witness : power_ssp v4 (INR 3) = Finite (circ_power v4 3).
Proof. apply (power_ssp_natural v4 3). apply proper_v4. Defined.

(** X18.  On a valid SSP vector the power [-1] reads the vector backwards
    from index zero; on a proper vector it is the inverse for the circular
    convolution. *)
Theorem power_ssp_inverse (v : list R) :
  (valid_ssp v -> power_ssp v (-1) = Finite (reflect v)) /\
  (proper_ssp v ->
   exists q, power_ssp v (-1) = Finite q /\ circ_conv v q = impulse (length v)).
Proof.
  split.
  - intros Hv. rewrite power_ssp_valid by assumption.
    f_equal. apply power_ssp_neg1_reflect. assumption.
  - intros Hv. exists (power_ssp_finite v (-1)).
    split; [apply power_ssp_proper; assumption|].
    rewrite <- (power_ssp_1 v) at 1.
    rewrite <- (proper_power_add v Hv).
    replace (1 + -1) with 0 by ring. apply power_ssp_0.
Qed.

Lemma power_ssp_inverse_witness :
  power_ssp v4 (-1) = Finite (reflect v4) /\
  exists q, power_ssp v4 (-1) = Finite q /\ circ_conv v4 q = impulse (length v4).
Proof.
  destruct (power_ssp_inverse v4) as [H1 H2].
  split; [apply H1; apply valid_ssp_v4|apply H2; apply proper_v4].
Defined.

(** X19.  On a proper vector of length [D] the dot product of two powers is
    the mean over the bins of the cosine of the exponent difference times the
    phase of the bin; it lies in [[-1, 1]], is one for equal exponents, and
    is the same at [e] and at the mirrored exponent [2 a - e]. *)
Theorem power_ssp_dot (v : list R) (a e : R) :
  proper_ssp v ->
  exists pa pe pm,
    power_ssp v a = Finite pa /\
    power_ssp v e = Finite pe /\
    power_ssp v (2 * a - e) = Finite pm /\
    dot pa pe
    = Rsum (length v)
           (fun k => cos ((a - e) * Carg (nth k (fft (asarray_complex v)) C0)))
      / INR (length v) /\
    -1 <= dot pa pe <= 1 /\
    dot pa pa = 1 /\
    dot pa pm = dot pa pe.
Proof.
  intros Hv.
  exists (power_ssp_finite v a), (power_ssp_finite v e), (power_ssp_finite v (2 * a - e)).
  rewrite !power_ssp_proper by assumption.
  rewrite fft_is_dft. unfold asarray_complex.
  split; [reflexivity|]. split; [reflexivity|]. split; [reflexivity|].
  split; [apply (proper_power_dot v a e Hv)|].
  split; [apply (similarity_dot_bounds v a e Hv)|].
  split; [apply (similarity_dot_same v a Hv)|apply (similarity_dot_mirror v a e Hv)].
Qed.

Lemma power_ssp_dot_witness :
  exists pa pe pm,
    power_ssp v4 1 = Finite pa /\
    power_ssp v4 (5 / 2) = Finite pe /\
    power_ssp v4 (2 * 1 - 5 / 2) = Finite pm /\
    dot pa pe
    = Rsum (length v4)
           (fun k => cos ((1 - 5 / 2) * Carg (nth k (fft (asarray_complex v4)) C0)))
      / INR (length v4) /\
    -1 <= dot pa pe <= 1 /\
    dot pa pa = 1 /\
    dot pa pm = dot pa pe.
Proof. apply (power_ssp_dot v4 1 (5 / 2)). apply proper_v4. Defined.

(** ** The drivers *)

(** X20.  One turn of the loop of [python/analyze_similarity.py], on vectors
    that are proper: the average cosine similarity and the average dot
    product are one number, in [[-1, 1]]; it is one at the exponent one, and
    the exponents [e] and [2 - e] give the same pair. *)
Theorem analyze_similarity_loop_body (ssps : list (list R)) (exponent : R) :
  ssps <> [] -> Forall proper_ssp ssps ->
  let norms_original := map norm ssps in
  (exists d, analyze_similarity.loop_body ssps norms_original exponent
             = (Some d, Some d) /\ -1 <= d <= 1) /\
  analyze_similarity.loop_body ssps norms_original 1 = (Some 1, Some 1) /\
  analyze_similarity.loop_body ssps norms_original (2 - exponent)
  = analyze_similarity.loop_body ssps norms_original exponent.
Proof.
  intros Hne Hall. cbv zeta. rewrite !loop_body_proper by assumption.
  split; [eexists; split; [reflexivity|apply mean_dots_bounds; assumption]|].
  split; [rewrite mean_dots_same by assumption; reflexivity|].
  rewrite (map_ext_in (fun v => dot (power_ssp_finite v 1) (power_ssp_finite v (2 - exponent)))
                      (fun v => dot (power_ssp_finite v 1) (power_ssp_finite v exponent))).
  - reflexivity.
  - intros v Hv. rewrite Forall_forall in Hall.
    replace (2 - exponent) with (2 * 1 - exponent) by ring.
    apply similarity_dot_mirror. auto.
Qed.

Lemma analyze_similarity_loop_body_witness :
  (exists d, analyze_similarity.loop_body [v4] (map norm [v4]) (1 / 3)
             = (Some d, Some d) /\ -1 <= d <= 1) /\
  analyze_similarity.loop_body [v4] (map norm [v4]) 1 = (Some 1, Some 1) /\
  analyze_similarity.loop_body [v4] (map norm [v4]) (2 - 1 / 3)
  = analyze_similarity.loop_body [v4] (map norm [v4]) (1 / 3).
Proof.
  apply (analyze_similarity_loop_body [v4] (1 / 3)).
  - discriminate.
  - constructor; [apply proper_v4|constructor].
Defined.

(** X21.  [python/analyze_similarity.py] as a whole: when the generator
    keeps its promises the script reaches the plot, and the two curves it
    plots are the same list of [1000] numbers, all in [[-1, 1]]. *)
Theorem analyze_similarity_main (rng : nat -> RandomState) :
  rng_ok (rng 0%nat) ->
  exists values,
    analyze_similarity.main rng = inr (map Some values, map Some values) /\
    length values = 1000%nat /\
    Forall (fun x => -1 <= x <= 1) values.
Proof.
  intros Hrng. unfold analyze_similarity.main, analyze_similarity.N.
  cbn [seq map sequence_result].
  assert (Heps : 0 <= default_eps <= 1 / 2) by (unfold default_eps; lra).
  assert (Hret := make_good_unitary_returns analyze_similarity.D default_eps
                    (rng 0%nat) Hrng ltac:(unfold analyze_similarity.D; lia) Heps).
  rewrite Hret.
  set (v := map Re (idft _)) in *.
  assert (Hv : proper_ssp v).
  { apply (returned_proper _ _ _ _ Hrng (proj1 Heps) Hret). }
  assert (Hall : Forall proper_ssp [v]) by (constructor; [assumption|constructor]).
  unfold analyze_similarity.curves. cbv zeta.
  rewrite (map_ext _ (fun e => let m := np_mean (map (fun v => dot (power_ssp_finite v 1)
                                                               (power_ssp_finite v e)) [v])
                               in (Some m, Some m)))
    by (intros e; apply loop_body_proper; [discriminate|assumption]).
  rewrite !map_map. cbn [fst snd].
  exists (map (fun e => np_mean (map (fun v => dot (power_ssp_finite v 1)
                                                   (power_ssp_finite v e)) [v]))
              analyze_similarity.exponents).
  split; [rewrite !map_map; reflexivity|]. split.
  - rewrite length_map. unfold analyze_similarity.exponents. apply linspace_length.
  - apply Forall_map, Forall_forall. intros e _.
    apply mean_dots_bounds; [discriminate|assumption].
Qed.

Lemma analyze_similarity_main_witness :
  exists values,
    analyze_similarity.main (fun _ => rng4) = inr (map Some values, map Some values) /\
    length values = 1000%nat /\
    Forall (fun x => -1 <= x <= 1) values.
Proof. apply (analyze_similarity_main (fun _ => rng4)). apply rng4_ok. Defined.

(** X22.  One turn of the loop of [analyze_similarity.py] at the root, on
    vectors that are proper: the powers [20] are computed without an error,
    and against them the average cosine similarity and the average dot
    product are one number, in [[-1, 1]]; it is one at the exponent [20], and
    the exponents [e] and [40 - e] give the same pair. *)
Theorem analyze_similarity_root_loop_body (ssps : list (list R)) (exponent : R) :
  ssps <> [] -> Forall proper_ssp ssps ->
  exists ssps_original,
    sequence_result (map (fun ssp => power_ssp_np ssp 20) ssps) = inr ssps_original /\
    let norms_original := map nan_norm ssps_original in
    let body := analyze_similarity_root.loop_body ssps ssps_original norms_original in
    (exists d, body exponent = inr (Some d, Some d) /\ -1 <= d <= 1) /\
    body 20 = inr (Some 1, Some 1) /\
    body (40 - exponent) = body exponent.
Proof.
  intros Hne Hall. eexists.
  split; [apply power_ssp_np_proper_sequence; assumption|]. cbv zeta.
  pose proof (fun e => loop_body_root_proper ssps e Hne Hall) as Hbody.
  cbv zeta in Hbody. rewrite !Hbody.
  split; [eexists; split; [reflexivity|apply mean_dots_bounds; assumption]|].
  split; [rewrite mean_dots_same by assumption; reflexivity|].
  rewrite (map_ext_in (fun v => dot (power_ssp_finite v 20) (power_ssp_finite v (40 - exponent)))
                      (fun v => dot (power_ssp_finite v 20) (power_ssp_finite v exponent))).
  - reflexivity.
  - intros v Hv. rewrite Forall_forall in Hall.
    replace (40 - exponent) with (2 * 20 - exponent) by ring.
    apply similarity_dot_mirror. auto.
Qed.

Lemma analyze_similarity_root_loop_body_witness :
  exists ssps_original,
    sequence_result (map (fun ssp => power_ssp_np ssp 20) [v4]) = inr ssps_original /\
    let norms_original := map nan_norm ssps_original in
    let body := analyze_similarity_root.loop_body [v4] ssps_original norms_original in
    (exists d, body (-50) = inr (Some d, Some d) /\ -1 <= d <= 1) /\
    body 20 = inr (Some 1, Some 1) /\
    body (40 - (-50)) = body (-50).
Proof.
  apply (analyze_similarity_root_loop_body [v4] (-50)).
  - discriminate.
  - constructor; [apply proper_v4|constructor].
Defined.

Lemma map_nth_seq (p : list R) :
  map (fun i => nth i p 0) (seq 0 (length p)) = p.
Proof.
  apply (nth_ext _ _ 0 0); [rewrite length_map, length_seq; reflexivity|].
  intros i Hi. rewrite length_map, length_seq in Hi.
  rewrite (nth_map_in _ _ _ 0%nat) by (rewrite length_seq; assumption).
  rewrite seq_nth by assumption. reflexivity.
Qed.

(** X23.  [update] of [python/analyze_3d.py], for the vector that
    [make_good_unitary(10)] returned: at every frame the three indices are in
    range and nothing is nan, the printed norm is [1], the printed mean
    [1/10] and the printed standard deviation [3/10], and the point drawn
    lies strictly inside the limits set for the three axes. *)
Theorem analyze_3d_update (rng : RandomState) (ssp : list R) (frame : nat) :
  rng_ok rng ->
  make_good_unitary analyze_3d.d default_eps rng = inr ssp ->
  (frame < analyze_3d.n_frames)%nat ->
  exists out x y z,
    analyze_3d.update ssp frame = Some out /\
    analyze_3d.printed_norm out = Some 1 /\
    analyze_3d.printed_mean out = Some (1 / 10) /\
    analyze_3d.printed_std out = Some (3 / 10) /\
    analyze_3d.point out = (Some x, Some y, Some z) /\
    (exists lo hi, analyze_3d.axis_limits ssp 0 = Some (Some lo, Some hi) /\
                   lo < x < hi) /\
    (exists lo hi, analyze_3d.axis_limits ssp 1 = Some (Some lo, Some hi) /\
                   lo < y < hi) /\
    (exists lo hi, analyze_3d.axis_limits ssp 2 = Some (Some lo, Some hi) /\
                   lo < z < hi).
Proof.
  intros Hrng Hret Hframe.
  assert (Heps : 0 <= default_eps) by (unfold default_eps; lra).
  pose proof (returned_proper _ _ _ _ Hrng Heps Hret) as Hv.
  pose proof (returned_length _ _ _ _ Hrng Hret) as Hlen.
  change (Z.to_nat analyze_3d.d) with 10%nat in Hlen.
  set (e := -10 + INR frame * ((10 - -10) / INR (analyze_3d.n_frames - 1))).
  set (p := power_ssp_finite ssp e).
  assert (He : nth_error analyze_3d.exponents frame = Some e)
    by (apply linspace_nth_error; assumption).
  assert (Hp : nth_error (analyze_3d.ssp_powers ssp) frame = Some (Finite p)).
  { unfold analyze_3d.ssp_powers. rewrite nth_error_map, He. cbn [option_map].
    rewrite power_ssp_proper by assumption. reflexivity. }
  assert (Hplen : length p = 10%nat) by (unfold p; rewrite power_ssp_length; exact Hlen).
  assert (Hin : In e analyze_3d.exponents) by (eapply nth_error_In; exact He).
  assert (Hlim : forall j, (j < 10)%nat ->
            exists lo hi, analyze_3d.axis_limits ssp j = Some (Some lo, Some hi) /\
                          lo < nth j p 0 < hi).
  { intros j Hj. eexists. eexists.
    split; [apply axis_limits_proper; [assumption|rewrite Hlen; assumption]|].
    unfold analyze_3d.margin.
    assert (Hcol : In (nth j p 0)
                      (map (fun e => nth j (power_ssp_finite ssp e) 0)
                           analyze_3d.exponents)).
    { apply in_map_iff. exists e. split; [reflexivity|exact Hin]. }
    pose proof (np_min_max_bounds _ _ Hcol). lra. }
  unfold analyze_3d.update. rewrite He, Hp.
  rewrite (entry_Finite p 0), (entry_Finite p 1), (entry_Finite p 2)
    by (rewrite Hplen; lia).
  eexists. exists (nth 0 p 0), (nth 1 p 0), (nth 2 p 0).
  split; [reflexivity|]. cbn [analyze_3d.printed_norm analyze_3d.printed_mean
                                analyze_3d.printed_std analyze_3d.point].
  assert (Hne : p <> []) by (intros E; rewrite E in Hplen; discriminate).
  destruct (mean_std_unit p Hne (proper_power_norm ssp Hv e) (proper_power_sum ssp e Hv))
    as [Hmean Hstd].
  assert (H10 : INR (length p) = 10) by (rewrite Hplen; simpl; ring).
  rewrite H10 in Hmean, Hstd.
  split; [cbn [nan_norm]; f_equal; apply (proper_power_norm ssp Hv)|].
  split; [destruct p; [contradiction|]; cbn [array_mean]; f_equal; exact Hmean|].
  split.
  - destruct p; [contradiction|]. cbn [array_std]. f_equal.
    rewrite Hstd. replace (10 - 1) with (3 * 3) by ring.
    rewrite sqrt_square by lra. reflexivity.
  - split; [reflexivity|]. repeat split; apply Hlim; lia.
Qed.

Lemma analyze_3d_update_witness :
  exists ssp out,
    make_good_unitary analyze_3d.d default_eps rng4 = inr ssp /\
    analyze_3d.update ssp 7 = Some out /\
    analyze_3d.printed_norm out = Some 1 /\
    analyze_3d.printed_mean out = Some (1 / 10) /\
    analyze_3d.printed_std out = Some (3 / 10).
Proof.
  assert (Hret := make_good_unitary_returns analyze_3d.d default_eps rng4 rng4_ok
                    ltac:(unfold analyze_3d.d; lia)
                    ltac:(unfold default_eps; lra)).
  destruct (analyze_3d_update rng4 _ 7 rng4_ok Hret
              ltac:(unfold analyze_3d.n_frames; lia))
    as [out [x [y [z [Hout [Hn [Hm [Hs _]]]]]]]].
  eexists. exists out. repeat split; eassumption.
Defined.

(** X24.  [update] of [python/analyze_parallel.py], for the vector that
    [make_good_unitary(3)] returned: at every frame each of the three indices
    is in range and each line runs from zero to a height that is a number
    strictly inside the limits [(-1.5, 1.5)] of the axis; the first frame
    draws the impulse and the last frame the circular self-convolution of the
    vector. *)
Theorem analyze_parallel_update (rng : RandomState) (ssp : list R) (frame : nat) :
  rng_ok rng ->
  make_good_unitary analyze_parallel.d default_eps rng = inr ssp ->
  (frame < analyze_parallel.n_frames)%nat ->
  exists lines,
    analyze_parallel.update ssp frame = Some lines /\
    length lines = 3%nat /\
    Forall (fun l => fst (fst l) = snd (fst l) /\ fst (snd l) = 0 /\
                     exists y, snd (snd l) = Some y /\
                               fst analyze_parallel.ylim < y
                                 < snd analyze_parallel.ylim) lines /\
    (frame = 0%nat -> map (fun l => snd (snd l)) lines = map Some [1; 0; 0]) /\
    (frame = 399%nat ->
     map (fun l => snd (snd l)) lines = map Some (circ_conv ssp ssp)).
Proof.
  intros Hrng Hret Hframe.
  assert (Heps : 0 <= default_eps) by (unfold default_eps; lra).
  pose proof (returned_proper _ _ _ _ Hrng Heps Hret) as Hv.
  pose proof (returned_length _ _ _ _ Hrng Hret) as Hlen.
  change (Z.to_nat analyze_parallel.d) with 3%nat in Hlen.
  set (e := 0 + INR frame * ((2 - 0) / INR (analyze_parallel.n_frames - 1))).
  set (p := power_ssp_finite ssp e).
  assert (He : nth_error (linspace 0 2 analyze_parallel.n_frames) frame = Some e)
    by (apply linspace_nth_error; assumption).
  assert (Hplen : length p = 3%nat) by (unfold p; rewrite power_ssp_length; exact Hlen).
  unfold analyze_parallel.update. rewrite He. cbv zeta.
  rewrite power_ssp_proper by assumption. fold p.
  change (Z.to_nat analyze_parallel.d) with 3%nat.
  rewrite lines_data_in_range
    by (rewrite Hplen; apply Forall_forall; intros i Hi; apply in_seq in Hi; lia).
  eexists. split; [reflexivity|].
  split; [rewrite length_map, length_seq; reflexivity|].
  assert (Hheights : map (fun l : R * R * (R * option R) => snd (snd l))
                         (map (fun i => (INR i, INR i, (0, Some (nth i p 0)))) (seq 0 3))
                     = map Some p).
  { rewrite map_map. cbn [snd]. rewrite <- (map_map (fun i => nth i p 0) Some).
    rewrite <- Hplen. rewrite map_nth_seq. reflexivity. }
  split; [|split].
  - apply Forall_map, Forall_forall. intros i Hi. apply in_seq in Hi.
    cbn [fst snd]. split; [reflexivity|]. split; [reflexivity|].
    exists (nth i p 0). split; [reflexivity|].
    assert (Hb : Rabs (nth i p 0) <= norm p) by (apply entry_le_norm; rewrite Hplen; lia).
    unfold p in Hb at 2. rewrite (proper_power_norm ssp Hv) in Hb.
    unfold analyze_parallel.ylim. cbn [fst snd].
    unfold Rabs in Hb. destruct (Rcase_abs (nth i p 0)); lra.
  - intros ->. rewrite Hheights. f_equal. unfold p, e.
    replace (0 + INR 0 * ((2 - 0) / INR (analyze_parallel.n_frames - 1))) with 0
      by (simpl INR; ring).
    rewrite power_ssp_0, Hlen. reflexivity.
  - intros ->. rewrite Hheights. f_equal. unfold p, e.
    change (analyze_parallel.n_frames - 1)%nat with 399%nat.
    replace (0 + INR 399 * ((2 - 0) / INR 399)) with 2
      by (field; apply not_0_INR; lia).
    apply power_ssp_2_circ_conv.
Qed.

Lemma analyze_parallel_update_witness :
  exists ssp lines,
    make_good_unitary analyze_parallel.d default_eps rng4 = inr ssp /\
    analyze_parallel.update ssp 399 = Some lines /\
    length lines = 3%nat /\
    map (fun l => snd (snd l)) lines = map Some (circ_conv ssp ssp).
Proof.
  assert (Hret := make_good_unitary_returns analyze_parallel.d default_eps rng4 rng4_ok
                    ltac:(unfold analyze_parallel.d; lia)
                    ltac:(unfold default_eps; lra)).
  destruct (analyze_parallel_update rng4 _ 399 rng4_ok Hret
              ltac:(unfold analyze_parallel.n_frames; lia))
    as [lines [Hl [Hn [_ [_ Hlast]]]]].
  eexists. exists lines. repeat split; try eassumption. apply Hlast. reflexivity.
Defined.
